(** * Boost.URL mutable container: a shallow embedding of [basic_value]

    The development follows [include/boost/url/impl/basic_value.ipp]:
    the container owns one contiguous NUL-terminated byte buffer [s_] and a
    component index table [pt_]; every setter validates or measures its
    argument, splices room into the buffer with [resize] and writes the
    delimiters and the payload.

    Setters run in a small state-and-exception monad: a C++ [throw] leaves
    the object in whatever state the statements before it produced, so an
    outcome is always paired with the state reached. *)

From Stdlib Require Import List Arith Lia Bool Ascii String NArith DecimalString.
Import ListNotations.

(* ================================================================== *)
(** ** Bytes and buffers *)
(* ================================================================== *)

Definition bytes := list ascii.

Definition NUL : ascii := Ascii.zero.

(** [string_view] literals of the source are written [(str "...")]. *)
Definition str (s : string) : bytes := list_ascii_of_string s.

Definition chr (s : string) : ascii :=
  match s with
  | String c _ => c
  | EmptyString => NUL
  end.

Definition empty (s : bytes) : bool :=
  match s with
  | [] => true
  | _ :: _ => false
  end.

(** [s.front()], [s.back()], [s[i]], [s.substr(1)]. *)
Definition front (s : bytes) : ascii := nth 0 s NUL.
Definition back (s : bytes) : ascii := last s NUL.
Definition substr1 (s : bytes) : bytes := skipn 1 s.
Definition remove_prefix (n : nat) (s : bytes) : bytes := skipn n s.
Definition remove_suffix (n : nat) (s : bytes) : bytes :=
  firstn (List.length s - n) s.

(** The view [string_view(p + off, len)] of a buffer. *)
Definition sub (buf : bytes) (off len : nat) : bytes :=
  firstn len (skipn off buf).

(** Reading [buf[i]]; outside the buffer the model reads NUL. *)
Definition rd (buf : bytes) (i : nat) : ascii := nth i buf NUL.

(** Storing [l] at [buf + pos].  The buffer is never extended by a store. *)
Fixpoint write (buf : bytes) (pos : nat) (l : bytes) : bytes :=
  match buf with
  | [] => []
  | c :: r =>
      match pos with
      | S p => c :: write r p l
      | 0 => match l with
             | [] => buf
             | x :: l' => x :: write r 0 l'
             end
      end
  end.

(** [std::memmove(buf + dst, buf + src, n)]. *)
Definition memmove (dst src n : nat) (buf : bytes) : bytes :=
  write buf dst (sub buf src n).

(** Modelled from the spec: [detail::storage] is not part of the sources.
    Section 3.1 and 4.4 describe it: the buffer holds [len] bytes followed
    by a trailing NUL, and growing keeps the bytes already there.
    [storage_resize n] is [a_.resize(n)]: room for [n] bytes plus the
    terminator, old bytes kept, new bytes zero. *)
Definition storage_resize (n : nat) (buf : bytes) : bytes :=
  firstn n buf ++ repeat NUL (n - List.length buf) ++ [NUL].

(** A C string read from a pointer: the bytes before the first NUL. *)
Fixpoint cstring (m : bytes) : bytes :=
  match m with
  | [] => []
  | c :: r => if Ascii.eqb c NUL then [] else c :: cstring r
  end.

(** [(std::size_t)-1] on the 64-bit targets of the library. *)
Definition size_max : N := 18446744073709551615%N.

(* ================================================================== *)
(** ** Character classification (spec 4.1) *)
(* ================================================================== *)

Module chars.

Definition in_range (lo hi : string) (c : ascii) : bool :=
  (nat_of_ascii (chr lo) <=? nat_of_ascii c) &&
  (nat_of_ascii c <=? nat_of_ascii (chr hi)).

Definition one_of (set : string) (c : ascii) : bool :=
  existsb (Ascii.eqb c) (list_ascii_of_string set).

Definition is_alpha (c : ascii) : bool :=
  in_range "a" "z" c || in_range "A" "Z" c.

Definition is_digit (c : ascii) : bool := in_range "0" "9" c.

Definition is_hexdig (c : ascii) : bool :=
  is_digit c || in_range "a" "f" c || in_range "A" "F" c.

Definition is_unreserved (c : ascii) : bool :=
  is_alpha c || is_digit c || one_of "-._~" c.

Definition is_sub_delims (c : ascii) : bool := one_of "!$&'()*+,;=" c.

Definition is_gen_delims (c : ascii) : bool := one_of ":/?#[]@" c.

(** userinfo-nc, userinfo, reg-name, pchar, query, fragment. *)
Definition is_userinfo_nc (c : ascii) : bool :=
  is_unreserved c || is_sub_delims c.

Definition is_userinfo (c : ascii) : bool :=
  is_unreserved c || is_sub_delims c || one_of ":" c.

Definition is_reg_name (c : ascii) : bool :=
  is_unreserved c || is_sub_delims c.

Definition is_pchar (c : ascii) : bool :=
  is_unreserved c || is_sub_delims c || one_of ":@" c.

Definition is_query (c : ascii) : bool := is_pchar c || one_of "/?" c.

Definition is_fragment (c : ascii) : bool := is_pchar c || one_of "/?" c.

End chars.

(* ================================================================== *)
(** ** Errors and the setter monad *)
(* ================================================================== *)

(** [invalid_part] and [too_large] are raised by [basic_value] itself; the
    others are the error kinds of spec 6.3 that the grammar and the
    percent-encoding engine report. *)
Inductive error : Type :=
  | invalid_part
  | too_large
  | invalid_scheme
  | invalid_authority
  | invalid_host
  | invalid_port
  | invalid_path
  | illegal_reserved_char
  | bad_pct_hexdig.

Inductive outcome (A : Type) : Type :=
  | Ok (a : A)
  | Raise (e : error).

Arguments Ok {A} a.
Arguments Raise {A} e.

(** Results of the free functions that validate without touching the
    container. *)
Definition result (A : Type) := outcome A.

Definition raised {A} (r : outcome A) : bool :=
  match r with
  | Ok _ => false
  | Raise _ => true
  end.

(* ================================================================== *)
(** ** Percent-encoding engine (spec 4.2) *)
(* ================================================================== *)

Module pct.

(** Modelled from the spec: [detail::pct_set] and its instances
    ([userinfo_nc_pct_set], [userinfo_pct_set], [reg_name_pct_set],
    [query_pct_set], [frag_pct_set]) are not part of the sources.  Section
    4.2: a pct-set is a mask; bytes outside the mask are written as the
    three bytes [%HH] with upper-case hex digits; hex digits of either case
    are accepted when reading.  (The component overview of the spec says
    lower-case on emission; no theorem below depends on the case of the
    digits written.) *)
Record pct_set : Type := mk_pct_set { mask : ascii -> bool }.

Definition percent : ascii := chr "%".

Definition hex_digit (n : nat) : ascii :=
  nth n (str "0123456789ABCDEF") (chr "0").

Definition hex_value (c : ascii) : option nat :=
  if chars.is_digit c then Some (nat_of_ascii c - nat_of_ascii (chr "0"))
  else if chars.in_range "a" "f" c
       then Some (10 + (nat_of_ascii c - nat_of_ascii (chr "a")))
  else if chars.in_range "A" "F" c
       then Some (10 + (nat_of_ascii c - nat_of_ascii (chr "A")))
  else None.

Definition triplet (c : ascii) : bytes :=
  [percent; hex_digit (nat_of_ascii c / 16); hex_digit (nat_of_ascii c mod 16)].

(** [e.encoded_size(s)]. *)
Fixpoint encoded_size (e : pct_set) (s : bytes) : nat :=
  match s with
  | [] => 0
  | c :: r => (if mask e c then 1 else 3) + encoded_size e r
  end.

(** The bytes [e.encode(dest, s)] stores at [dest]. *)
Fixpoint encode (e : pct_set) (s : bytes) : bytes :=
  match s with
  | [] => []
  | c :: r => (if mask e c then [c] else triplet c) ++ encode e r
  end.

(** [e.validate(s)]: every byte is in the mask or belongs to a well-formed
    triplet. *)
Fixpoint validate (e : pct_set) (s : bytes) : result unit :=
  match s with
  | [] => Ok tt
  | c :: r =>
      if Ascii.eqb c percent then
        match r with
        | h :: l :: r' =>
            if chars.is_hexdig h && chars.is_hexdig l
            then validate e r' else Raise bad_pct_hexdig
        | _ => Raise bad_pct_hexdig
        end
      else if mask e c then validate e r
      else Raise illegal_reserved_char
  end.

(** [e.parse(begin, end, ec)]: the number of bytes of the longest prefix
    made of mask bytes and triplets; a malformed triplet sets [ec]. *)
Fixpoint parse (e : pct_set) (s : bytes) : result nat :=
  match s with
  | [] => Ok 0
  | c :: r =>
      if Ascii.eqb c percent then
        match r with
        | h :: l :: r' =>
            if chars.is_hexdig h && chars.is_hexdig l
            then match parse e r' with
                 | Ok n => Ok (3 + n)
                 | Raise x => Raise x
                 end
            else Raise bad_pct_hexdig
        | _ => Raise bad_pct_hexdig
        end
      else if mask e c
           then match parse e r with
                | Ok n => Ok (1 + n)
                | Raise x => Raise x
                end
      else Ok 0
  end.

(** [detail::decode]: triplets become the byte they name. *)
Fixpoint decode (s : bytes) : bytes :=
  match s with
  | [] => []
  | c :: r =>
      if Ascii.eqb c percent then
        match r with
        | h :: l :: r' =>
            match hex_value h, hex_value l with
            | Some a, Some b => ascii_of_nat (16 * a + b) :: decode r'
            | _, _ => c :: decode r
            end
        | _ => c :: decode r
        end
      else c :: decode r
  end.

Definition userinfo_nc_pct_set : pct_set := mk_pct_set chars.is_userinfo_nc.
Definition userinfo_pct_set : pct_set := mk_pct_set chars.is_userinfo.
Definition reg_name_pct_set : pct_set := mk_pct_set chars.is_reg_name.
Definition pchar_pct_set : pct_set := mk_pct_set chars.is_pchar.
Definition query_pct_set : pct_set := mk_pct_set chars.is_query.
Definition frag_pct_set : pct_set := mk_pct_set chars.is_fragment.

End pct.

(* ================================================================== *)
(** ** Component index table (spec 3.2) *)
(* ================================================================== *)

Module detail.

(** Modelled from the spec: the [detail::] component ids and the [parts]
    table are declared in headers that are not part of the sources.
    Section 3.2 gives the nine offsets and their order; [length], [get]
    and [split] are read off their uses in [basic_value.ipp]. *)
Definition id_scheme : nat := 0.
Definition id_username : nat := 1.
Definition id_password : nat := 2.
Definition id_hostname : nat := 3.
Definition id_port : nat := 4.
Definition id_path : nat := 5.
Definition id_query : nat := 6.
Definition id_frag : nat := 7.
Definition id_end : nat := 8.

Inductive host_type : Type :=
  | host_none
  | host_name
  | host_ipv4
  | host_ipv6
  | host_ipvfuture.

Record parts : Type := mk_parts {
  offset : list nat;
  port : option N;
  host : host_type;
  nseg : nat;
  nparam : nat
}.

(** A default-constructed table: all offsets zero. *)
Definition parts_init : parts :=
  mk_parts (repeat 0 (id_end + 1)) None host_none 0 0.

(** [pt.offset[i]]. *)
Definition off (pt : parts) (i : nat) : nat := nth i (offset pt) 0.

Fixpoint set_nth (i v : nat) (l : list nat) : list nat :=
  match l with
  | [] => []
  | x :: r =>
      match i with
      | 0 => v :: r
      | S j => x :: set_nth j v r
      end
  end.

(** [pt.offset[i] = v]. *)
Definition set_off (i v : nat) (pt : parts) : parts :=
  mk_parts (set_nth i v (offset pt)) (port pt) (host pt) (nseg pt) (nparam pt).

Definition set_port (p : option N) (pt : parts) : parts :=
  mk_parts (offset pt) p (host pt) (nseg pt) (nparam pt).

Definition set_host (h : host_type) (pt : parts) : parts :=
  mk_parts (offset pt) (port pt) h (nseg pt) (nparam pt).

(** [pt.length(id)] and [pt.length(first, last)]. *)
Definition length (pt : parts) (id : nat) : nat := off pt (id + 1) - off pt id.

Definition length_range (pt : parts) (first last : nat) : nat :=
  off pt last - off pt first.

(** [pt.get(id, s)] and [pt.get(first, last, s)]. *)
Definition get (pt : parts) (id : nat) (s : bytes) : bytes :=
  sub s (off pt id) (length pt id).

Definition get_range (pt : parts) (first last : nat) (s : bytes) : bytes :=
  sub s (off pt first) (length_range pt first last).

(** [pt.split(id, n)]: component [id] keeps its first [n] bytes, the rest
    goes to the component after it. *)
Definition split (id n : nat) (pt : parts) : parts :=
  set_off (id + 1) (off pt id + n) pt.

End detail.

(* ================================================================== *)
(** ** The container and its monad *)
(* ================================================================== *)

Record basic_value : Type := mk_value {
  pt_ : detail.parts;
  s_ : bytes
}.

(** [basic_value(a)]: no buffer yet ([s_ == nullptr]), an all-zero table. *)
Definition value_init : basic_value := mk_value detail.parts_init [].

Definition M (A : Type) : Type := basic_value -> basic_value * outcome A.

Definition ret {A} (a : A) : M A := fun st => (st, Ok a).

Definition bind {A B} (m : M A) (k : A -> M B) : M B :=
  fun st =>
    match m st with
    | (st', Ok a) => k a st'
    | (st', Raise e) => (st', Raise e)
    end.

Definition raise {A} (e : error) : M A := fun st => (st, Raise e).

Notation "x <- c1 ;; c2" := (bind c1 (fun x => c2))
  (at level 61, c1 at next level, right associativity).
Notation "c1 ;; c2" := (bind c1 (fun _ => c2))
  (at level 61, right associativity).

Definition get_pt : M detail.parts := fun st => (st, Ok (pt_ st)).
Definition get_s : M bytes := fun st => (st, Ok (s_ st)).

Definition modify_pt (f : detail.parts -> detail.parts) : M unit :=
  fun st => (mk_value (f (pt_ st)) (s_ st), Ok tt).

Definition modify_s (f : bytes -> bytes) : M unit :=
  fun st => (mk_value (pt_ st) (f (s_ st)), Ok tt).

(** A validation that throws: the error of a free function surfaces. *)
Definition lift {A} (r : result A) : M A :=
  fun st => (st, r).

(** [s.copy(s_ + dest, n)] and [dest[i] = c], with [dest] an offset into
    the buffer. *)
Definition store (dest : nat) (l : bytes) : M unit :=
  modify_s (fun s => write s dest l).

Definition poke (dest : nat) (c : string) : M unit := store dest [chr c].

(** [for(i = lo; i <= hi; ++i) body] and [for(i = lo; i < hi; ++i) body]. *)
Fixpoint for_loop (count i : nat) (body : nat -> M unit) : M unit :=
  match count with
  | 0 => ret tt
  | S c => body i ;; for_loop c (S i) body
  end.

Definition for_le (lo hi : nat) (body : nat -> M unit) : M unit :=
  for_loop (S hi - lo) lo body.

Definition for_lt (lo hi : nat) (body : nat -> M unit) : M unit :=
  for_loop (hi - lo) lo body.

(** Final state and outcome of a call. *)
Definition exec {A} (m : M A) (st : basic_value) : basic_value := fst (m st).
Definition eval {A} (m : M A) (st : basic_value) : outcome A := snd (m st).

(** Modelled from the spec: [basic_value::size()] is declared in a header
    that is not part of the sources; by section 3.2 the encoded length is
    the last offset. *)
Definition size : M nat :=
  pt <- get_pt ;; ret (detail.off pt detail.id_end).

(* ================================================================== *)
(** ** The resize engine *)
(* ================================================================== *)

(** [char* basic_value::resize(int id, std::size_t new_size)]. *)
Definition resize (id new_size : nat) : M nat :=
  pt <- get_pt ;;
  let len := detail.length pt id in
  if len =? new_size then ret (detail.off pt id)
  else if new_size <=? len then
    (* shrink *)
    let n := len - new_size in
    let pos := detail.off pt (id + 1) in
    modify_s (memmove (pos - n) pos
                (detail.off pt detail.id_end - pos + 1)) ;;
    for_le (id + 1) detail.id_end (fun i =>
      modify_pt (fun q => detail.set_off i (detail.off q i - n) q)) ;;
    pt' <- get_pt ;;
    ret (detail.off pt' id)
  else
    (* grow *)
    sz <- size ;;
    if (size_max - N.of_nat sz <? N.of_nat (new_size - len))%N
    then raise too_large
    else
      modify_s (storage_resize (sz - len + new_size)) ;;
      let n := new_size - len in
      let pos := detail.off pt (id + 1) in
      modify_s (memmove (pos + n) pos
                  (detail.off pt detail.id_end - pos + 1)) ;;
      for_le (id + 1) detail.id_end (fun i =>
        modify_pt (fun q => detail.set_off i (detail.off q i + n) q)) ;;
      pt' <- get_pt ;;
      ret (detail.off pt' id).

(** [char* basic_value::resize(int first, int last, std::size_t new_size)]. *)
Definition resize_range (first last new_size : nat) : M nat :=
  pt <- get_pt ;;
  let len := detail.length_range pt first last in
  if (new_size =? 0) && (len =? 0) then ret (detail.off pt first)
  else if new_size <=? len then
    (* shrink *)
    let n := len - new_size in
    let pos := detail.off pt last in
    modify_s (memmove (pos - n) pos
                (detail.off pt detail.id_end - pos + 1)) ;;
    for_lt (first + 1) last (fun i =>
      modify_pt (fun q => detail.set_off i (detail.off q last - n) q)) ;;
    for_le last detail.id_end (fun i =>
      modify_pt (fun q => detail.set_off i (detail.off q i - n) q)) ;;
    pt' <- get_pt ;;
    ret (detail.off pt' first)
  else
    (* grow *)
    sz <- size ;;
    if (size_max - N.of_nat sz <? N.of_nat (new_size - len))%N
    then raise too_large
    else
      modify_s (storage_resize (sz - len + new_size)) ;;
      let n := new_size - len in
      let pos := detail.off pt last in
      modify_s (memmove (pos + n) pos
                  (detail.off pt detail.id_end - pos + 1)) ;;
      for_lt (first + 1) last (fun i =>
        modify_pt (fun q => detail.set_off i (detail.off q last + n) q)) ;;
      for_le last detail.id_end (fun i =>
        modify_pt (fun q => detail.set_off i (detail.off q i + n) q)) ;;
      pt' <- get_pt ;;
      ret (detail.off pt' first).

(* ================================================================== *)
(** ** Grammar productions used by the setters (spec 4.3) *)
(* ================================================================== *)

Module grammar.

(** Modelled from the spec: [detail::parse_scheme] is not part of the
    sources.  [scheme = ALPHA *( ALPHA / DIGIT / "+" / "-" / "." )]; the
    table it fills is not read by the caller. *)
Definition parse_scheme (s : bytes) : result unit :=
  match s with
  | c :: r =>
      if chars.is_alpha c &&
         forallb (fun x => chars.is_alpha x || chars.is_digit x ||
                           chars.one_of "+-." x) r
      then Ok tt else Raise invalid_scheme
  | [] => Raise invalid_scheme
  end.

(** The number written by a digit string. *)
Definition digits_value (s : bytes) : N :=
  fold_left
    (fun v c => (10 * v + N.of_nat (nat_of_ascii c - nat_of_ascii (chr "0")))%N)
    s 0%N.

(** Modelled from the spec: [detail::parse_port] is not part of the
    sources.  [port = *DIGIT] (4.3); a non-digit is [invalid_port]; a value
    above 65535 is a soft error: the string is accepted and the number is
    absent (6.3, 9 (b)); leading zeros are accepted and the value is parsed
    (8.3, scenario 8). *)
Definition parse_port (s : bytes) : result (option N) :=
  if forallb chars.is_digit s then
    if empty s then Ok None
    else if (digits_value s <=? 65535)%N then Ok (Some (digits_value s))
    else Ok None
  else Raise invalid_port.

(** Modelled from the spec: [detail::port_string] is not part of the
    sources; it holds the decimal text of a 16-bit port number. *)
Definition port_string (n : N) : bytes :=
  str (NilEmpty.string_of_uint (N.to_uint n)).

(** Modelled from the spec: [detail::parse_path_abempty] is not part of the
    sources.  [path-abempty = *( "/" segment )], [segment = *pchar]: empty
    or starting with a slash, every byte a pchar, a slash or part of a
    triplet. *)
Definition parse_path_abempty (s : bytes) : result unit :=
  if empty s then Ok tt
  else if Ascii.eqb (front s) (chr "/") then
    match pct.validate
            (pct.mk_pct_set (fun c => chars.is_pchar c || chars.one_of "/" c)) s
    with
    | Ok _ => Ok tt
    | Raise _ => Raise invalid_path
    end
  else Raise invalid_path.

End grammar.

(** The productions that build a whole parts table ([detail::parse_url],
    [parse_origin], [parse_authority], [parse_host], [parse_hostname]) are
    not part of the sources either.  The container is verified against any
    implementation of them: a parser either fails or returns the table it
    computed. *)
Class Grammar : Type := {
  parse_url : bytes -> result detail.parts;
  parse_origin : bytes -> result detail.parts;
  parse_authority : bytes -> result detail.parts;
  parse_host : bytes -> result detail.parts;
  parse_hostname : bytes -> result detail.parts
}.

(** [if(ec) invalid_part::raise();] after a parser that reports through an
    [error_code]. *)
Definition check_ec {A} (r : result A) : M A :=
  match r with
  | Ok a => ret a
  | Raise _ => raise invalid_part
  end.

(* ================================================================== *)
(** ** Readers *)
(* ================================================================== *)

Definition encoded_url (v : basic_value) : bytes :=
  detail.get_range (pt_ v) detail.id_scheme detail.id_end (s_ v).

Definition encoded_origin (v : basic_value) : bytes :=
  detail.get_range (pt_ v) detail.id_scheme detail.id_path (s_ v).

Definition scheme (v : basic_value) : bytes :=
  let s := detail.get (pt_ v) detail.id_scheme (s_ v) in
  if empty s then s else remove_suffix 1 s.

Definition encoded_authority (v : basic_value) : bytes :=
  let s := detail.get_range (pt_ v) detail.id_username detail.id_path (s_ v) in
  if negb (empty s) then remove_prefix 2 s else s.

Definition encoded_userinfo (v : basic_value) : bytes :=
  let s := detail.get_range (pt_ v) detail.id_username detail.id_hostname
             (s_ v) in
  if empty s then s
  else
    let s := if Ascii.eqb (back s) (chr "@") then remove_suffix 1 s else s in
    remove_prefix 2 s.

Definition encoded_username (v : basic_value) : bytes :=
  let s := detail.get (pt_ v) detail.id_username (s_ v) in
  if negb (empty s) then remove_prefix 2 s else s.

Definition encoded_password (v : basic_value) : bytes :=
  let s := detail.get (pt_ v) detail.id_password (s_ v) in
  match List.length s with
  | 1 => []
  | 0 => []
  | _ =>
      let s := remove_suffix 1 s in
      if Ascii.eqb (front s) (chr ":") then remove_prefix 1 s else s
  end.

Definition encoded_host (v : basic_value) : bytes :=
  detail.get_range (pt_ v) detail.id_hostname detail.id_path (s_ v).

Definition encoded_hostname (v : basic_value) : bytes :=
  detail.get (pt_ v) detail.id_hostname (s_ v).

Definition port_string (v : basic_value) : bytes :=
  let s := detail.get (pt_ v) detail.id_port (s_ v) in
  if negb (empty s) then remove_prefix 1 s else s.

Definition is_relative (v : basic_value) : bool :=
  let s := detail.get (pt_ v) detail.id_path (s_ v) in
  negb (empty s) && negb (Ascii.eqb (front s) (chr "/")).

Definition encoded_path (v : basic_value) : bytes :=
  detail.get (pt_ v) detail.id_path (s_ v).

Definition encoded_query (v : basic_value) : bytes :=
  detail.get_range (pt_ v) detail.id_query detail.id_frag (s_ v).

Definition encoded_fragment (v : basic_value) : bytes :=
  let s := detail.get_range (pt_ v) detail.id_frag detail.id_end (s_ v) in
  if empty s then s else substr1 s.

Definition fragment_part (v : basic_value) : bytes :=
  detail.get_range (pt_ v) detail.id_frag detail.id_end (s_ v).

(** [url::c_str()] returns the buffer pointer; the string it denotes ends
    at the first NUL. *)
Definition c_str (v : basic_value) : bytes := cstring (s_ v).

(** Modelled from the spec: the numeric port (3.1) and the authority flag
    (3.3, I4) have no reader in the sources.  The port number is the
    [pt_.port] field; the setters test for "no authority" with
    [pt_.length(id_username, id_path) == 0]. *)
Definition port_number (v : basic_value) : option N := detail.port (pt_ v).

Definition has_authority (v : basic_value) : bool :=
  negb (detail.length_range (pt_ v) detail.id_username detail.id_path =? 0).

(** Modelled from the spec: the plain readers are templates declared in a
    header that is not part of the sources.  By 4.2 and 8.2 the plain form
    of a component is the decoding of its encoded form. *)
Definition username (v : basic_value) : bytes := pct.decode (encoded_username v).
Definition password (v : basic_value) : bytes := pct.decode (encoded_password v).
Definition hostname (v : basic_value) : bytes := pct.decode (encoded_hostname v).
Definition query (v : basic_value) : bytes := pct.decode (encoded_query v).
Definition fragment (v : basic_value) : bytes := pct.decode (encoded_fragment v).

(* ================================================================== *)
(** ** Setters *)
(* ================================================================== *)

(** Discard the [char*] a resize returns. *)
Definition ignore {A} (m : M A) : M unit := _ <- m ;; ret tt.

(** *** scheme *)

Definition set_scheme (s : bytes) : M unit :=
  if empty s then ignore (resize detail.id_scheme 0)
  else
    lift (grammar.parse_scheme s) ;;
    let n := List.length s in
    dest <- resize detail.id_scheme (n + 1) ;;
    store dest s ;;
    poke (dest + n) ":".

(** *** userinfo *)

Definition set_encoded_userinfo (s : bytes) : M unit :=
  if empty s then
    pt <- get_pt ;;
    if detail.length_range pt detail.id_hostname detail.id_path =? 0 then
      (* no authority *)
      ignore (resize_range detail.id_username detail.id_hostname 0)
    else
      (* keep "//" *)
      ignore (resize_range detail.id_username detail.id_hostname 2)
  else
    n0 <- check_ec (pct.parse pct.userinfo_nc_pct_set s) ;;
    n1 <- check_ec (pct.parse pct.userinfo_pct_set (skipn n0 s)) ;;
    if negb (n0 + n1 =? List.length s) then raise invalid_part
    else
      dest <- resize_range detail.id_username detail.id_hostname
                (2 + List.length s + 1) ;;
      poke dest "/" ;;
      poke (dest + 1) "/" ;;
      let dest := dest + 2 in
      store dest s ;;
      modify_pt (detail.split detail.id_username n0) ;;
      poke (dest + List.length s) "@".

Definition set_username (s : bytes) : M unit :=
  if empty s then
    pt <- get_pt ;;
    if detail.length pt detail.id_username =? 0 then ret tt
    else if detail.length pt detail.id_password =? 1 then
      (* remove '@' *)
      ignore (resize_range detail.id_username detail.id_hostname 2)
    else
      ignore (resize detail.id_username 2)
  else
    let e := pct.userinfo_nc_pct_set in
    pt <- get_pt ;;
    if negb (detail.length pt detail.id_password =? 0) then
      (* preserve "//" *)
      dest <- resize detail.id_username (2 + pct.encoded_size e s) ;;
      store (dest + 2) (pct.encode e s)
    else
      let n := pct.encoded_size e s in
      dest <- resize detail.id_username (2 + n + 1) ;;
      poke dest "/" ;;
      poke (dest + 1) "/" ;;
      poke (dest + (2 + n)) "@" ;;
      modify_pt (detail.split detail.id_username (2 + n)) ;;
      store (dest + 2) (pct.encode e s).

Definition set_encoded_username (s : bytes) : M unit :=
  if empty s then set_username s
  else
    let e := pct.userinfo_nc_pct_set in
    lift (pct.validate e s) ;;
    let n := List.length s in
    pt <- get_pt ;;
    if negb (detail.length pt detail.id_password =? 0) then
      (* preserve "//" *)
      dest <- resize detail.id_username (2 + n) ;;
      store (dest + 2) s
    else
      (* add '@' *)
      dest <- resize detail.id_username (2 + n + 1) ;;
      poke dest "/" ;;
      poke (dest + 1) "/" ;;
      poke (dest + (2 + n)) "@" ;;
      modify_pt (detail.split detail.id_username (2 + n)) ;;
      store (dest + 2) s.

Definition set_password (s : bytes) : M unit :=
  if empty s then
    pt <- get_pt ;;
    let n := detail.length pt detail.id_password in
    if n =? 0 then ret tt
    else if detail.length pt detail.id_username =? 2 then
      (* remove '@' *)
      ignore (resize detail.id_password 0)
    else
      (* retain '@' *)
      dest <- resize detail.id_password 1 ;;
      poke dest "@"
  else
    let e := pct.userinfo_pct_set in
    let n := pct.encoded_size e s in
    pt <- get_pt ;;
    if negb (detail.length pt detail.id_username =? 0) then
      dest <- resize detail.id_password (1 + n + 1) ;;
      poke dest ":" ;;
      poke (dest + (n + 1)) "@" ;;
      store (dest + 1) (pct.encode e s)
    else
      dest <- resize_range detail.id_username detail.id_hostname
                (2 + 1 + n + 1) ;;
      poke dest "/" ;;
      poke (dest + 1) "/" ;;
      poke (dest + 2) ":" ;;
      poke (dest + (2 + n + 1)) "@" ;;
      store (dest + 3) (pct.encode e s) ;;
      modify_pt (detail.split detail.id_username 2).

Definition set_encoded_password (s : bytes) : M unit :=
  if empty s then set_password s
  else
    let e := pct.userinfo_pct_set in
    if Ascii.eqb (nth 0 s NUL) (chr ":") then raise invalid_part
    else
      lift (pct.validate e s) ;;
      let n := List.length s in
      pt <- get_pt ;;
      if negb (detail.length pt detail.id_username =? 0) then
        dest <- resize detail.id_password (1 + n + 1) ;;
        poke dest ":" ;;
        poke (dest + (n + 1)) "@" ;;
        store (dest + 1) s
      else
        dest <- resize_range detail.id_username detail.id_hostname
                  (2 + 1 + n + 1) ;;
        poke dest "/" ;;
        poke (dest + 1) "/" ;;
        poke (dest + 2) ":" ;;
        poke (dest + (2 + n + 1)) "@" ;;
        store (dest + 3) s ;;
        modify_pt (detail.split detail.id_username 2).

(** Modelled from the spec: [url::remove_user] and [url::remove_password]
    are only declared in the sources.  By 4.5 a remove operation is the
    setter's pattern with new length 0 and the delimiter clean-up, which in
    [basic_value.ipp] is the branch of the setter for an empty string. *)
Definition remove_user : M unit := set_username [].
Definition remove_password : M unit := set_password [].

(** *** port *)

Definition set_port (num : option N) : M unit :=
  match num with
  | None =>
      resize detail.id_port 0 ;;
      modify_pt (detail.set_port None)
  | Some v =>
      let s := grammar.port_string v in
      pt <- get_pt ;;
      (if detail.length_range pt detail.id_username detail.id_path =? 0 then
         (* add authority *)
         dest <- resize detail.id_username (3 + List.length s) ;;
         poke dest "/" ;;
         poke (dest + 1) "/" ;;
         poke (dest + 2) ":" ;;
         modify_pt (detail.split detail.id_username 2) ;;
         modify_pt (detail.split detail.id_password 0) ;;
         modify_pt (detail.split detail.id_hostname 0) ;;
         store (dest + 3) s
       else
         dest <- resize detail.id_port (1 + List.length s) ;;
         poke dest ":" ;;
         store (dest + 1) s) ;;
      modify_pt (detail.set_port num)
  end.

Definition set_port_string (s : bytes) : M unit :=
  if empty s then set_port None
  else
    port <- lift (grammar.parse_port s) ;;
    set_port port.

(** *** path *)

Definition set_encoded_path (s : bytes) : M unit :=
  if empty s then ignore (resize_range detail.id_path detail.id_query 0)
  else
    lift (grammar.parse_path_abempty s) ;;
    dest <- resize_range detail.id_path detail.id_query (List.length s) ;;
    store dest s.

(** *** query *)

Definition set_query (s : bytes) : M unit :=
  if empty s then ignore (resize detail.id_query 0)
  else
    let s := if Ascii.eqb (front s) (chr "?") then substr1 s else s in
    let e := pct.query_pct_set in
    let n := pct.encoded_size e s in
    dest <- resize detail.id_query (1 + n) ;;
    poke dest "?" ;;
    store (dest + 1) (pct.encode e s).

Definition set_encoded_query (s : bytes) : M unit :=
  if empty s then ignore (resize detail.id_query 0)
  else
    let s := if Ascii.eqb (front s) (chr "?") then substr1 s else s in
    let e := pct.query_pct_set in
    lift (pct.validate e s) ;;
    dest <- resize detail.id_query (1 + List.length s) ;;
    poke dest "?" ;;
    store (dest + 1) s.

(** *** fragment *)

Definition set_fragment (s : bytes) : M unit :=
  if empty s then ignore (resize detail.id_frag 0)
  else
    let e := pct.frag_pct_set in
    let n := pct.encoded_size e s in
    dest <- resize detail.id_frag (1 + n) ;;
    poke dest "#" ;;
    store (dest + 1) (pct.encode e s).

Definition set_encoded_fragment (s : bytes) : M unit :=
  if empty s then ignore (resize detail.id_frag 0)
  else
    let e := pct.frag_pct_set in
    lift (pct.validate e s) ;;
    dest <- resize detail.id_frag (1 + List.length s) ;;
    poke dest "#" ;;
    store (dest + 1) s.

Definition set_fragment_part (s : bytes) : M unit :=
  if empty s then set_fragment s
  else if negb (Ascii.eqb (front s) (chr "#")) then raise invalid_part
  else
    let s := substr1 s in
    let e := pct.frag_pct_set in
    lift (pct.validate e s) ;;
    dest <- resize detail.id_frag (1 + List.length s) ;;
    poke dest "#" ;;
    store (dest + 1) s.

Section GrammarSetters.

Context {G : Grammar}.

(** *** whole URL and origin *)

Definition set_encoded_url (s : bytes) : M unit :=
  if empty s then
    buf <- get_s ;;
    if negb (empty buf)
    then ignore (resize_range detail.id_scheme detail.id_end 0)
    else ret tt
  else
    pt <- check_ec (parse_url s) ;;
    modify_s (storage_resize (List.length s)) ;;
    modify_pt (fun _ => pt) ;;
    store 0 s.

(** [basic_value(a, s)]. *)
Definition construct (s : bytes) : basic_value * outcome unit :=
  set_encoded_url s value_init.

Definition set_encoded_origin (s : bytes) : M unit :=
  if empty s then
    resize_range detail.id_scheme detail.id_path 0 ;;
    modify_pt (detail.set_port None)
  else
    pt <- check_ec (parse_origin s) ;;
    dest <- resize_range detail.id_scheme detail.id_path (List.length s) ;;
    store dest s ;;
    modify_pt (detail.split detail.id_scheme
                 (detail.length pt detail.id_scheme)) ;;
    modify_pt (detail.split detail.id_username
                 (detail.length pt detail.id_username)) ;;
    modify_pt (detail.split detail.id_password
                 (detail.length pt detail.id_password)) ;;
    modify_pt (detail.split detail.id_hostname
                 (detail.length pt detail.id_hostname)) ;;
    modify_pt (detail.split detail.id_port
                 (detail.length pt detail.id_port)) ;;
    modify_pt (detail.set_port (detail.port pt)).

(** *** authority *)

Definition set_encoded_authority (s : bytes) : M unit :=
  if empty s then
    resize_range detail.id_username detail.id_path 0 ;;
    modify_pt (detail.set_port None)
  else
    pt <- lift (parse_authority s) ;;
    dest <- resize_range detail.id_username detail.id_path
              (2 + List.length s) ;;
    poke dest "/" ;;
    poke (dest + 1) "/" ;;
    store (dest + 2) s ;;
    modify_pt (detail.split detail.id_username
                 (2 + detail.length pt detail.id_username)) ;;
    modify_pt (detail.split detail.id_password
                 (detail.length pt detail.id_password)) ;;
    modify_pt (detail.split detail.id_hostname
                 (detail.length pt detail.id_hostname)) ;;
    modify_pt (detail.set_port (detail.port pt)).

(** *** host *)

Definition set_encoded_host (s : bytes) : M unit :=
  if empty s then
    resize_range detail.id_hostname detail.id_path 0 ;;
    modify_pt (detail.set_port None)
  else
    pt <- lift (parse_host s) ;;
    cur <- get_pt ;;
    (if detail.length_range cur detail.id_username detail.id_path =? 0 then
       (* add authority *)
       dest <- resize detail.id_username (2 + List.length s) ;;
       poke dest "/" ;;
       poke (dest + 1) "/" ;;
       store (dest + 2) s ;;
       modify_pt (detail.split detail.id_username 2) ;;
       modify_pt (detail.split detail.id_password 0) ;;
       modify_pt (detail.split detail.id_hostname
                    (detail.length pt detail.id_hostname))
     else
       dest <- resize_range detail.id_hostname detail.id_path
                 (List.length s) ;;
       store dest s ;;
       modify_pt (detail.split detail.id_hostname
                    (detail.length pt detail.id_hostname))) ;;
    modify_pt (detail.set_host (detail.host pt)) ;;
    modify_pt (detail.set_port (detail.port pt)).

Definition set_hostname (s : bytes) : M unit :=
  if empty s then ignore (resize detail.id_hostname 0)
  else
    let e := pct.reg_name_pct_set in
    dest <- resize detail.id_hostname (pct.encoded_size e s) ;;
    store dest (pct.encode e s) ;;
    v <- (fun st => (st, Ok st)) ;;
    pt <- lift (parse_hostname (encoded_host v)) ;;
    modify_pt (detail.set_host (detail.host pt)).

Definition set_encoded_hostname (s : bytes) : M unit :=
  if empty s then set_hostname s
  else
    pt <- lift (parse_hostname s) ;;
    dest <- resize detail.id_hostname (List.length s) ;;
    store dest s ;;
    modify_pt (detail.set_host (detail.host pt)).

End GrammarSetters.

(* ================================================================== *)
(** ** Structural invariant and setter catalogue *)
(* ================================================================== *)

Fixpoint sorted (l : list nat) : bool :=
  match l with
  | a :: r =>
      match r with
      | b :: _ => (a <=? b) && sorted r
      | [] => true
      end
  | [] => true
  end.

(** Spec 3.2 and I1: nine offsets, [o[0] = 0], [o[i] <= o[i+1]], the
    buffer holds [o[8]] bytes followed by NUL.  A container without a
    buffer ([s_ == nullptr]) has length zero. *)
Definition invariant (v : basic_value) : bool :=
  let o := detail.offset (pt_ v) in
  let n := detail.off (pt_ v) detail.id_end in
  (List.length o =? detail.id_end + 1) &&
  (detail.off (pt_ v) 0 =? 0) &&
  sorted o &&
  ((n <? List.length (s_ v)) || ((List.length (s_ v) =? 0) && (n =? 0))) &&
  Ascii.eqb (rd (s_ v) n) NUL.

(** Growing by [extra] bytes passes the [too_large] test of [resize]. *)
Definition fits (v : basic_value) (extra : nat) : bool :=
  (N.of_nat extra <=? size_max - N.of_nat (detail.off (pt_ v) detail.id_end))%N.

(** The setters of [basic_value.ipp] that take a string.  The first
    fourteen validate their argument; the plain setters take every byte
    string and percent-encode it. *)
Inductive setter : Type :=
  | op_set_encoded_url
  | op_set_encoded_origin
  | op_set_scheme
  | op_set_encoded_authority
  | op_set_encoded_userinfo
  | op_set_encoded_username
  | op_set_encoded_password
  | op_set_encoded_host
  | op_set_encoded_hostname
  | op_set_port_string
  | op_set_encoded_path
  | op_set_encoded_query
  | op_set_encoded_fragment
  | op_set_fragment_part
  | op_set_username
  | op_set_password
  | op_set_hostname
  | op_set_query
  | op_set_fragment.

Definition run {G : Grammar} (op : setter) (s : bytes) : M unit :=
  match op with
  | op_set_encoded_url => set_encoded_url s
  | op_set_encoded_origin => set_encoded_origin s
  | op_set_scheme => set_scheme s
  | op_set_encoded_authority => set_encoded_authority s
  | op_set_encoded_userinfo => set_encoded_userinfo s
  | op_set_encoded_username => set_encoded_username s
  | op_set_encoded_password => set_encoded_password s
  | op_set_encoded_host => set_encoded_host s
  | op_set_encoded_hostname => set_encoded_hostname s
  | op_set_port_string => set_port_string s
  | op_set_encoded_path => set_encoded_path s
  | op_set_encoded_query => set_encoded_query s
  | op_set_encoded_fragment => set_encoded_fragment s
  | op_set_fragment_part => set_fragment_part s
  | op_set_username => set_username s
  | op_set_password => set_password s
  | op_set_hostname => set_hostname s
  | op_set_query => set_query s
  | op_set_fragment => set_fragment s
  end.

(** The query argument as [set_query] encodes it: one leading question
    mark is dropped. *)
Definition query_argument (s : bytes) : bytes :=
  if Ascii.eqb (front s) (chr "?") then substr1 s else s.

(** *** Containers used in the scenarios of spec 8.3

    Each is given by its buffer and table: the authority's slashes are
    stored in the user region, the password region carries its colon and
    the closing at-sign, as the setters write them. *)

Definition table (o : list nat) : detail.parts :=
  detail.mk_parts o None detail.host_name 1 0.

(** [http://h/]. *)
Definition url_http_h : basic_value :=
  mk_value (table [0; 5; 7; 7; 8; 8; 9; 9; 9]) (str "http://h/" ++ [NUL]).

(** [http://u:p@h/]. *)
Definition url_http_u_p_h : basic_value :=
  mk_value (table [0; 5; 8; 11; 12; 12; 13; 13; 13])
           (str "http://u:p@h/" ++ [NUL]).

(** [http://u@h/]. *)
Definition url_http_u_h : basic_value :=
  mk_value (table [0; 5; 8; 9; 10; 10; 11; 11; 11])
           (str "http://u@h/" ++ [NUL]).

(** The invariant as propositions, and what a resize establishes: the
    offsets up to [first] stay, those in [(first, last]] meet at the end of
    the new room, the later ones move with the suffix, and the bytes
    outside the new room are the old ones. *)
Definition off (v : basic_value) (i : nat) : nat := detail.off (pt_ v) i.

Record wf (v : basic_value) : Prop := mk_wf {
  wf_len : List.length (detail.offset (pt_ v)) = 9;
  wf_zero : off v 0 = 0;
  wf_mono : forall i j, i <= j -> j <= 8 -> off v i <= off v j;
  wf_buf : off v 8 < List.length (s_ v) \/
           (List.length (s_ v) = 0 /\ off v 8 = 0);
  wf_nul : rd (s_ v) (off v 8) = NUL
}.

Arguments wf_len {v}.
Arguments wf_zero {v}.
Arguments wf_mono {v}.
Arguments wf_buf {v}.
Arguments wf_nul {v}.

Record resized (first last n : nat) (v v' : basic_value) : Prop := mk_resized {
  rs_wf : wf v';
  rs_port : detail.port (pt_ v') = detail.port (pt_ v);
  rs_host : detail.host (pt_ v') = detail.host (pt_ v);
  rs_nseg : detail.nseg (pt_ v') = detail.nseg (pt_ v);
  rs_nparam : detail.nparam (pt_ v') = detail.nparam (pt_ v);
  rs_before : forall i, i <= first -> off v' i = off v i;
  rs_inside : forall i, first < i -> i <= last -> off v' i = off v first + n;
  rs_after : forall i, last < i -> i <= 8 ->
             off v' i + (off v last - off v first) = off v i + n;
  rs_prefix : forall i, i < off v first + Nat.min (off v last - off v first) n ->
              rd (s_ v') i = rd (s_ v) i;
  rs_suffix : forall i, off v first + n <= i -> i <= off v' 8 ->
              rd (s_ v') i = rd (s_ v) (i + (off v last - off v first) - n)
}.

Arguments rs_wf {first last n v v'}.
Arguments rs_port {first last n v v'}.
Arguments rs_host {first last n v v'}.
Arguments rs_nseg {first last n v v'}.
Arguments rs_nparam {first last n v v'}.
Arguments rs_before {first last n v v'}.
Arguments rs_inside {first last n v v'}.
Arguments rs_after {first last n v v'}.
Arguments rs_prefix {first last n v v'}.
Arguments rs_suffix {first last n v v'}.

(** Three behaviours of a monadic step: [safe] steps give the strong
    guarantee (a raise leaves the container as it was), [total] steps never
    raise, [pure] steps only read. *)
Definition safe {A} (m : M A) : Prop :=
  forall v v' e, m v = (v', Raise e) -> v' = v.

Definition total {A} (m : M A) : Prop :=
  forall v, exists v' a, m v = (v', Ok a).

Definition pure {A} (m : M A) : Prop :=
  forall v, fst (m v) = v.

(** The checks a setter runs on its argument before its resize, as a
    function of the argument alone.  An empty argument is a removal and is
    not checked; the plain setters check nothing before they write.
    [set_hostname] is not described by this function: its only check is
    the parse of the stored host and port after its store, which depends
    on the container. *)
Definition via_ec {A} (r : result A) : result unit :=
  match r with
  | Ok _ => Ok tt
  | Raise _ => Raise invalid_part
  end.

Definition thrown {A} (r : result A) : result unit :=
  match r with
  | Ok _ => Ok tt
  | Raise e => Raise e
  end.

Definition validation {G : Grammar} (op : setter) (s : bytes) : result unit :=
  if empty s then Ok tt
  else
  match op with
  | op_set_encoded_url => via_ec (parse_url s)
  | op_set_encoded_origin => via_ec (parse_origin s)
  | op_set_scheme => grammar.parse_scheme s
  | op_set_encoded_authority => thrown (parse_authority s)
  | op_set_encoded_userinfo =>
      match pct.parse pct.userinfo_nc_pct_set s with
      | Raise _ => Raise invalid_part
      | Ok n0 =>
          match pct.parse pct.userinfo_pct_set (skipn n0 s) with
          | Raise _ => Raise invalid_part
          | Ok n1 =>
              if n0 + n1 =? List.length s then Ok tt else Raise invalid_part
          end
      end
  | op_set_encoded_username => pct.validate pct.userinfo_nc_pct_set s
  | op_set_encoded_password =>
      if Ascii.eqb (nth 0 s NUL) (chr ":") then Raise invalid_part
      else pct.validate pct.userinfo_pct_set s
  | op_set_encoded_host => thrown (parse_host s)
  | op_set_encoded_hostname => thrown (parse_hostname s)
  | op_set_port_string => thrown (grammar.parse_port s)
  | op_set_encoded_path => grammar.parse_path_abempty s
  | op_set_encoded_query => pct.validate pct.query_pct_set (query_argument s)
  | op_set_encoded_fragment => pct.validate pct.frag_pct_set s
  | op_set_fragment_part =>
      if negb (Ascii.eqb (front s) (chr "#")) then Raise invalid_part
      else pct.validate pct.frag_pct_set (substr1 s)
  | op_set_username | op_set_password | op_set_hostname
  | op_set_query | op_set_fragment => Ok tt
  end.

(** The tail shared by [set_password] and [set_encoded_password] once the
    bytes [p] to store are known (the encoding of the argument, or the
    validated argument itself). *)
Definition install_password (p : bytes) : M unit :=
  let n := List.length p in
  pt <- get_pt ;;
  if negb (detail.length pt detail.id_username =? 0) then
    dest <- resize detail.id_password (1 + n + 1) ;;
    poke dest ":" ;;
    poke (dest + (n + 1)) "@" ;;
    store (dest + 1) p
  else
    dest <- resize_range detail.id_username detail.id_hostname
              (2 + 1 + n + 1) ;;
    poke dest "/" ;;
    poke (dest + 1) "/" ;;
    poke (dest + 2) ":" ;;
    poke (dest + (2 + n + 1)) "@" ;;
    store (dest + 3) p ;;
    modify_pt (detail.split detail.id_username 2).

(** A container without a user: the user region is empty (no authority
    yet) or holds just the authority's slashes. *)
Definition no_user (v : basic_value) : bool :=
  let s := detail.get (pt_ v) detail.id_username (s_ v) in
  empty s || (empty (encoded_username v) && (List.length s =? 2) &&
              Ascii.eqb (rd s 0) (chr "/") && Ascii.eqb (rd s 1) (chr "/")).

(* ================================================================== *)
(** ** A grammar instance (spec 4.3) *)
(* ================================================================== *)

Module rfc3986.

(** Modelled from the spec: an implementation of the [Grammar] interface
    that follows the productions of section 4.3 (which quotes RFC 3986) and
    fills the table as section 3.2 lays it out: the scheme region ends with
    its colon, the user region starts with the authority's slashes, the
    password region is the colon, the password and the at-sign, the port,
    query and fragment regions start with their delimiter.  It gives the
    theorems below a parser to run on concrete strings. *)

Definition byte_is (c : string) (x : ascii) : bool := Ascii.eqb x (chr c).

(** The longest prefix whose bytes satisfy [p], and the rest. *)
Fixpoint span (p : ascii -> bool) (s : bytes) : bytes * bytes :=
  match s with
  | [] => ([], [])
  | c :: r =>
      if p c then let (a, b) := span p r in (c :: a, b) else ([], s)
  end.

(** The pieces of [s] between occurrences of [c]. *)
Fixpoint split_on (c : string) (s : bytes) : list bytes :=
  match s with
  | [] => [[]]
  | x :: r =>
      if byte_is c x then [] :: split_on c r
      else match split_on c r with
           | h :: t => (x :: h) :: t
           | [] => [[x]]
           end
  end.

Definition count (c : string) (s : bytes) : nat :=
  List.length (filter (byte_is c) s).

(** Every byte is in the class or part of a percent triplet. *)
Definition valid (m : ascii -> bool) (s : bytes) : bool :=
  negb (raised (pct.validate (pct.mk_pct_set m) s)).

(** [dec-octet]: 0 to 255 without a leading zero. *)
Definition dec_octet (s : bytes) : bool :=
  forallb chars.is_digit s &&
  (1 <=? List.length s) && (List.length s <=? 3) &&
  (grammar.digits_value s <=? 255)%N &&
  (negb (byte_is "0" (front s)) || (List.length s =? 1)).

Definition ipv4 (s : bytes) : bool :=
  match split_on "." s with
  | [a; b; c; d] => dec_octet a && dec_octet b && dec_octet c && dec_octet d
  | _ => false
  end.

(** [h16]: one to four hex digits. *)
Definition h16 (s : bytes) : bool :=
  (1 <=? List.length s) && (List.length s <=? 4) && forallb chars.is_hexdig s.

(** Sixteen-bit units in a colon-separated run; only the last piece may be
    an IPv4 address, which counts for two. *)
Fixpoint units (l : list bytes) : option nat :=
  match l with
  | [] => Some 0
  | x :: r =>
      match r with
      | [] => if h16 x then Some 1 else if ipv4 x then Some 2 else None
      | _ :: _ => if h16 x then option_map S (units r) else None
      end
  end.

Definition groups (s : bytes) : option nat :=
  if empty s then Some 0 else units (split_on ":" s).

Definition groups_h16 (s : bytes) : option nat :=
  if empty s then Some 0
  else if forallb h16 (split_on ":" s)
       then Some (List.length (split_on ":" s)) else None.

(** The text before and after the first [::]. *)
Fixpoint cut_double_colon (s : bytes) : option (bytes * bytes) :=
  match s with
  | a :: t =>
      match t with
      | b :: r =>
          if byte_is ":" a && byte_is ":" b then Some ([], r)
          else match cut_double_colon t with
               | Some (l, r') => Some (a :: l, r')
               | None => None
               end
      | [] => None
      end
  | [] => None
  end.

Definition ipv6 (s : bytes) : bool :=
  match cut_double_colon s with
  | None =>
      match groups s with
      | Some n => n =? 8
      | None => false
      end
  | Some (l, r) =>
      match groups_h16 l, groups r with
      | Some a, Some b => a + b <=? 7
      | _, _ => false
      end
  end.

(** [IPvFuture = "v" 1*HEXDIG "." 1*( unreserved / sub-delims / ":" )]. *)
Definition ipvfuture (s : bytes) : bool :=
  match s with
  | v :: r =>
      (byte_is "v" v || byte_is "V" v) &&
      (let (hex, rest) := span chars.is_hexdig r in
       negb (empty hex) &&
       match rest with
       | dot :: tail =>
           byte_is "." dot && negb (empty tail) &&
           forallb (fun c => chars.is_unreserved c || chars.is_sub_delims c ||
                             byte_is ":" c) tail
       | [] => false
       end)
  | [] => false
  end.

(** [host = IP-literal / IPv4address / reg-name]. *)
Definition host_kind (s : bytes) : option detail.host_type :=
  if empty s then Some detail.host_none
  else if byte_is "[" (front s) then
    if byte_is "]" (back s) then
      let inner := remove_suffix 1 (remove_prefix 1 s) in
      if ipv6 inner then Some detail.host_ipv6
      else if ipvfuture inner then Some detail.host_ipvfuture
      else None
    else None
  else if ipv4 s then Some detail.host_ipv4
  else if valid chars.is_reg_name s then Some detail.host_name
  else None.

(** A table from the lengths of the eight regions. *)
Fixpoint offsets_from (start : nat) (lens : list nat) : list nat :=
  match lens with
  | [] => [start]
  | n :: r => start :: offsets_from (start + n) r
  end.

(** [host [ ":" port ]]: the host, its kind, and the port region. *)
Definition split_host_port (s : bytes)
  : option (bytes * detail.host_type * bytes) :=
  let (h, p) :=
    if byte_is "[" (front s) then
      let (lit, rest) := span (fun c => negb (byte_is "]" c)) s in
      match rest with
      | close :: after => (lit ++ [close], after)
      | [] => (s, [])
      end
    else span (fun c => negb (byte_is ":" c)) s in
  match host_kind h with
  | None => None
  | Some k =>
      match p with
      | [] => Some (h, k, [])
      | c :: digits =>
          if byte_is ":" c && forallb chars.is_digit digits
          then Some (h, k, p) else None
      end
  end.

Definition port_of (p : bytes) : option N :=
  match grammar.parse_port (remove_prefix 1 p) with
  | Ok n => n
  | Raise _ => None
  end.

(** [authority = [ userinfo "@" ] host [ ":" port ]]: the lengths of the
    user, password, host and port regions, without the slashes. *)
Definition authority_parts (s : bytes)
  : option (list nat * detail.host_type * option N) :=
  let (ui, rest) := span (fun c => negb (byte_is "@" c)) s in
  let has_ui := negb (empty rest) in
  let hp := if has_ui then remove_prefix 1 rest else s in
  let (user, pass) := span (fun c => negb (byte_is ":" c)) ui in
  if has_ui && negb (valid chars.is_userinfo ui) then None
  else
    match split_host_port hp with
    | None => None
    | Some (h, k, p) =>
        Some ([if has_ui then List.length user else 0;
               if has_ui then List.length pass + 1 else 0;
               List.length h; List.length p], k, port_of p)
    end.

Definition with_table (lens : list nat) (k : detail.host_type) (p : option N)
    (path query : bytes) : detail.parts :=
  detail.mk_parts (offsets_from 0 lens) p k
    (if empty path then 0
     else count "/" path + (if byte_is "/" (front path) then 0 else 1))
    (if empty query then 0 else 1 + count "&" query).

(** [URI-reference = URI / relative-ref]. *)
Definition uri_reference (s : bytes) : result detail.parts :=
  let (before, frag) := span (fun c => negb (byte_is "#" c)) s in
  let (hier, query) := span (fun c => negb (byte_is "?" c)) before in
  let (pre, post) := span (fun c => negb (byte_is ":" c || byte_is "/" c)) hier in
  let has_scheme := byte_is ":" (front post) && negb (empty post) in
  let rest := if has_scheme then remove_prefix 1 post else hier in
  if has_scheme && raised (grammar.parse_scheme pre) then Raise invalid_scheme
  else if negb (valid chars.is_query (remove_prefix 1 query)) then
    Raise illegal_reserved_char
  else if negb (valid chars.is_fragment (remove_prefix 1 frag)) then
    Raise illegal_reserved_char
  else
    let scheme_len := if has_scheme then List.length pre + 1 else 0 in
    let slashes := byte_is "/" (front rest) && byte_is "/" (nth 1 rest NUL) in
    if slashes then
      let (auth, path) := span (fun c => negb (byte_is "/" c)) (remove_prefix 2 rest) in
      match authority_parts auth with
      | None => Raise invalid_authority
      | Some (lens, k, p) =>
          if raised (grammar.parse_path_abempty path) then Raise invalid_path
          else
            Ok (with_table
                  ([scheme_len; 2 + nth 0 lens 0; nth 1 lens 0; nth 2 lens 0;
                    nth 3 lens 0; List.length path; List.length query;
                    List.length frag])
                  k p path query)
      end
    else if valid (fun c => chars.is_pchar c || byte_is "/" c) rest then
      Ok (with_table
            [scheme_len; 0; 0; 0; 0; List.length rest; List.length query;
             List.length frag]
            detail.host_none None rest query)
    else Raise invalid_path.

Definition origin (s : bytes) : result detail.parts :=
  match uri_reference s with
  | Ok pt =>
      if detail.length_range pt detail.id_path detail.id_end =? 0
      then Ok pt else Raise invalid_part
  | Raise e => Raise e
  end.

Definition authority (s : bytes) : result detail.parts :=
  match authority_parts s with
  | Some (lens, k, p) =>
      Ok (detail.mk_parts
            (offsets_from 0 ([0] ++ lens ++ [0; 0; 0])) p k 0 0)
  | None => Raise invalid_authority
  end.

Definition host (s : bytes) : result detail.parts :=
  match split_host_port s with
  | Some (h, k, p) =>
      Ok (detail.mk_parts
            (offsets_from 0 [0; 0; 0; List.length h; List.length p; 0; 0; 0])
            (port_of p) k 0 0)
  | None => Raise invalid_host
  end.

Definition hostname (s : bytes) : result detail.parts :=
  match host_kind s with
  | Some k =>
      Ok (detail.mk_parts
            (offsets_from 0 [0; 0; 0; List.length s; 0; 0; 0; 0]) None k 0 0)
  | None => Raise invalid_host
  end.

End rfc3986.

#[export] Instance rfc3986_grammar : Grammar := {
  parse_url := rfc3986.uri_reference;
  parse_origin := rfc3986.origin;
  parse_authority := rfc3986.authority;
  parse_host := rfc3986.host;
  parse_hostname := rfc3986.hostname
}.

(* ================================================================== *)
(** ** Regions of the buffer *)
(* ================================================================== *)

(** The bytes of component [id], [pt_.get(id, s_)], and the eight regions
    in table order. *)
Definition region (v : basic_value) (id : nat) : bytes :=
  detail.get (pt_ v) id (s_ v).

Definition components (v : basic_value) : list bytes :=
  map (region v) (seq 0 detail.id_end).

(** A container [vf] made from a freshly resized [v1] by stores inside the
    new room of [n] bytes at [off v first] and by splits inside the range:
    outside the range the table is that of [v1], outside the room the
    buffer is that of [v1], and the offsets inside the range are in
    order. *)
Record filled (first last n : nat) (v v1 vf : basic_value) : Prop := mk_filled {
  fl_len : List.length (detail.offset (pt_ vf)) = 9;
  fl_off : forall k, k <= first \/ last <= k -> off vf k = off v1 k;
  fl_mono : forall k, first <= k -> k < last -> off vf k <= off vf (k + 1);
  fl_buf : List.length (s_ vf) = List.length (s_ v1);
  fl_rd : forall i, i < off v first \/ off v first + n <= i ->
          rd (s_ vf) i = rd (s_ v1) i
}.

Arguments fl_len {first last n v v1 vf}.
Arguments fl_off {first last n v v1 vf}.
Arguments fl_mono {first last n v v1 vf}.
Arguments fl_buf {first last n v v1 vf}.
Arguments fl_rd {first last n v v1 vf}.

(** The fields of the table beside the offsets. *)
Definition same_fields (v v' : basic_value) : Prop :=
  detail.port (pt_ v') = detail.port (pt_ v) /\
  detail.host (pt_ v') = detail.host (pt_ v) /\
  detail.nseg (pt_ v') = detail.nseg (pt_ v) /\
  detail.nparam (pt_ v') = detail.nparam (pt_ v).

(** What a setter of one region leaves when it returns normally: the
    invariant, the fields of the table, [W] in region [id] and the other
    seven regions as they were. *)
Definition replaces (id : nat) (W : bytes) (v vf : basic_value) : Prop :=
  wf vf /\ same_fields v vf /\ region vf id = W /\
  forall j, j < 8 -> j <> id -> region vf j = region v j.

(** The tail shared by [set_username] and [set_encoded_username] once the
    bytes [u] to store are known (the encoding of the argument, or the
    validated argument itself). *)
Definition install_user (u : bytes) : M unit :=
  let n := List.length u in
  pt <- get_pt ;;
  if negb (detail.length pt detail.id_password =? 0) then
    dest <- resize detail.id_username (2 + n) ;;
    store (dest + 2) u
  else
    dest <- resize detail.id_username (2 + n + 1) ;;
    poke dest "/" ;;
    poke (dest + 1) "/" ;;
    poke (dest + (2 + n)) "@" ;;
    modify_pt (detail.split detail.id_username (2 + n)) ;;
    store (dest + 2) u.

(** The setters that build their table themselves: all but the four that
    copy lengths out of the table a parser returned. *)
Definition table_free (op : setter) : bool :=
  match op with
  | op_set_encoded_url | op_set_encoded_origin
  | op_set_encoded_authority | op_set_encoded_host => false
  | _ => true
  end.

(** A table that spans a string of [n] bytes: nine offsets in order, from
    zero to [n]. *)
Definition spans (pt : detail.parts) (n : nat) : bool :=
  (List.length (detail.offset pt) =? detail.id_end + 1) &&
  (detail.off pt 0 =? 0) &&
  sorted (detail.offset pt) &&
  (detail.off pt detail.id_end =? n).

(** [http://h:80/]. *)
Definition url_http_h_80 : basic_value :=
  mk_value (detail.mk_parts [0; 5; 7; 7; 8; 11; 12; 12; 12] (Some 80%N)
              detail.host_name 1 0)
           (str "http://h:80/" ++ [NUL]).

(** The setters that rewrite one region and nothing else, the region each
    one rewrites and the bytes it leaves there. *)
Definition target (op : setter) : option nat :=
  match op with
  | op_set_scheme => Some detail.id_scheme
  | op_set_encoded_path => Some detail.id_path
  | op_set_encoded_query | op_set_query => Some detail.id_query
  | op_set_encoded_fragment | op_set_fragment_part | op_set_fragment =>
      Some detail.id_frag
  | _ => None
  end.

Definition stored (op : setter) (s : bytes) : bytes :=
  if empty s then []
  else
    match op with
    | op_set_scheme => s ++ [chr ":"]
    | op_set_encoded_query => chr "?" :: query_argument s
    | op_set_query =>
        chr "?" :: pct.encode pct.query_pct_set (query_argument s)
    | op_set_encoded_fragment => chr "#" :: s
    | op_set_fragment => chr "#" :: pct.encode pct.frag_pct_set s
    | _ => s
    end.

(** A call returns normally from a given state. *)
Definition succeeds_at {A} (v : basic_value) (m : M A) : Prop :=
  exists vf a, m v = (vf, Ok a).

(** Room for whatever a string setter stores for [s]: every byte as a
    triplet, the authority's slashes, a colon and an at-sign. *)
Definition room (s : bytes) : nat := 3 * List.length s + 4.

(** The setters whose only checks come before the resize.  Left out:
    [set_hostname], which parses after its store, and [set_port_string],
    whose stored text is not a function of the length of its argument. *)
Definition checked (op : setter) : bool :=
  match op with
  | op_set_hostname | op_set_port_string => false
  | _ => true
  end.

(* ================================================================== *)
(** ** The path segments iterator *)
(* ================================================================== *)

Module segments.

(** [segments_type::iterator]: the offset [off_] and the length [n_] of the
    piece of the buffer it stands at.  The container [v_] is an argument of
    each operation. *)
Record iterator : Type := mk_iterator {
  off_ : nat;
  n_ : nat
}.

Definition is_slash (c : ascii) : bool := Ascii.eqb c (chr "/").

(** The loop of [parse], which advances [p] while [p < end] and leaves at
    a slash, with [d] the distance [end - p]; the result is the final
    [p]. *)
Fixpoint scan (s : bytes) (p d : nat) : nat :=
  match d with
  | 0 => p
  | S d' => if is_slash (rd s p) then p else scan s (S p) d'
  end.

(** [iterator::parse] at offset [o]: one slash if there is one, then the
    bytes up to the next slash or to [offset[id_frag]]. *)
Definition parse (v : basic_value) (o : nat) : iterator :=
  let last := off v detail.id_frag in
  let p := if is_slash (rd (s_ v) o) then o + 1 else o in
  mk_iterator o (scan (s_ v) p (last - p) - o).

(** [iterator(v, end)]. *)
Definition make (v : basic_value) (e : bool) : iterator :=
  if e || (detail.nseg (pt_ v) =? 0)
  then mk_iterator (off v detail.id_query) 0
  else parse v (off v detail.id_path).

Definition begin_ (v : basic_value) : iterator := make v false.
Definition end_ (v : basic_value) : iterator := make v true.

(** The view [{v_->s_ + off_, n_}] the iterator stands at. *)
Definition piece (v : basic_value) (it : iterator) : bytes :=
  sub (s_ v) (off_ it) (n_ it).

(** [operator*]: the piece without its leading slash. *)
Definition deref (v : basic_value) (it : iterator) : bytes :=
  let s := piece v it in
  if negb (empty s) && is_slash (front s) then substr1 s else s.

(** [operator++]. *)
Definition next (v : basic_value) (it : iterator) : iterator :=
  let o := off_ it + n_ it in
  if o =? off v detail.id_frag then mk_iterator o 0 else parse v o.

(** The loop [while(--p > begin)] of [operator--], which leaves at a
    slash, with [p] the pointer before the decrement: the final [p], and
    whether the loop left at a slash.  At [p = 0] the source would step before the
    buffer; the model stays at [0]. *)
Fixpoint back_scan (s : bytes) (first p : nat) : nat * bool :=
  match p with
  | 0 => (0, false)
  | S p' =>
      if first <? p' then
        if is_slash (rd s p') then (p', true) else back_scan s first p'
      else (p', false)
  end.

(** [operator--]. *)
Definition prev (v : basic_value) (it : iterator) : iterator :=
  match back_scan (s_ v) (off v detail.id_path) (off_ it) with
  | (p, true) => parse v p
  | (p, false) => mk_iterator p (off_ it - p)
  end.

(** The iterators a loop [for(; off_ != offset[id_frag]; ++it)] visits from
    [it]: [operator++] asserts that it is not called at that offset.  At
    most [fuel] steps. *)
Fixpoint walk (v : basic_value) (fuel : nat) (it : iterator) : list iterator :=
  match fuel with
  | 0 => []
  | S f =>
      if off_ it =? off v detail.id_frag then []
      else it :: walk v f (next v it)
  end.

End segments.

(** An offset the iteration stands at: inside the path and the query, at
    the start of the path or at a slash. *)
Definition at_piece (v : basic_value) (o : nat) : Prop :=
  off v detail.id_path <= o /\ o < off v detail.id_frag /\
  (o = off v detail.id_path \/ segments.is_slash (rd (s_ v) o) = true).

(** [/a/b?q], a path of two segments and a query. *)
Definition url_a_b_q : basic_value :=
  mk_value (detail.mk_parts [0; 0; 0; 0; 0; 0; 4; 6; 6] None
              detail.host_none 2 1)
           (str "/a/b?q" ++ [NUL]).

(* ================================================================== *)
(** * Properties *)
(* ================================================================== *)

(** ** Buffers read pointwise *)

Lemma rd_nil (i : nat) : rd [] i = NUL.
Proof. destruct i; reflexivity. Qed.

Lemma rd_beyond (b : bytes) (i : nat) : List.length b <= i -> rd b i = NUL.
Proof. intros H. unfold rd. now apply nth_overflow. Qed.

Lemma rd_cons (a : ascii) (l : bytes) (k : nat) :
  rd (a :: l) k = if k =? 0 then a else rd l (k - 1).
Proof.
  destruct k as [|k]; simpl; [reflexivity|].
  now rewrite Nat.sub_0_r.
Qed.

Lemma rd_app (l1 l2 : bytes) (k : nat) :
  rd (l1 ++ l2) k =
  if k <? List.length l1 then rd l1 k else rd l2 (k - List.length l1).
Proof.
  unfold rd. destruct (Nat.ltb_spec k (List.length l1)).
  - now apply app_nth1.
  - now apply app_nth2.
Qed.

Lemma rd_repeat (n k : nat) : rd (repeat NUL n) k = NUL.
Proof.
  unfold rd. revert k. induction n as [|n IH]; intros [|k]; simpl; auto.
Qed.

Lemma rd_firstn (b : bytes) (n k : nat) :
  rd (firstn n b) k = if k <? n then rd b k else NUL.
Proof. unfold rd. apply nth_firstn. Qed.

Lemma rd_skipn (b : bytes) (n k : nat) : rd (skipn n b) k = rd b (n + k).
Proof. unfold rd. apply nth_skipn. Qed.

Lemma rd_sub (b : bytes) (o len k : nat) :
  rd (sub b o len) k = if k <? len then rd b (o + k) else NUL.
Proof. unfold sub. rewrite rd_firstn, rd_skipn. reflexivity. Qed.

Lemma length_sub (b : bytes) (o len : nat) :
  List.length (sub b o len) = Nat.min len (List.length b - o).
Proof. unfold sub. now rewrite length_firstn, length_skipn. Qed.

Lemma length_write (b : bytes) : forall (p : nat) (l : bytes),
  List.length (write b p l) = List.length b.
Proof.
  induction b as [|c r IH]; intros p l; simpl; [reflexivity|].
  destruct p as [|p]; [destruct l|]; simpl; now rewrite ?IH.
Qed.

Lemma rd_write (b : bytes) : forall (p : nat) (l : bytes) (i : nat),
  rd (write b p l) i =
  if p <=? i then
    if i <? p + List.length l then
      if i <? List.length b then rd l (i - p) else NUL
    else rd b i
  else rd b i.
Proof.
  induction b as [|c r IH]; intros p l i.
  - simpl. rewrite rd_nil.
    destruct (p <=? i); [destruct (i <? p + List.length l)|]; reflexivity.
  - destruct p as [|p].
    + destruct l as [|x l].
      * cbn [write List.length Nat.add Nat.leb].
        destruct (Nat.ltb_spec i 0); [lia|reflexivity].
      * destruct i as [|i]; [reflexivity|].
        change (rd (write (c :: r) 0 (x :: l)) (S i)) with (rd (write r 0 l) i).
        rewrite IH. simpl Nat.leb. cbn [List.length Nat.add Nat.sub].
        rewrite Nat.sub_0_r.
        change (S i <? S (List.length l)) with (i <? List.length l).
        change (S i <? S (List.length r)) with (i <? List.length r).
        change (rd (x :: l) (S i)) with (rd l i).
        change (rd (c :: r) (S i)) with (rd r i).
        reflexivity.
    + destruct i as [|i]; [reflexivity|].
      change (rd (write (c :: r) (S p) l) (S i)) with (rd (write r p l) i).
      rewrite IH.
      change (S p <=? S i) with (p <=? i).
      change (S i <? S p + List.length l) with (i <? p + List.length l).
      change (S i <? List.length (c :: r)) with (i <? List.length r).
      reflexivity.
Qed.

Lemma length_storage_resize (n : nat) (b : bytes) :
  List.length (storage_resize n b) = n + 1.
Proof.
  unfold storage_resize.
  rewrite !length_app, length_firstn, repeat_length. simpl. lia.
Qed.

Lemma rd_storage_resize (n : nat) (b : bytes) (i : nat) :
  rd (storage_resize n b) i = if i <? n then rd b i else NUL.
Proof.
  unfold storage_resize. rewrite !rd_app, rd_firstn, rd_repeat.
  rewrite length_firstn, repeat_length.
  destruct (Nat.ltb_spec i n) as [Hin|Hin].
  - destruct (Nat.ltb_spec i (Nat.min n (List.length b))) as [H1|H1];
      [reflexivity|].
    destruct (Nat.ltb_spec (i - Nat.min n (List.length b))
                (n - List.length b)); [|].
    + symmetry. apply rd_beyond. lia.
    + lia.
  - destruct (Nat.ltb_spec i (Nat.min n (List.length b))); [lia|].
    destruct (Nat.ltb_spec (i - Nat.min n (List.length b))
                (n - List.length b)); [reflexivity|].
    rewrite rd_cons. destruct (_ =? 0); [reflexivity|apply rd_nil].
Qed.

Lemma length_memmove (d s n : nat) (b : bytes) :
  List.length (memmove d s n b) = List.length b.
Proof. apply length_write. Qed.

Lemma rd_memmove (d s n : nat) (b : bytes) (i : nat) :
  s + n <= List.length b ->
  rd (memmove d s n b) i =
  if d <=? i then
    if i <? d + n then
      if i <? List.length b then rd b (s + (i - d)) else NUL
    else rd b i
  else rd b i.
Proof.
  intros H. unfold memmove. rewrite rd_write, rd_sub, length_sub.
  replace (Nat.min n (List.length b - s)) with n by lia.
  destruct (d <=? i) eqn:E1; [|reflexivity].
  destruct (i <? d + n) eqn:E2; [|reflexivity].
  destruct (i <? List.length b); [|reflexivity].
  apply Nat.leb_le in E1. apply Nat.ltb_lt in E2.
  destruct (Nat.ltb_spec (i - d) n); [reflexivity|lia].
Qed.

(** Two buffers of one length that read the same everywhere are equal. *)
Lemma bytes_ext (l1 l2 : bytes) :
  List.length l1 = List.length l2 ->
  (forall k, k < List.length l1 -> rd l1 k = rd l2 k) ->
  l1 = l2.
Proof. intros HL H. apply (nth_ext l1 l2 NUL NUL HL H). Qed.

(** A view equals [l] when the buffer holds [l] at that offset. *)
Lemma sub_is (b : bytes) (o : nat) (l : bytes) :
  o + List.length l <= List.length b ->
  (forall k, k < List.length l -> rd b (o + k) = rd l k) ->
  sub b o (List.length l) = l.
Proof.
  intros HL H. apply bytes_ext.
  - rewrite length_sub. lia.
  - intros k Hk. rewrite length_sub in Hk. rewrite rd_sub.
    destruct (Nat.ltb_spec k (List.length l)); [apply H|]; lia.
Qed.

(** Two views of one length agree when the bytes under them agree. *)
Lemma sub_ext (b1 b2 : bytes) (o1 o2 len : nat) :
  o1 + len <= List.length b1 ->
  o2 + len <= List.length b2 ->
  (forall k, k < len -> rd b1 (o1 + k) = rd b2 (o2 + k)) ->
  sub b1 o1 len = sub b2 o2 len.
Proof.
  intros H1 H2 H. apply bytes_ext.
  - rewrite !length_sub. lia.
  - intros k Hk. rewrite length_sub in Hk. rewrite !rd_sub.
    destruct (Nat.ltb_spec k len); [apply H|]; lia.
Qed.

(** ** The index table *)

Lemma sorted_adjacent (l : list nat) :
  sorted l = true ->
  forall i, S i < List.length l -> nth i l 0 <= nth (S i) l 0.
Proof.
  induction l as [|a r IH]; intros Hs i Hi; [simpl in Hi; lia|].
  destruct r as [|b r']; [simpl in Hi; lia|].
  cbn [sorted] in Hs. apply andb_true_iff in Hs. destruct Hs as [Hab Hr].
  apply Nat.leb_le in Hab.
  destruct i as [|i]; [exact Hab|].
  change (nth i (b :: r') 0 <= nth (S i) (b :: r') 0).
  apply IH; [exact Hr|simpl in *; lia].
Qed.

Lemma sorted_monotone (l : list nat) :
  sorted l = true ->
  forall i j, i <= j -> j < List.length l -> nth i l 0 <= nth j l 0.
Proof.
  intros Hs i j Hij Hj. induction Hij as [|j Hij IH]; [lia|].
  transitivity (nth j l 0); [apply IH; lia|].
  now apply sorted_adjacent.
Qed.

Lemma invariant_wf (v : basic_value) : invariant v = true -> wf v.
Proof.
  unfold invariant. intros H.
  apply andb_true_iff in H. destruct H as [H Hnul].
  apply andb_true_iff in H. destruct H as [H Hbuf].
  apply andb_true_iff in H. destruct H as [H Hsorted].
  apply andb_true_iff in H. destruct H as [Hlen Hzero].
  apply Nat.eqb_eq in Hlen.
  change (detail.id_end + 1) with 9 in Hlen.
  constructor.
  - exact Hlen.
  - now apply Nat.eqb_eq.
  - intros i j Hij Hj. apply sorted_monotone; [assumption|lia|lia].
  - apply orb_true_iff in Hbuf. destruct Hbuf as [Hb|Hb].
    + left. now apply Nat.ltb_lt.
    + right. apply andb_true_iff in Hb. destruct Hb as [Ha Hb].
      split; now apply Nat.eqb_eq.
  - now apply Ascii.eqb_eq.
Qed.

Lemma set_nth_length (i x : nat) (l : list nat) :
  List.length (detail.set_nth i x l) = List.length l.
Proof.
  revert i. induction l as [|a r IH]; intros [|i]; simpl; auto.
Qed.

Lemma set_nth_nth (i x : nat) (l : list nat) (k : nat) :
  nth k (detail.set_nth i x l) 0 =
  if (k =? i) && (i <? List.length l) then x else nth k l 0.
Proof.
  revert i k. induction l as [|a r IH]; intros i k.
  - cbn [detail.set_nth List.length].
    destruct (k =? i), i, k; reflexivity.
  - destruct i as [|i], k as [|k]; simpl; try reflexivity.
    rewrite IH. reflexivity.
Qed.

Lemma off_set_off (pt : detail.parts) (i x k : nat) :
  detail.off (detail.set_off i x pt) k =
  if (k =? i) && (i <? List.length (detail.offset pt)) then x
  else detail.off pt k.
Proof. unfold detail.off, detail.set_off. simpl. apply set_nth_nth. Qed.

Lemma off_split (pt : detail.parts) (id n k : nat) :
  detail.off (detail.split id n pt) k =
  if (k =? id + 1) && (id + 1 <? List.length (detail.offset pt))
  then detail.off pt id + n else detail.off pt k.
Proof. unfold detail.split. apply off_set_off. Qed.

Lemma length_split (pt : detail.parts) (id n : nat) :
  List.length (detail.offset (detail.split id n pt)) =
  List.length (detail.offset pt).
Proof. unfold detail.split, detail.set_off. simpl. apply set_nth_length. Qed.

(** The two loops of [resize] over the table. *)
Lemma for_loop_modify (F : nat -> detail.parts -> detail.parts) :
  forall count i v,
    for_loop count i (fun j => modify_pt (F j)) v =
    (mk_value (fold_left (fun q j => F j q) (seq i count) (pt_ v)) (s_ v),
     Ok tt).
Proof.
  induction count as [|c IH]; intros i v.
  - destruct v. reflexivity.
  - cbn [for_loop seq fold_left]. unfold bind at 1. unfold modify_pt at 1.
    rewrite IH. reflexivity.
Qed.

Lemma fold_shift_fields (g : nat -> nat) : forall count i pt,
  let pt' := fold_left
               (fun q j => detail.set_off j (g (detail.off q j)) q)
               (seq i count) pt in
  List.length (detail.offset pt') = List.length (detail.offset pt) /\
  detail.port pt' = detail.port pt /\ detail.host pt' = detail.host pt /\
  detail.nseg pt' = detail.nseg pt /\ detail.nparam pt' = detail.nparam pt.
Proof.
  induction count as [|c IH]; intros i pt; cbn [seq fold_left].
  - auto.
  - specialize (IH (S i) (detail.set_off i (g (detail.off pt i)) pt)).
    cbn zeta in IH. destruct IH as (H1 & H2 & H3 & H4 & H5).
    cbn zeta. rewrite H1, H2, H3, H4, H5.
    unfold detail.set_off. simpl. rewrite set_nth_length. auto.
Qed.

Lemma fold_shift_off (g : nat -> nat) : forall count i pt k,
  i + count <= List.length (detail.offset pt) ->
  detail.off
    (fold_left (fun q j => detail.set_off j (g (detail.off q j)) q)
       (seq i count) pt) k =
  if (i <=? k) && (k <? i + count) then g (detail.off pt k)
  else detail.off pt k.
Proof.
  induction count as [|c IH]; intros i pt k Hlen; cbn [seq fold_left].
  - destruct (Nat.leb_spec i k), (Nat.ltb_spec k (i + 0)); simpl; auto; lia.
  - rewrite IH
      by (unfold detail.set_off; simpl; rewrite set_nth_length; lia).
    rewrite !off_set_off.
    destruct (Nat.leb_spec (S i) k), (Nat.ltb_spec k (S i + c)),
      (Nat.leb_spec i k), (Nat.ltb_spec k (i + S c)),
      (Nat.eqb_spec k i), (Nat.ltb_spec i (List.length (detail.offset pt)));
      simpl; try lia; try reflexivity.
    subst k. reflexivity.
Qed.

Lemma fold_assign_fields (h : detail.parts -> nat) : forall count i pt,
  let pt' := fold_left (fun q j => detail.set_off j (h q) q)
               (seq i count) pt in
  List.length (detail.offset pt') = List.length (detail.offset pt) /\
  detail.port pt' = detail.port pt /\ detail.host pt' = detail.host pt /\
  detail.nseg pt' = detail.nseg pt /\ detail.nparam pt' = detail.nparam pt.
Proof.
  induction count as [|c IH]; intros i pt; cbn [seq fold_left].
  - auto.
  - specialize (IH (S i) (detail.set_off i (h pt) pt)).
    cbn zeta in IH. destruct IH as (H1 & H2 & H3 & H4 & H5).
    cbn zeta. rewrite H1, H2, H3, H4, H5.
    unfold detail.set_off. simpl. rewrite set_nth_length. auto.
Qed.

(** [offset[i] = offset[last] -/+ n] for [i] below [last]. *)
Lemma fold_assign_off (f : nat -> nat) (last : nat) : forall count i pt k,
  i + count <= last ->
  last < List.length (detail.offset pt) ->
  detail.off
    (fold_left (fun q j => detail.set_off j (f (detail.off q last)) q)
       (seq i count) pt) k =
  if (i <=? k) && (k <? i + count) then f (detail.off pt last)
  else detail.off pt k.
Proof.
  induction count as [|c IH]; intros i pt k Hc Hlen; cbn [seq fold_left].
  - destruct (Nat.leb_spec i k), (Nat.ltb_spec k (i + 0)); simpl; auto; lia.
  - rewrite IH
      by (try lia; unfold detail.set_off; simpl; rewrite set_nth_length; lia).
    rewrite !off_set_off.
    destruct (Nat.leb_spec (S i) k), (Nat.ltb_spec k (S i + c)),
      (Nat.leb_spec i k), (Nat.ltb_spec k (i + S c)),
      (Nat.eqb_spec k i), (Nat.eqb_spec last i),
      (Nat.ltb_spec i (List.length (detail.offset pt)));
      simpl; try lia; try reflexivity.
Qed.

(** ** The resize engine *)

Ltac split_bools :=
  repeat match goal with
    | |- context [?a <=? ?b] => destruct (Nat.leb_spec a b)
    | |- context [?a <? ?b] => destruct (Nat.ltb_spec a b)
    | |- context [?a =? ?b] => destruct (Nat.eqb_spec a b)
    end;
  cbn [andb orb negb].

(** The table after the two loops of a range resize that moves the suffix
    by [f]. *)
Lemma resize_table (f : nat -> nat) (pt : detail.parts) (first last : nat) :
  List.length (detail.offset pt) = 9 -> first < last -> last <= 8 ->
  let pt' :=
    fold_left (fun q j => detail.set_off j (f (detail.off q j)) q)
      (seq last (S detail.id_end - last))
      (fold_left (fun q j => detail.set_off j (f (detail.off q last)) q)
         (seq (first + 1) (last - (first + 1))) pt) in
  List.length (detail.offset pt') = 9 /\
  detail.port pt' = detail.port pt /\ detail.host pt' = detail.host pt /\
  detail.nseg pt' = detail.nseg pt /\ detail.nparam pt' = detail.nparam pt /\
  forall k, detail.off pt' k =
            if k <=? first then detail.off pt k
            else if k <=? last then f (detail.off pt last)
            else if k <=? 8 then f (detail.off pt k)
            else detail.off pt k.
Proof.
  intros Hlen Hfl Hl8. cbn zeta. unfold detail.id_end.
  pose proof (fold_assign_fields (fun q => f (detail.off q last))
                (last - (first + 1)) (first + 1) pt) as A.
  cbn zeta in A. destruct A as (A1 & A2 & A3 & A4 & A5).
  match goal with
  | |- context [fold_left ?F (seq last ?c) ?q] =>
      pose proof (fold_shift_fields f c last q) as B
  end.
  cbn zeta in B. destruct B as (B1 & B2 & B3 & B4 & B5).
  rewrite B1, B2, B3, B4, B5, A1, A2, A3, A4, A5.
  repeat split; try assumption.
  intros k. rewrite fold_shift_off by lia.
  rewrite !fold_assign_off by lia.
  split_bools; try lia; try reflexivity.
  replace k with last by lia. reflexivity.
Qed.

(** Monotonicity facts of a table, added when the order of the indices
    is known. *)
Ltac mono_fact H a b :=
  first [ pose proof (wf_mono H a b ltac:(lia) ltac:(lia)) | idtac ].

Ltac mono_facts H a b := mono_fact H a b; mono_fact H b a.

Lemma fits_elim (v : basic_value) (k : nat) :
  fits v k = true ->
  (size_max - N.of_nat (off v 8) <? N.of_nat k)%N = false.
Proof.
  unfold fits. intros H. apply N.leb_le in H. apply N.ltb_ge. exact H.
Qed.

Lemma resized_refl (v : basic_value) (first last n : nat) :
  wf v -> first < last -> last <= 8 ->
  n = off v last - off v first ->
  (forall i, first < i -> i <= last -> off v i = off v last) ->
  resized first last n v v.
Proof.
  intros Hwf Hfl Hl Hn Hin.
  constructor; try reflexivity; try assumption.
  - intros i H1 H2. rewrite (Hin i H1 H2).
    mono_facts Hwf first last. lia.
  - intros i H1 H2. lia.
  - intros i H1 H2. f_equal. lia.
Qed.

Lemma resize_range_spec (v : basic_value) (first last n : nat) :
  wf v -> first < last -> last <= 8 ->
  fits v (n - (off v last - off v first)) = true ->
  exists v',
    resize_range first last n v = (v', Ok (off v first)) /\
    resized first last n v v'.
Proof.
  intros Hwf Hfl Hl Hfit.
  mono_facts Hwf first last. mono_facts Hwf last 8. mono_facts Hwf first 8.
  pose proof (wf_len Hwf) as Hlen.
  pose proof (wf_buf Hwf) as Hbuf.
  pose proof (wf_nul Hwf) as Hnul.
  unfold resize_range. unfold bind at 1. unfold get_pt at 1.
  unfold detail.length_range. fold (off v last) (off v first).
  set (len := off v last - off v first) in *.
  destruct ((n =? 0) && (len =? 0)) eqn:E0.
  - apply andb_true_iff in E0. destruct E0 as [E1 E2].
    apply Nat.eqb_eq in E1, E2.
    exists v. split; [reflexivity|].
    apply resized_refl; auto; [subst len; lia|].
    intros i Hi1 Hi2. mono_facts Hwf first i. mono_facts Hwf i last.
    subst len. lia.
  - assert (Hnz : n <> 0 \/ len <> 0).
    { apply andb_false_iff in E0. destruct E0 as [E|E];
        apply Nat.eqb_neq in E; auto. }
    clear E0.
    destruct (Nat.leb_spec n len) as [Hshrink|Hgrow].
    + (* shrink *)
      unfold for_lt, for_le, bind, modify_s, get_pt, ret.
      rewrite !for_loop_modify. cbn [pt_ s_].
      pose proof (resize_table (fun x => x - (len - n)) (pt_ v) first last Hlen Hfl Hl)
        as T.
      cbn zeta in T. destruct T as (T1 & T2 & T3 & T4 & T5 & T6).
      eexists. split.
      * f_equal. f_equal. rewrite T6.
        destruct (Nat.leb_spec first first); [reflexivity|lia].
      * fold (off v 8) in *. unfold detail.id_end.
        assert (Hsz : off v 8 < List.length (s_ v)) by (subst len; lia).
        constructor; unfold off in *; cbn [pt_ s_]; try assumption.
        -- constructor; unfold off; cbn [pt_ s_].
           ++ exact T1.
           ++ rewrite T6. simpl. apply (wf_zero Hwf).
           ++ intros i j Hij Hj. rewrite !T6.
              split_bools; try lia;
                mono_facts Hwf i j; mono_facts Hwf i first;
                mono_facts Hwf last j; mono_facts Hwf last i;
                mono_facts Hwf j first;
                unfold off in *; subst len; lia.
           ++ left. rewrite length_memmove, T6.
              unfold off in *. subst len. split_bools; lia.
           ++ rewrite T6. rewrite rd_memmove by (unfold off in *; lia).
              split_bools; try (unfold off in *; subst len; lia);
                mono_facts Hwf 8 last; unfold off in *; subst len;
                rewrite <- Hnul; f_equal; lia.
        -- intros i Hi. rewrite T6. split_bools; try lia; reflexivity.
        -- intros i Hi1 Hi2. rewrite T6. unfold off in *. subst len.
           split_bools; lia.
        -- intros i Hi1 Hi2. rewrite T6.
           split_bools; try lia;
             mono_facts Hwf last i; unfold off in *; subst len; lia.
        -- intros i Hi. rewrite rd_memmove by (unfold off in *; lia).
           unfold off in *. subst len. split_bools; try lia; reflexivity.
        -- intros i Hi1 Hi2. rewrite T6 in Hi2.
           rewrite rd_memmove by (unfold off in *; lia).
           revert Hi2. unfold off in *. subst len.
           split_bools; intros; try lia;
             mono_facts Hwf 8 last; unfold off in *; try lia;
             f_equal; lia.
    + (* grow *)
      unfold size. unfold bind at 1. unfold bind at 1.
      unfold get_pt at 1. unfold ret at 1.
      fold (off v 8). unfold detail.id_end at 1.
      change (detail.off (pt_ v) 8) with (off v 8).
      rewrite (fits_elim v _ Hfit).
      unfold for_lt, for_le, bind, modify_s, get_pt, ret.
      rewrite !for_loop_modify. cbn [pt_ s_].
      pose proof (resize_table (fun x => x + (n - len)) (pt_ v) first last Hlen Hfl Hl)
        as T.
      cbn zeta in T. destruct T as (T1 & T2 & T3 & T4 & T5 & T6).
      eexists. split.
      * f_equal. f_equal. rewrite T6.
        destruct (Nat.leb_spec first first); [reflexivity|lia].
      * unfold detail.id_end.
        assert (Hrd : forall j, j <= off v 8 ->
                  rd (storage_resize (off v 8 - len + n) (s_ v)) j =
                  rd (s_ v) j).
        { intros j Hj. rewrite rd_storage_resize.
          subst len. split_bools; [reflexivity|lia]. }
        assert (Hmv : off v last + (off v 8 - off v last + 1) <=
                      List.length (storage_resize (off v 8 - len + n) (s_ v))).
        { rewrite length_storage_resize. subst len. lia. }
        constructor; unfold off in *; cbn [pt_ s_]; try assumption.
        -- constructor; unfold off; cbn [pt_ s_].
           ++ exact T1.
           ++ rewrite T6. simpl. apply (wf_zero Hwf).
           ++ intros i j Hij Hj. rewrite !T6.
              split_bools; try lia;
                mono_facts Hwf i j; mono_facts Hwf i first;
                mono_facts Hwf last j; mono_facts Hwf last i;
                mono_facts Hwf j first;
                unfold off in *; subst len; lia.
           ++ left. rewrite length_memmove, length_storage_resize, T6.
              unfold off in *. subst len. split_bools; lia.
           ++ rewrite T6. rewrite rd_memmove by exact Hmv.
              rewrite length_storage_resize.
              split_bools; try (unfold off in *; subst len; lia);
                mono_facts Hwf 8 last; unfold off in *; subst len;
                rewrite Hrd by lia; rewrite <- Hnul; f_equal; lia.
        -- intros i Hi. rewrite T6. split_bools; try lia; reflexivity.
        -- intros i Hi1 Hi2. rewrite T6. unfold off in *. subst len.
           split_bools; lia.
        -- intros i Hi1 Hi2. rewrite T6.
           split_bools; try lia;
             mono_facts Hwf last i; unfold off in *; subst len; lia.
        -- intros i Hi. rewrite rd_memmove by exact Hmv.
           unfold off in *. subst len.
           split_bools; try lia; apply Hrd; lia.
        -- intros i Hi1 Hi2. rewrite T6 in Hi2.
           rewrite rd_memmove by exact Hmv.
           rewrite length_storage_resize.
           revert Hi2. unfold off in *. subst len.
           split_bools; intros; try lia;
             mono_facts Hwf 8 last; unfold off in *; try lia;
             rewrite Hrd by lia; f_equal; lia.
Qed.

(** Away from the early return, the single-component resize is the range
    resize of [id .. id + 1]. *)
Lemma resize_as_range (v : basic_value) (id n : nat) :
  detail.length (pt_ v) id <> n ->
  resize id n v = resize_range id (id + 1) n v.
Proof.
  intros Hne. unfold resize, resize_range, for_lt.
  rewrite Nat.sub_diag. cbn [for_loop].
  unfold bind, get_pt, size, ret, raise, modify_s.
  unfold detail.length in *. unfold detail.length_range.
  set (len := detail.off (pt_ v) (id + 1) - detail.off (pt_ v) id) in *.
  destruct (Nat.eqb_spec len n) as [E|_]; [contradiction|].
  replace ((n =? 0) && (len =? 0)) with false
    by (symmetry; apply andb_false_iff;
        destruct (Nat.eqb_spec n 0); [right; apply Nat.eqb_neq; lia|now left]).
  destruct (n <=? len); reflexivity.
Qed.

Lemma resize_spec (v : basic_value) (id n : nat) :
  wf v -> id < 8 ->
  fits v (n - (off v (id + 1) - off v id)) = true ->
  exists v',
    resize id n v = (v', Ok (off v id)) /\
    resized id (id + 1) n v v'.
Proof.
  intros Hwf Hid Hfit.
  destruct (Nat.eq_dec (detail.length (pt_ v) id) n) as [E|E].
  - exists v. split.
    + unfold resize, bind, get_pt, ret. rewrite E, Nat.eqb_refl. reflexivity.
    + apply resized_refl; try assumption; try lia.
      * unfold detail.length in E. unfold off. lia.
      * intros i Hi1 Hi2. replace i with (id + 1) by lia. reflexivity.
  - rewrite (resize_as_range v id n E).
    apply resize_range_spec; try assumption; lia.
Qed.

(** A request that does not fit raises [too_large] before anything is
    written. *)
Lemma resize_too_large (v : basic_value) (id n : nat) :
  off v id <= off v (id + 1) ->
  fits v (n - (off v (id + 1) - off v id)) = false ->
  resize id n v = (v, Raise too_large).
Proof.
  intros Hm Hfit. unfold fits in Hfit. apply N.leb_gt in Hfit.
  unfold resize, size. unfold bind, get_pt, ret, raise. unfold detail.length.
  fold (off v (id + 1)) (off v id).
  destruct (Nat.eqb_spec (off v (id + 1) - off v id) n) as [E|E].
  - rewrite E, Nat.sub_diag in Hfit. simpl in Hfit. lia.
  - destruct (Nat.leb_spec n (off v (id + 1) - off v id)) as [L|L].
    + replace (n - (off v (id + 1) - off v id)) with 0 in Hfit by lia.
      simpl in Hfit. lia.
    + cbn [pt_]. apply N.ltb_lt in Hfit.
      unfold off, detail.id_end in *. rewrite Hfit. reflexivity.
Qed.

(** ** Frame property of the single-component resize *)

Lemma wf_bound (v : basic_value) (i : nat) :
  wf v -> i <= 8 -> off v i <= List.length (s_ v).
Proof.
  intros Hwf Hi. pose proof (wf_mono Hwf i 8). pose proof (wf_buf Hwf). lia.
Qed.

Lemma resized_region_before (v v' : basic_value) (first last n j : nat) :
  wf v -> first < last -> last <= 8 ->
  resized first last n v v' -> j < first ->
  detail.get (pt_ v') j (s_ v') = detail.get (pt_ v) j (s_ v).
Proof.
  intros Hwf Hfl Hl R Hj. unfold detail.get, detail.length.
  fold (off v' j) (off v' (j + 1)) (off v j) (off v (j + 1)).
  rewrite (rs_before R j), (rs_before R (j + 1)) by lia.
  pose proof (wf_bound v' (j + 1) (rs_wf R)).
  rewrite (rs_before R (j + 1)) in * by lia.
  pose proof (wf_bound v (j + 1) Hwf).
  mono_facts Hwf j (j + 1). mono_facts Hwf (j + 1) first.
  apply sub_ext; try lia.
  intros k Hk. apply (rs_prefix R). lia.
Qed.

Lemma resized_region_after (v v' : basic_value) (first last n j : nat) :
  wf v -> first < last -> last <= 8 ->
  resized first last n v v' -> last <= j -> j < 8 ->
  detail.get (pt_ v') j (s_ v') = detail.get (pt_ v) j (s_ v).
Proof.
  intros Hwf Hfl Hl R Hj Hj8. unfold detail.get, detail.length.
  fold (off v' j) (off v' (j + 1)) (off v j) (off v (j + 1)).
  pose proof (wf_bound v' (j + 1) (rs_wf R)).
  pose proof (wf_bound v (j + 1) Hwf).
  pose proof (rs_after R (j + 1)) as A1.
  mono_facts Hwf j (j + 1). mono_facts Hwf last j. mono_facts Hwf first last.
  mono_facts (rs_wf R) j (j + 1). mono_facts (rs_wf R) (j + 1) 8.
  assert (A0 : off v' j + (off v last - off v first) = off v j + n).
  { destruct (Nat.eq_dec j last) as [->|Hne].
    - rewrite (rs_inside R last) by lia. lia.
    - apply (rs_after R); lia. }
  replace (off v' (j + 1) - off v' j) with (off v (j + 1) - off v j) by lia.
  apply sub_ext; try lia.
  intros k Hk. rewrite (rs_suffix R) by lia. f_equal. lia.
Qed.

(** C9.  For a component [id] and a new size [n] that fits,
    [resize(id, n)] returns the start of the component, keeps the bytes of
    every other component, keeps the suffix from the next component up to
    and including the trailing NUL, leaves the offsets up to [id] alone and
    moves every later offset by [n] minus the old length of the component. *)
Theorem resize_frame (v : basic_value) (id n : nat) :
  invariant v = true ->
  id < detail.id_end ->
  fits v (n - detail.length (pt_ v) id) = true ->
  let v' := exec (resize id n) v in
  eval (resize id n) v = Ok (off v id) /\
  (forall j, j < detail.id_end -> j <> id ->
     detail.get (pt_ v') j (s_ v') = detail.get (pt_ v) j (s_ v)) /\
  (forall k, k <= off v detail.id_end - off v (id + 1) ->
     rd (s_ v') (off v' (id + 1) + k) = rd (s_ v) (off v (id + 1) + k)) /\
  rd (s_ v') (off v' detail.id_end) = NUL /\
  (forall i, i <= id -> off v' i = off v i) /\
  (forall i, id < i -> i <= detail.id_end ->
     off v' i + detail.length (pt_ v) id = off v i + n) /\
  detail.length (pt_ v') id = n.
Proof.
  intros Hinv Hid Hfit. apply invariant_wf in Hinv.
  unfold detail.id_end in *.
  destruct (resize_spec v id n Hinv Hid Hfit) as (v' & E & R).
  unfold exec, eval. rewrite E. cbn [fst snd]. cbn zeta.
  pose proof (rs_wf R) as Hwf'.
  pose proof (rs_inside R (id + 1)) as Hin.
  mono_facts Hinv id (id + 1).
  repeat split.
  - intros j Hj Hne. destruct (Nat.lt_ge_cases j id).
    + apply (resized_region_before v v' id (id + 1) n j); auto; lia.
    + apply (resized_region_after v v' id (id + 1) n j); auto; lia.
  - intros k Hk.
    mono_facts Hinv (id + 1) 8. mono_facts Hwf' (id + 1) 8.
    assert (A8 : off v' 8 + (off v (id + 1) - off v id) = off v 8 + n).
    { destruct (Nat.eq_dec (id + 1) 8) as [E8|E8].
      - rewrite <- E8. rewrite Hin by lia. lia.
      - apply (rs_after R); lia. }
    rewrite (rs_suffix R) by lia. f_equal. lia.
  - apply (wf_nul Hwf').
  - intros i Hi. apply (rs_before R). exact Hi.
  - intros i Hi1 Hi2. unfold detail.length. fold (off v (id + 1)) (off v id).
    destruct (Nat.eq_dec i (id + 1)) as [->|Hne].
    + rewrite Hin by lia. lia.
    + apply (rs_after R); lia.
  - unfold detail.length. fold (off v' (id + 1)) (off v' id).
    rewrite Hin by lia. rewrite (rs_before R id) by lia. lia.
Qed.

(** ** Strong guarantee: validation comes before mutation *)

Lemma total_safe {A} (m : M A) : total m -> safe m.
Proof.
  intros T v v' e H. destruct (T v) as (w & a & E). congruence.
Qed.

Lemma safe_ret {A} (a : A) : safe (ret a).
Proof. intros v v' e H. discriminate. Qed.

Lemma safe_raise {A} (x : error) : safe (@raise A x).
Proof. intros v v' e H. unfold raise in H. congruence. Qed.

Lemma pure_get_pt : pure get_pt.
Proof. intros v. reflexivity. Qed.

Lemma pure_get_s : pure get_s.
Proof. intros v. reflexivity. Qed.

Lemma pure_size : pure size.
Proof. intros v. reflexivity. Qed.

Lemma pure_lift {A} (r : result A) : pure (lift r).
Proof. intros v. reflexivity. Qed.

Lemma pure_check_ec {A} (r : result A) : pure (check_ec r).
Proof. intros v. destruct r; reflexivity. Qed.

Lemma pure_snapshot : pure (fun st : basic_value => (st, Ok st)).
Proof. intros v. reflexivity. Qed.

Lemma total_ret {A} (a : A) : total (ret a).
Proof. intros v. now exists v, a. Qed.

Lemma total_get_pt : total get_pt.
Proof. intros v. now exists v, (pt_ v). Qed.

Lemma total_modify_pt (f : detail.parts -> detail.parts) : total (modify_pt f).
Proof. intros v. eexists. exists tt. reflexivity. Qed.

Lemma total_modify_s (f : bytes -> bytes) : total (modify_s f).
Proof. intros v. eexists. exists tt. reflexivity. Qed.

Lemma total_store (d : nat) (l : bytes) : total (store d l).
Proof. apply total_modify_s. Qed.

Lemma total_poke (d : nat) (c : string) : total (poke d c).
Proof. apply total_modify_s. Qed.

Lemma total_bind {A B} (m : M A) (k : A -> M B) :
  total m -> (forall a, total (k a)) -> total (bind m k).
Proof.
  intros Tm Tk v. destruct (Tm v) as (v1 & a & E1).
  destruct (Tk a v1) as (v2 & b & E2).
  exists v2, b. unfold bind. now rewrite E1.
Qed.

Lemma total_for_loop (body : nat -> M unit) :
  (forall i, total (body i)) -> forall count i, total (for_loop count i body).
Proof.
  intros Tb. induction count as [|c IH]; intros i.
  - apply total_ret.
  - cbn [for_loop]. apply total_bind; [apply Tb|intros _; apply IH].
Qed.

Lemma safe_bind_pure {A B} (m : M A) (k : A -> M B) :
  pure m -> (forall a, safe (k a)) -> safe (bind m k).
Proof.
  intros Pm Sk v v' e H. unfold bind in H. specialize (Pm v).
  destruct (m v) as [v1 [a|x]]; cbn [fst] in Pm; subst v1.
  - exact (Sk a v v' e H).
  - congruence.
Qed.

Lemma safe_bind_total {A B} (m : M A) (k : A -> M B) :
  safe m -> (forall a, total (k a)) -> safe (bind m k).
Proof.
  intros Sm Tk v v' e H. unfold bind in H.
  destruct (m v) as [v1 [a|x]] eqn:E.
  - destruct (Tk a v1) as (v2 & b & E2). congruence.
  - assert (v1 = v) by (apply (Sm v v1 x E)). congruence.
Qed.

Ltac totality :=
  repeat first
    [ apply total_ret | apply total_get_pt | apply total_modify_pt
    | apply total_modify_s | apply total_store | apply total_poke
    | apply total_for_loop; intros
    | apply total_bind; [|intros]
    | match goal with
      | |- total (if ?c then _ else _) => destruct c
      | |- total (for_le _ _ _) => unfold for_le
      | |- total (for_lt _ _ _) => unfold for_lt
      end ].

Ltac purity :=
  first [ apply pure_get_pt | apply pure_get_s | apply pure_size
        | apply pure_lift | apply pure_check_ec | apply pure_snapshot ].

Lemma safe_resize (id n : nat) : safe (resize id n).
Proof.
  unfold resize.
  apply safe_bind_pure; [purity|intros pt].
  destruct (_ =? _); [apply safe_ret|].
  destruct (_ <=? _); [apply total_safe; totality|].
  apply safe_bind_pure; [purity|intros sz].
  destruct (_ <? _)%N; [apply safe_raise|apply total_safe; totality].
Qed.

Lemma safe_resize_range (first last n : nat) : safe (resize_range first last n).
Proof.
  unfold resize_range.
  apply safe_bind_pure; [purity|intros pt].
  destruct (_ && _); [apply safe_ret|].
  destruct (_ <=? _); [apply total_safe; totality|].
  apply safe_bind_pure; [purity|intros sz].
  destruct (_ <? _)%N; [apply safe_raise|apply total_safe; totality].
Qed.

(** A setter is safe when everything before its resize only reads and
    everything after it cannot raise. *)
Ltac safety :=
  repeat first
    [ apply safe_ret | apply safe_raise
    | apply safe_resize | apply safe_resize_range
    | apply safe_bind_pure; [solve [purity]|intros]
    | apply safe_bind_total; [|solve [intros; totality]]
    | match goal with
      | |- safe (if ?c then _ else _) => destruct c
      | |- safe (match ?r with Ok _ => _ | Raise _ => _ end) => destruct r
      | |- safe (match ?r with Some _ => _ | None => _ end) => destruct r
      | |- safe (ignore _) => unfold ignore
      end ].

Lemma safe_set_username (s : bytes) : safe (set_username s).
Proof. unfold set_username. safety. Qed.

Lemma safe_set_password (s : bytes) : safe (set_password s).
Proof. unfold set_password. safety. Qed.

Lemma safe_set_query (s : bytes) : safe (set_query s).
Proof. unfold set_query. safety. Qed.

Lemma safe_set_fragment (s : bytes) : safe (set_fragment s).
Proof. unfold set_fragment. safety. Qed.

Lemma safe_set_port (num : option N) : safe (set_port num).
Proof. unfold set_port. safety. Qed.

Lemma safe_set_scheme (s : bytes) : safe (set_scheme s).
Proof. unfold set_scheme. safety. Qed.

Lemma safe_set_encoded_userinfo (s : bytes) : safe (set_encoded_userinfo s).
Proof. unfold set_encoded_userinfo. safety. Qed.

Lemma safe_set_encoded_username (s : bytes) : safe (set_encoded_username s).
Proof.
  unfold set_encoded_username.
  destruct (empty s); [apply safe_set_username|]. safety.
Qed.

Lemma safe_set_encoded_password (s : bytes) : safe (set_encoded_password s).
Proof.
  unfold set_encoded_password.
  destruct (empty s); [apply safe_set_password|]. safety.
Qed.

Lemma safe_set_port_string (s : bytes) : safe (set_port_string s).
Proof.
  unfold set_port_string.
  destruct (empty s); [apply safe_set_port|].
  apply safe_bind_pure; [purity|intros p]. apply safe_set_port.
Qed.

Lemma safe_set_encoded_path (s : bytes) : safe (set_encoded_path s).
Proof. unfold set_encoded_path. safety. Qed.

Lemma safe_set_encoded_query (s : bytes) : safe (set_encoded_query s).
Proof. unfold set_encoded_query. safety. Qed.

Lemma safe_set_encoded_fragment (s : bytes) : safe (set_encoded_fragment s).
Proof. unfold set_encoded_fragment. safety. Qed.

Lemma safe_set_fragment_part (s : bytes) : safe (set_fragment_part s).
Proof.
  unfold set_fragment_part.
  destruct (empty s); [apply safe_set_fragment|]. safety.
Qed.

Section GrammarSafety.

Context {G : Grammar}.

Lemma safe_set_encoded_url (s : bytes) : safe (set_encoded_url s).
Proof. unfold set_encoded_url. safety. apply total_safe. totality. Qed.

Lemma safe_set_encoded_origin (s : bytes) : safe (set_encoded_origin s).
Proof. unfold set_encoded_origin. safety. Qed.

Lemma safe_set_encoded_authority (s : bytes) : safe (set_encoded_authority s).
Proof. unfold set_encoded_authority. safety. Qed.

Lemma safe_set_encoded_host (s : bytes) : safe (set_encoded_host s).
Proof. unfold set_encoded_host. safety. Qed.

Lemma safe_set_encoded_hostname (s : bytes) : safe (set_encoded_hostname s).
Proof.
  unfold set_encoded_hostname, set_hostname.
  destruct (empty s); safety.
Qed.

End GrammarSafety.

Section StrongGuarantee.

Context {G : Grammar}.

Lemma safe_run (op : setter) (s : bytes) :
  op <> op_set_hostname -> safe (run op s).
Proof.
  intros Hop.
  destruct op; cbn [run]; try contradiction;
    auto using safe_set_encoded_url, safe_set_encoded_origin, safe_set_scheme,
      safe_set_encoded_authority, safe_set_encoded_userinfo,
      safe_set_encoded_username, safe_set_encoded_password,
      safe_set_encoded_host, safe_set_encoded_hostname, safe_set_port_string,
      safe_set_encoded_path, safe_set_encoded_query,
      safe_set_encoded_fragment, safe_set_fragment_part,
      safe_set_username, safe_set_password, safe_set_query,
      safe_set_fragment.
Qed.

Lemma bind_lift_raise {A B} (r : result A) (k : A -> M B) (e : error)
      (v : basic_value) :
  r = Raise e -> bind (lift r) k v = (v, Raise e).
Proof. intros ->. reflexivity. Qed.

Lemma bind_check_ec_raise {A B} (r : result A) (k : A -> M B) (e : error)
      (v : basic_value) :
  r = Raise e -> bind (check_ec r) k v = (v, Raise invalid_part).
Proof. intros ->. reflexivity. Qed.

(** The checks of [validation] are the ones the setters run before they
    write: an argument that fails them makes the call raise that error with
    the container as it was. *)
Lemma validation_raises (op : setter) (s : bytes) (v : basic_value)
      (e : error) :
  validation op s = Raise e -> run op s v = (v, Raise e).
Proof.
  intros Hv. unfold validation in Hv.
  destruct (empty s) eqn:Hne; [discriminate|].
  destruct op; cbn [run] in *; try discriminate.
  - unfold set_encoded_url. rewrite Hne.
    destruct (parse_url s) eqn:E; cbn in Hv; [discriminate|].
    inversion Hv; subst. reflexivity.
  - unfold set_encoded_origin. rewrite Hne.
    destruct (parse_origin s) eqn:E; cbn in Hv; [discriminate|].
    inversion Hv; subst. reflexivity.
  - unfold set_scheme. rewrite Hne. now apply bind_lift_raise.
  - unfold set_encoded_authority. rewrite Hne.
    destruct (parse_authority s) eqn:E; cbn in Hv; [discriminate|].
    inversion Hv; subst. reflexivity.
  - unfold set_encoded_userinfo. rewrite Hne.
    destruct (pct.parse pct.userinfo_nc_pct_set s) as [n0|x] eqn:E0.
    + destruct (pct.parse pct.userinfo_pct_set (skipn n0 s)) as [n1|x] eqn:E1.
      * destruct (n0 + n1 =? List.length s) eqn:E2; [discriminate|].
        inversion Hv; subst. unfold bind, check_ec, ret, raise.
        rewrite E1, E2. reflexivity.
      * inversion Hv; subst. unfold bind, check_ec, ret, raise.
        rewrite E1. reflexivity.
    + inversion Hv; subst. reflexivity.
  - unfold set_encoded_username. rewrite Hne. now apply bind_lift_raise.
  - unfold set_encoded_password. rewrite Hne.
    destruct (Ascii.eqb (nth 0 s NUL) (chr ":")).
    + inversion Hv; subst. reflexivity.
    + now apply bind_lift_raise.
  - unfold set_encoded_host. rewrite Hne.
    destruct (parse_host s) eqn:E; cbn in Hv; [discriminate|].
    inversion Hv; subst. reflexivity.
  - unfold set_encoded_hostname. rewrite Hne.
    destruct (parse_hostname s) eqn:E; cbn in Hv; [discriminate|].
    inversion Hv; subst. reflexivity.
  - unfold set_port_string. rewrite Hne.
    destruct (grammar.parse_port s) eqn:E; cbn in Hv; [discriminate|].
    inversion Hv; subst. reflexivity.
  - unfold set_encoded_path. rewrite Hne. now apply bind_lift_raise.
  - unfold set_encoded_query. rewrite Hne. cbn zeta.
    fold (query_argument s). now apply bind_lift_raise.
  - unfold set_encoded_fragment. rewrite Hne. now apply bind_lift_raise.
  - unfold set_fragment_part. rewrite Hne.
    destruct (negb (Ascii.eqb (front s) (chr "#"))).
    + inversion Hv; subst. reflexivity.
    + now apply bind_lift_raise.
Qed.

End StrongGuarantee.

(** ** Password delimiter, port strings, path validation *)

(** C8.  An encoded password whose first byte is a colon is rejected with
    [invalid_part] before anything is written, although the colon belongs
    to the password character set and passes percent-validation. *)
Theorem set_encoded_password_leading_colon (rest : bytes) (v : basic_value) :
  set_encoded_password (chr ":" :: rest) v = (v, Raise invalid_part) /\
  pct.mask pct.userinfo_pct_set (chr ":") = true /\
  pct.validate pct.userinfo_pct_set [chr ":"] = Ok tt.
Proof. repeat split. Qed.

Lemma parse_port_digits (s : bytes) :
  forallb chars.is_digit s = true ->
  s <> [] ->
  grammar.parse_port s =
  Ok (if (grammar.digits_value s <=? 65535)%N
      then Some (grammar.digits_value s) else None).
Proof.
  intros Hd Hs. unfold grammar.parse_port. rewrite Hd.
  destruct s; [contradiction|]. cbn [empty].
  destruct (_ <=? _)%N; reflexivity.
Qed.

Lemma set_port_string_run (s : bytes) (v : basic_value) :
  s <> [] ->
  forallb chars.is_digit s = true ->
  set_port_string s v =
  set_port (if (grammar.digits_value s <=? 65535)%N
            then Some (grammar.digits_value s) else None) v.
Proof.
  intros Hs Hd. unfold set_port_string.
  destruct s as [|c r]; [contradiction|]. cbn [empty].
  unfold bind, lift. rewrite (parse_port_digits (c :: r) Hd Hs). reflexivity.
Qed.

(** C10.  For a non-empty digit string [s], [set_port_string(s)] is
    [set_port(p)] for the optional number [p] that parsing [s] yields: the
    same outcome and the same final container. *)
Theorem set_port_string_is_set_port (s : bytes) (v : basic_value) :
  s <> [] ->
  forallb chars.is_digit s = true ->
  exists p,
    grammar.parse_port s = Ok p /\
    p = (if (grammar.digits_value s <=? 65535)%N
         then Some (grammar.digits_value s) else None) /\
    set_port_string s v = set_port p v.
Proof.
  intros Hs Hd. eexists. split; [apply parse_port_digits; assumption|].
  split; [reflexivity|]. now apply set_port_string_run.
Qed.

Lemma set_port_string_is_set_port_witness :
  exists p,
    grammar.parse_port (str "0080") = Ok p /\
    p = Some 80%N /\
    set_port_string (str "0080") url_http_h = set_port p url_http_h.
Proof.
  apply (set_port_string_is_set_port (str "0080") url_http_h).
  - discriminate.
  - reflexivity.
Defined.

(** C2 (the code at the failing input).  On a container without authority,
    [set_encoded_path("//evil")] raises nothing: the argument is a
    path-abempty, the only production the setter checks, and the buffer
    becomes [//evil]. *)
Theorem set_encoded_path_double_slash :
  eval (set_encoded_path (str "//evil")) value_init = Ok tt /\
  has_authority value_init = false /\
  encoded_url (exec (set_encoded_path (str "//evil")) value_init) =
    str "//evil" /\
  encoded_path (exec (set_encoded_path (str "//evil")) value_init) =
    str "//evil" /\
  exec (set_encoded_path (str "//evil")) value_init <> value_init.
Proof.
  repeat split; try reflexivity. vm_compute. discriminate.
Qed.

(** ** Round trip through the constructor *)

Lemma cstring_app_nul (s r : bytes) : cstring (s ++ NUL :: r) = cstring s.
Proof.
  induction s as [|c s IH]; [reflexivity|].
  simpl. destruct (Ascii.eqb c NUL); [reflexivity|]. now rewrite IH.
Qed.

Lemma cstring_no_nul (s : bytes) : ~ In NUL s -> cstring s = s.
Proof.
  induction s as [|c s IH]; intros H; [reflexivity|].
  simpl. destruct (Ascii.eqb_spec c NUL) as [E|E].
  - exfalso. apply H. left. now symmetry.
  - rewrite IH; [reflexivity|]. intros Hin. apply H. now right.
Qed.

Lemma write_fresh (s : bytes) :
  write (storage_resize (List.length s) []) 0 s = s ++ [NUL].
Proof.
  apply bytes_ext.
  - rewrite length_write, length_storage_resize, length_app. reflexivity.
  - intros k Hk. rewrite length_write, length_storage_resize in Hk.
    rewrite rd_write, rd_storage_resize, length_storage_resize, rd_app.
    rewrite rd_nil, Nat.sub_0_r. cbn [Nat.add Nat.leb].
    destruct (Nat.ltb_spec k (List.length s)) as [L|L].
    + destruct (Nat.ltb_spec k (List.length s + 1)); [reflexivity|lia].
    + replace (k - List.length s) with 0 by lia. reflexivity.
Qed.

Section RoundTrip.

Context {G : Grammar}.

(** The container built from a non-empty string that parses: the table of
    the parser over a buffer holding the string and the terminator. *)
Lemma construct_buffer (c : ascii) (r : bytes) (pt : detail.parts) :
  parse_url (c :: r) = Ok pt ->
  construct (c :: r) = (mk_value pt ((c :: r) ++ [NUL]), Ok tt).
Proof.
  intros Hp. unfold construct, set_encoded_url.
  cbn [empty]. unfold bind, check_ec. rewrite Hp.
  unfold store. unfold ret, modify_s, modify_pt.
  cbn [fst snd s_ pt_ value_init].
  now rewrite write_fresh.
Qed.

(** C4.  When [s] parses as a URI-reference, constructing a container from
    [s] succeeds and its buffer holds exactly the bytes of [s] followed by
    the terminating NUL, so the C string at [c_str()] is the C string [s];
    for text (no NUL byte in [s]) reading back yields exactly [s]. *)
Theorem construct_round_trip (s : bytes) (pt : detail.parts) :
  parse_url s = Ok pt ->
  snd (construct s) = Ok tt /\
  sub (s_ (fst (construct s))) 0 (List.length s) = s /\
  rd (s_ (fst (construct s))) (List.length s) = NUL /\
  c_str (fst (construct s)) = cstring s /\
  (~ In NUL s -> c_str (fst (construct s)) = s).
Proof.
  intros Hp. destruct s as [|c r].
  - cbn. repeat split; intros; reflexivity.
  - rewrite (construct_buffer c r pt Hp).
    cbn [fst snd]. unfold c_str. cbn [s_].
    rewrite cstring_app_nul.
    repeat split.
    + unfold sub. rewrite skipn_O, firstn_app, Nat.sub_diag, firstn_all.
      cbn [firstn]. now rewrite app_nil_r.
    + rewrite rd_app, Nat.ltb_irrefl, Nat.sub_diag. reflexivity.
    + apply cstring_no_nul.
Qed.

End RoundTrip.

(** ** Setting a password on a container without a user *)

Lemma length_encode (e : pct.pct_set) (s : bytes) :
  List.length (pct.encode e s) = pct.encoded_size e s.
Proof.
  induction s as [|c r IH]; [reflexivity|].
  cbn [pct.encode pct.encoded_size]. rewrite length_app, IH.
  destruct (pct.mask e c); reflexivity.
Qed.

Lemma encoded_size_bound (e : pct.pct_set) (s : bytes) :
  pct.encoded_size e s <= 3 * List.length s.
Proof.
  induction s as [|c r IH]; [simpl; lia|].
  cbn [pct.encoded_size List.length]. destruct (pct.mask e c); lia.
Qed.

Lemma encoded_size_pos (e : pct.pct_set) (s : bytes) :
  s <> [] -> 0 < pct.encoded_size e s.
Proof.
  destruct s as [|c r]; [contradiction|]. intros _.
  cbn [pct.encoded_size]. destruct (pct.mask e c); lia.
Qed.

Lemma bind_ok {A B} (m : M A) (k : A -> M B) (v v' : basic_value) (a : A) :
  m v = (v', Ok a) -> bind m k v = k a v'.
Proof. intros E. unfold bind. now rewrite E. Qed.

Lemma fits_mono (v : basic_value) (a b : nat) :
  a <= b -> fits v b = true -> fits v a = true.
Proof.
  unfold fits. intros Hab H. apply N.leb_le in H. apply N.leb_le. lia.
Qed.

Lemma set_password_install (s : bytes) :
  s <> [] ->
  set_password s = install_password (pct.encode pct.userinfo_pct_set s).
Proof.
  intros Hs. unfold set_password, install_password.
  destruct s as [|c r]; [contradiction|]. cbn [empty].
  rewrite length_encode. reflexivity.
Qed.

Lemma set_encoded_password_install (s : bytes) (v : basic_value) :
  s <> [] ->
  Ascii.eqb (nth 0 s NUL) (chr ":") = false ->
  pct.validate pct.userinfo_pct_set s = Ok tt ->
  set_encoded_password s v = install_password s v.
Proof.
  intros Hs Hc Hv. unfold set_encoded_password, install_password.
  destruct s as [|c r]; [contradiction|]. cbn [empty].
  rewrite Hc. unfold bind at 1. unfold lift. rewrite Hv. reflexivity.
Qed.

(** Reading a buffer after a chain of stores: rewrite every read to the
    bytes stored or the bytes below, then decide the comparisons. *)
Ltac rd_step :=
  first [ rewrite rd_write | rewrite rd_cons | rewrite rd_app
        | rewrite rd_nil | rewrite length_write | rewrite rd_sub ].

Ltac rd_solve :=
  repeat rd_step; cbn [List.length]; split_bools;
  try lia; try reflexivity; try (f_equal; lia).

Lemma no_user_cases (v : basic_value) :
  wf v -> no_user v = true ->
  off v 2 = off v 1 \/
  (off v 2 = off v 1 + 2 /\
   rd (s_ v) (off v 1) = chr "/" /\ rd (s_ v) (off v 1 + 1) = chr "/").
Proof.
  intros Hwf H. unfold no_user in H.
  pose proof (wf_bound v 2 Hwf ltac:(lia)) as Hb.
  mono_facts Hwf 1 2.
  assert (HL : List.length (detail.get (pt_ v) detail.id_username (s_ v)) =
               off v 2 - off v 1).
  { unfold detail.get, detail.length. rewrite length_sub.
    change (detail.id_username + 1) with 2.
    change detail.id_username with 1. fold (off v 2) (off v 1). lia. }
  apply orb_true_iff in H. destruct H as [H|H].
  - left. destruct (detail.get _ _ _); [simpl in HL; lia|discriminate].
  - right.
    apply andb_true_iff in H. destruct H as [H Hs1].
    apply andb_true_iff in H. destruct H as [H Hs0].
    apply andb_true_iff in H. destruct H as [_ Hs2].
    apply Nat.eqb_eq in Hs2. apply Ascii.eqb_eq in Hs0, Hs1.
    unfold detail.get in Hs0, Hs1. rewrite rd_sub in Hs0, Hs1.
    unfold detail.length in Hs0, Hs1.
    change (detail.id_username + 1) with 2 in *.
    change detail.id_username with 1 in *.
    fold (off v 2) (off v 1) in *.
    destruct (Nat.ltb_spec 0 (off v 2 - off v 1)); [|lia].
    destruct (Nat.ltb_spec 1 (off v 2 - off v 1)); [|lia].
    rewrite Nat.add_0_r in Hs0. repeat split; try assumption. lia.
Qed.

Ltac ids :=
  unfold detail.id_scheme, detail.id_username, detail.id_password,
    detail.id_hostname, detail.id_port, detail.id_path, detail.id_query,
    detail.id_frag, detail.id_end in *;
  change (0 + 1) with 1 in *; change (1 + 1) with 2 in *;
  change (2 + 1) with 3 in *; change (3 + 1) with 4 in *;
  change (4 + 1) with 5 in *; change (5 + 1) with 6 in *;
  change (6 + 1) with 7 in *; change (7 + 1) with 8 in *.

(** Run the straight-line tail of a setter after its resize. *)
Ltac run_tail_in H :=
  unfold ignore, poke, store in H;
  unfold bind, modify_s, modify_pt, ret in H;
  cbn [fst snd pt_ s_] in H.

(** Name the final state of a call and compute it from the equation of
    its resize. *)
Ltac finish_run Run :=
  run_tail_in Run; inversion Run; subst; clear Run; cbn [pt_ s_ fst snd].

Lemma install_password_spec (p : bytes) (v : basic_value) :
  wf v -> fits v (List.length p + 4) = true ->
  eval (install_password p) v = Ok tt /\
  detail.get (pt_ (exec (install_password p) v)) detail.id_password
    (s_ (exec (install_password p) v)) = chr ":" :: p ++ [chr "@"] /\
  (no_user v = true ->
   has_authority (exec (install_password p) v) = true /\
   detail.get (pt_ (exec (install_password p) v)) detail.id_username
     (s_ (exec (install_password p) v)) = str "//").
Proof.
  intros Hwf Hfit.
  unfold exec, eval.
  destruct (install_password p v) as [vf r] eqn:Run. cbn [fst snd].
  unfold install_password in Run.
  unfold bind at 1 in Run. unfold get_pt at 1 in Run.
  unfold detail.length in Run. ids. fold (off v 2) (off v 1) in Run.
  mono_facts Hwf 1 2. mono_facts Hwf 2 3.
  destruct (Nat.eqb_spec (off v 2 - off v 1) 0) as [E|E].
  - (* no user region: the range resize writes the slashes *)
    destruct (resize_range_spec v 1 3 (2 + 1 + List.length p + 1) Hwf
                ltac:(lia) ltac:(lia)) as (v1 & E1 & R).
    { apply (fits_mono v _ (List.length p + 4)); [lia|assumption]. }
    cbn [negb] in Run. rewrite (bind_ok _ _ _ _ _ E1) in Run.
    finish_run Run.
    pose proof (rs_wf R) as Hwf1.
    pose proof (wf_len Hwf1) as Hlen1.
    pose proof (rs_before R 1 ltac:(lia)) as B1.
    pose proof (rs_inside R 2 ltac:(lia) ltac:(lia)) as I2.
    pose proof (rs_inside R 3 ltac:(lia) ltac:(lia)) as I3.
    pose proof (wf_bound v1 3 Hwf1 ltac:(lia)) as Hb3.
    mono_facts Hwf1 3 5.
    split; [reflexivity|].
    unfold has_authority, detail.length_range, detail.get, detail.length.
    cbn [pt_ s_]. ids. rewrite !off_split, Hlen1.
    cbn [Nat.eqb Nat.ltb Nat.leb andb Nat.add].
    fold (off v1 1) (off v1 2) (off v1 3) (off v1 5).
    split; [|intros _; split].
    + replace (off v1 3 - (off v1 1 + 2))
        with (List.length (chr ":" :: p ++ [chr "@"]))
        by (cbn [List.length]; rewrite length_app; simpl; lia).
      apply sub_is;
        [rewrite !length_write; cbn [List.length]; rewrite length_app;
         simpl; lia|].
      intros k Hk. cbn [List.length] in Hk. rewrite length_app in Hk.
      simpl in Hk. rd_solve.
    + apply negb_true_iff, Nat.eqb_neq. lia.
    + replace (off v1 1 + 2 - off v1 1) with (List.length (str "//"))
        by (simpl; lia).
      apply sub_is; [rewrite !length_write; simpl; lia|].
      intros k Hk. simpl in Hk. rd_solve.
      all: destruct k as [|[|k]]; try reflexivity; simpl in *; lia.
  - (* a user region exists: only the password region is resized *)
    destruct (resize_spec v 2 (1 + List.length p + 1) Hwf ltac:(lia))
      as (v1 & E1 & R).
    { apply (fits_mono v _ (List.length p + 4)); [lia|assumption]. }
    cbn [negb] in Run. rewrite (bind_ok _ _ _ _ _ E1) in Run.
    finish_run Run.
    pose proof (rs_wf R) as Hwf1.
    pose proof (rs_before R 1 ltac:(lia)) as B1.
    pose proof (rs_before R 2 ltac:(lia)) as B2.
    pose proof (rs_inside R 3 ltac:(lia) ltac:(lia)) as I3.
    pose proof (wf_bound v1 3 Hwf1 ltac:(lia)) as Hb3.
    mono_facts Hwf1 3 5.
    split; [reflexivity|].
    unfold has_authority, detail.length_range, detail.get, detail.length.
    cbn [pt_ s_]. ids.
    fold (off v1 1) (off v1 2) (off v1 3) (off v1 5).
    split; [|intros Hnu; split].
    + replace (off v1 3 - off v1 2)
        with (List.length (chr ":" :: p ++ [chr "@"]))
        by (cbn [List.length]; rewrite length_app; simpl; lia).
      apply sub_is;
        [rewrite !length_write; cbn [List.length]; rewrite length_app;
         simpl; lia|].
      intros k Hk. cbn [List.length] in Hk. rewrite length_app in Hk.
      simpl in Hk. rd_solve.
    + apply negb_true_iff, Nat.eqb_neq. lia.
    + destruct (no_user_cases v Hwf Hnu) as [Z|(Z & S0 & S1)]; [lia|].
      replace (off v1 2 - off v1 1) with (List.length (str "//"))
        by (simpl; lia).
      apply sub_is; [rewrite !length_write; simpl; lia|].
      intros k Hk. simpl in Hk.
      assert (Hp : rd (s_ v1) (off v1 1 + k) = rd (s_ v) (off v 1 + k)).
      { rewrite B1. apply (rs_prefix R). lia. }
      rd_solve.
      all: rewrite Hp; destruct k as [|[|k]]; simpl in *;
        rewrite ?Nat.add_0_r; try assumption; lia.
Qed.

(** C7.  On a container without a user, setting a non-empty password
    succeeds; afterwards the authority is present, the user region holds
    exactly the two slashes (the user is empty) and the password region is
    a colon, the encoded password and an at-sign.  The same holds for
    [set_encoded_password] with a valid argument that does not start with
    a colon, whose bytes are stored as they are. *)
Theorem set_password_without_user (s : bytes) (v : basic_value) :
  invariant v = true ->
  no_user v = true ->
  s <> [] ->
  fits v (3 * List.length s + 4) = true ->
  (eval (set_password s) v = Ok tt /\
   has_authority (exec (set_password s) v) = true /\
   detail.get (pt_ (exec (set_password s) v)) detail.id_username
     (s_ (exec (set_password s) v)) = str "//" /\
   encoded_username (exec (set_password s) v) = [] /\
   detail.get (pt_ (exec (set_password s) v)) detail.id_password
     (s_ (exec (set_password s) v)) =
   chr ":" :: pct.encode pct.userinfo_pct_set s ++ [chr "@"]) /\
  (pct.validate pct.userinfo_pct_set s = Ok tt ->
   Ascii.eqb (nth 0 s NUL) (chr ":") = false ->
   eval (set_encoded_password s) v = Ok tt /\
   has_authority (exec (set_encoded_password s) v) = true /\
   detail.get (pt_ (exec (set_encoded_password s) v)) detail.id_username
     (s_ (exec (set_encoded_password s) v)) = str "//" /\
   encoded_username (exec (set_encoded_password s) v) = [] /\
   detail.get (pt_ (exec (set_encoded_password s) v)) detail.id_password
     (s_ (exec (set_encoded_password s) v)) = chr ":" :: s ++ [chr "@"]).
Proof.
  intros Hinv Hnu Hs Hfit. apply invariant_wf in Hinv.
  split.
  - rewrite (set_password_install s Hs).
    destruct (install_password_spec
                (pct.encode pct.userinfo_pct_set s) v Hinv)
      as (H1 & H2 & H3).
    { apply (fits_mono v _ (3 * List.length s + 4)); [|assumption].
      rewrite length_encode.
      pose proof (encoded_size_bound pct.userinfo_pct_set s). lia. }
    destruct (H3 Hnu) as (H4 & H5).
    repeat split; try assumption.
    unfold encoded_username. rewrite H5. reflexivity.
  - intros Hv Hc. unfold exec, eval.
    rewrite (set_encoded_password_install s v Hs Hc Hv).
    destruct (install_password_spec s v Hinv) as (H1 & H2 & H3).
    { apply (fits_mono v _ (3 * List.length s + 4)); [lia|assumption]. }
    destruct (H3 Hnu) as (H4 & H5).
    repeat split; try assumption.
    unfold encoded_username. unfold exec in H5. rewrite H5. reflexivity.
Qed.

(** ** Removing the user *)

Lemma fits_zero (v : basic_value) : fits v 0 = true.
Proof. unfold fits. apply N.leb_le. simpl. lia. Qed.

Lemma sub_zero (b : bytes) (o : nat) : sub b o 0 = [].
Proof. reflexivity. Qed.

(** The whole URL after bytes were cut between [first] and [last]. *)
Lemma resized_url (v v' : basic_value) (first last n : nat) :
  wf v -> first < last -> last <= 8 ->
  resized first last n v v' ->
  n <= off v last - off v first ->
  encoded_url v' =
  sub (s_ v) 0 (off v first + n) ++
  sub (s_ v) (off v last) (off v 8 - off v last).
Proof.
  intros Hwf Hfl Hl R Hn.
  unfold encoded_url, detail.get_range, detail.length_range. ids.
  fold (off v' 8) (off v' 0).
  pose proof (rs_wf R) as Hwf1.
  pose proof (wf_zero Hwf1) as Z1. rewrite Z1, Nat.sub_0_r.
  pose proof (wf_bound v' 8 Hwf1 ltac:(lia)) as Hb1.
  pose proof (wf_bound v 8 Hwf ltac:(lia)) as Hb.
  mono_facts Hwf first last. mono_facts Hwf last 8.
  assert (A8 : off v' 8 + (off v last - off v first) = off v 8 + n).
  { destruct (Nat.eq_dec last 8) as [->|Hne].
    - rewrite (rs_inside R 8) by lia. lia.
    - apply (rs_after R); lia. }
  apply bytes_ext.
  - rewrite length_app, !length_sub. lia.
  - intros k Hk. rewrite length_sub in Hk.
    rewrite rd_app, !rd_sub, length_sub.
    split_bools; try lia.
    + cbn [Nat.add]. apply (rs_prefix R). lia.
    + cbn [Nat.add]. rewrite (rs_suffix R) by lia. f_equal. lia.
Qed.

(** C6.  Removing the user of a container that has one (a user region of
    at least the two slashes) succeeds and leaves the two slashes as the
    user region.  When the password region is more than the at-sign, it is
    kept whole, so the userinfo stays with its colon and at-sign; when the
    password region is just the at-sign, it is dropped with the user. *)
Theorem remove_user_spec (v : basic_value) :
  invariant v = true ->
  2 <= detail.length (pt_ v) detail.id_username ->
  eval remove_user v = Ok tt /\
  detail.get (pt_ (exec remove_user v)) detail.id_username
    (s_ (exec remove_user v)) = sub (s_ v) (off v detail.id_username) 2 /\
  (detail.length (pt_ v) detail.id_password <> 1 ->
   detail.get (pt_ (exec remove_user v)) detail.id_password
     (s_ (exec remove_user v)) =
   detail.get (pt_ v) detail.id_password (s_ v) /\
   encoded_url (exec remove_user v) =
   sub (s_ v) 0 (off v detail.id_username + 2) ++
   sub (s_ v) (off v detail.id_password)
     (off v detail.id_end - off v detail.id_password)) /\
  (detail.length (pt_ v) detail.id_password = 1 ->
   detail.get (pt_ (exec remove_user v)) detail.id_password
     (s_ (exec remove_user v)) = [] /\
   encoded_url (exec remove_user v) =
   sub (s_ v) 0 (off v detail.id_username + 2) ++
   sub (s_ v) (off v detail.id_hostname)
     (off v detail.id_end - off v detail.id_hostname)).
Proof.
  intros Hinv Hu. apply invariant_wf in Hinv. rename Hinv into Hwf.
  unfold exec, eval, remove_user.
  destruct (set_username [] v) as [vf r] eqn:Run. cbn [fst snd].
  unfold set_username in Run. cbn [empty] in Run.
  unfold bind at 1 in Run. unfold get_pt at 1 in Run.
  unfold detail.length in *. ids.
  fold (off v 1) (off v 2) (off v 3) in *.
  mono_facts Hwf 1 2. mono_facts Hwf 2 3.
  destruct (Nat.eqb_spec (off v 2 - off v 1) 0) as [E|_]; [lia|].
  destruct (Nat.eqb_spec (off v 3 - off v 2) 1) as [E1|E1].
  - (* the password region is the at-sign: remove it too *)
    destruct (resize_range_spec v 1 3 2 Hwf ltac:(lia) ltac:(lia))
      as (v1 & Ev & R).
    { replace (2 - (off v 3 - off v 1)) with 0 by lia. apply fits_zero. }
    unfold ignore in Run. rewrite (bind_ok _ _ _ _ _ Ev) in Run.
    unfold ret in Run. inversion Run; subst vf r; clear Run.
    pose proof (rs_wf R) as Hwf1.
    pose proof (rs_before R 1 ltac:(lia)) as B1.
    pose proof (rs_inside R 2 ltac:(lia) ltac:(lia)) as I2.
    pose proof (rs_inside R 3 ltac:(lia) ltac:(lia)) as I3.
    pose proof (wf_bound v1 3 Hwf1 ltac:(lia)) as Hb3.
    pose proof (wf_bound v 2 Hwf ltac:(lia)) as Hb2.
    split; [reflexivity|].
    unfold detail.get, detail.length. ids.
    fold (off v1 1) (off v1 2) (off v1 3).
    split; [|split; [intros; lia|intros _; split]].
    + replace (off v1 2 - off v1 1) with 2 by lia. rewrite B1.
      apply sub_ext; try lia.
      intros k Hk. apply (rs_prefix R). lia.
    + replace (off v1 3 - off v1 2) with 0 by lia. reflexivity.
    + apply (resized_url v v1 1 3 2 Hwf); auto; lia.
  - (* a password remains: only the user shrinks to the slashes *)
    destruct (resize_spec v 1 2 Hwf ltac:(lia)) as (v1 & Ev & R).
    { ids. replace (2 - (off v 2 - off v 1)) with 0 by lia. apply fits_zero. }
    ids.
    unfold ignore in Run. rewrite (bind_ok _ _ _ _ _ Ev) in Run.
    unfold ret in Run. inversion Run; subst vf r; clear Run.
    pose proof (rs_wf R) as Hwf1.
    pose proof (rs_before R 1 ltac:(lia)) as B1.
    pose proof (rs_inside R 2 ltac:(lia) ltac:(lia)) as I2.
    pose proof (wf_bound v1 2 Hwf1 ltac:(lia)) as Hb3.
    pose proof (wf_bound v 2 Hwf ltac:(lia)) as Hb2.
    split; [reflexivity|].
    split; [|split; [intros _; split|intros; lia]].
    + unfold detail.get, detail.length. ids. fold (off v1 1) (off v1 2).
      replace (off v1 2 - off v1 1) with 2 by lia. rewrite B1.
      apply sub_ext; try lia.
      intros k Hk. apply (rs_prefix R). lia.
    + apply (resized_region_after v v1 1 2 2 2); auto; lia.
    + apply (resized_url v v1 1 2 2 Hwf); auto; lia.
Qed.

Lemma remove_user_spec_witness :
  encoded_url (exec remove_user url_http_u_p_h) = str "http://:p@h/" /\
  encoded_url (exec remove_user url_http_u_h) = str "http://h/".
Proof.
  split.
  - destruct (remove_user_spec url_http_u_p_h) as (_ & _ & H & _).
    + reflexivity.
    + vm_compute. lia.
    + destruct H as [_ H]; [vm_compute; lia|]. rewrite H. reflexivity.
  - destruct (remove_user_spec url_http_u_h) as (_ & _ & _ & H).
    + reflexivity.
    + vm_compute. lia.
    + destruct H as [_ H]; [reflexivity|]. rewrite H. reflexivity.
Defined.

(** ** Port strings *)

Lemma off_set_port (p : option N) (pt : detail.parts) (k : nat) :
  detail.off (detail.set_port p pt) k = detail.off pt k.
Proof. reflexivity. Qed.

Lemma off_set_host (h : detail.host_type) (pt : detail.parts) (k : nat) :
  detail.off (detail.set_host h pt) k = detail.off pt k.
Proof. reflexivity. Qed.

Lemma set_port_some_spec (n : N) (v : basic_value) :
  wf v ->
  fits v (3 + List.length (grammar.port_string n)) = true ->
  eval (set_port (Some n)) v = Ok tt /\
  detail.get (pt_ (exec (set_port (Some n)) v)) detail.id_port
    (s_ (exec (set_port (Some n)) v)) = chr ":" :: grammar.port_string n /\
  port_number (exec (set_port (Some n)) v) = Some n.
Proof.
  intros Hwf Hfit. unfold exec, eval.
  destruct (set_port (Some n) v) as [vf r] eqn:Run. cbn [fst snd].
  unfold set_port in Run.
  set (p := grammar.port_string n) in *.
  unfold bind at 1 in Run. unfold bind at 1 in Run.
  unfold get_pt at 1 in Run.
  unfold detail.length_range in Run. ids. fold (off v 5) (off v 1) in Run.
  mono_facts Hwf 1 2. mono_facts Hwf 2 3. mono_facts Hwf 3 4.
  mono_facts Hwf 4 5.
  destruct (Nat.eqb_spec (off v 5 - off v 1) 0) as [E|E].
  - (* add authority *)
    destruct (resize_spec v 1 (3 + List.length p) Hwf ltac:(lia))
      as (v1 & E1 & R).
    { ids. apply (fits_mono v _ (3 + List.length p)); [lia|assumption]. }
    ids. rewrite (bind_ok _ _ _ _ _ E1) in Run.
    finish_run Run.
    pose proof (rs_wf R) as Hwf1.
    pose proof (wf_len Hwf1) as Hlen1.
    pose proof (rs_before R 1 ltac:(lia)) as B1.
    pose proof (rs_inside R 2 ltac:(lia) ltac:(lia)) as I2.
    pose proof (rs_after R 5 ltac:(lia) ltac:(lia)) as A5.
    pose proof (wf_bound v1 5 Hwf1 ltac:(lia)) as Hb5.
    split; [reflexivity|]. split; [|reflexivity].
    unfold detail.get, detail.length. cbn [pt_ s_].
    rewrite !off_set_port.
    ids. rewrite !off_split, !length_split, Hlen1.
    cbn [Nat.eqb Nat.ltb Nat.leb andb Nat.add].
    fold (off v1 1) (off v1 5).
    replace (off v1 5 - (off v1 1 + 2 + 0 + 0))
      with (List.length (chr ":" :: p)) by (cbn [List.length]; lia).
    apply sub_is; [rewrite !length_write; cbn [List.length]; lia|].
    intros k Hk. cbn [List.length] in Hk. rd_solve.
  - (* the authority exists: only the port region is resized *)
    destruct (resize_spec v 4 (1 + List.length p) Hwf ltac:(lia))
      as (v1 & E1 & R).
    { ids. apply (fits_mono v _ (3 + List.length p)); [lia|assumption]. }
    ids. rewrite (bind_ok _ _ _ _ _ E1) in Run.
    finish_run Run.
    pose proof (rs_wf R) as Hwf1.
    pose proof (rs_before R 4 ltac:(lia)) as B4.
    pose proof (rs_inside R 5 ltac:(lia) ltac:(lia)) as I5.
    pose proof (wf_bound v1 5 Hwf1 ltac:(lia)) as Hb5.
    split; [reflexivity|]. split; [|reflexivity].
    unfold detail.get, detail.length. cbn [pt_ s_].
    rewrite !off_set_port.
    ids. fold (off v1 5) (off v1 4).
    replace (off v1 5 - off v1 4)
      with (List.length (chr ":" :: p)) by (cbn [List.length]; lia).
    apply sub_is; [rewrite !length_write; cbn [List.length]; lia|].
    intros k Hk. cbn [List.length] in Hk. rd_solve.
Qed.

Lemma set_port_none_spec (v : basic_value) :
  wf v ->
  eval (set_port None) v = Ok tt /\
  detail.get (pt_ (exec (set_port None) v)) detail.id_port
    (s_ (exec (set_port None) v)) = [] /\
  port_number (exec (set_port None) v) = None.
Proof.
  intros Hwf. unfold exec, eval.
  destruct (set_port None v) as [vf r] eqn:Run. cbn [fst snd].
  unfold set_port in Run.
  destruct (resize_spec v 4 0 Hwf ltac:(lia)) as (v1 & E1 & R);
    [apply fits_zero|].
  ids. rewrite (bind_ok _ _ _ _ _ E1) in Run.
  unfold modify_pt in Run. inversion Run; subst vf r; clear Run.
  pose proof (rs_before R 4 ltac:(lia)) as B4.
  pose proof (rs_inside R 5 ltac:(lia) ltac:(lia)) as I5.
  split; [reflexivity|]. split; [|reflexivity].
  unfold detail.get, detail.length. cbn [pt_ s_].
  rewrite !off_set_port.
  ids. fold (off v1 5) (off v1 4).
  replace (off v1 5 - off v1 4) with 0 by lia. reflexivity.
Qed.

(** C1 (as stated, refuted).  On [http://h/], [set_port_string("0080")]
    does not produce [http://h:0080/], and a port string that overflows 16
    bits is not kept as the port string. *)
Lemma set_port_string_not_verbatim :
  encoded_url (exec (set_port_string (str "0080")) url_http_h) <>
    str "http://h:0080/" /\
  port_string (exec (set_port_string (str "65536")) url_http_h) <>
    str "65536".
Proof. split; vm_compute; discriminate. Qed.

(** C1 (amended).  On [http://h/], [set_port_string("0080")] yields
    [http://h:80/] with port number 80.  In general a non-empty digit
    string is accepted; when its value is at most 65535 the port region
    holds a colon and the decimal text of that value, [port_string()]
    returns that text and the value is the port number; when the value
    overflows, the port component is removed and the port number is
    absent. *)
Theorem set_port_string_canonical :
  (encoded_url (exec (set_port_string (str "0080")) url_http_h) =
     str "http://h:80/" /\
   port_number (exec (set_port_string (str "0080")) url_http_h) = Some 80%N) /\
  forall (s : bytes) (v : basic_value),
    invariant v = true ->
    s <> [] ->
    forallb chars.is_digit s = true ->
    fits v (3 + List.length (grammar.port_string (grammar.digits_value s)))
      = true ->
    eval (set_port_string s) v = Ok tt /\
    ((grammar.digits_value s <= 65535)%N ->
     detail.get (pt_ (exec (set_port_string s) v)) detail.id_port
       (s_ (exec (set_port_string s) v)) =
       chr ":" :: grammar.port_string (grammar.digits_value s) /\
     port_string (exec (set_port_string s) v) =
       grammar.port_string (grammar.digits_value s) /\
     port_number (exec (set_port_string s) v) =
       Some (grammar.digits_value s)) /\
    ((65535 < grammar.digits_value s)%N ->
     detail.get (pt_ (exec (set_port_string s) v)) detail.id_port
       (s_ (exec (set_port_string s) v)) = [] /\
     port_string (exec (set_port_string s) v) = [] /\
     port_number (exec (set_port_string s) v) = None).
Proof.
  split; [split; reflexivity|].
  intros s v Hinv Hs Hd Hfit. apply invariant_wf in Hinv.
  unfold exec, eval. rewrite (set_port_string_run s v Hs Hd).
  destruct (N.leb_spec (grammar.digits_value s) 65535) as [L|L].
  - destruct (set_port_some_spec (grammar.digits_value s) v Hinv Hfit)
      as (H1 & H2 & H3).
    split; [exact H1|]. split; [|intros; lia].
    intros _. unfold exec in H2. split; [exact H2|]. split; [|exact H3].
    unfold port_string. rewrite H2. reflexivity.
  - destruct (set_port_none_spec v Hinv) as (H1 & H2 & H3).
    split; [exact H1|]. split; [intros; lia|].
    intros _. unfold port_string. unfold exec in H2. rewrite H2.
    repeat split. exact H3.
Qed.

Lemma set_port_string_canonical_witness :
  (eval (set_port_string (str "0443")) url_http_u_p_h = Ok tt /\
   detail.get (pt_ (exec (set_port_string (str "0443")) url_http_u_p_h))
     detail.id_port (s_ (exec (set_port_string (str "0443")) url_http_u_p_h)) =
     str ":443" /\
   port_number (exec (set_port_string (str "0443")) url_http_u_p_h) =
     Some 443%N) /\
  (eval (set_port_string (str "65536")) url_http_h = Ok tt /\
   port_string (exec (set_port_string (str "65536")) url_http_h) = [] /\
   port_number (exec (set_port_string (str "65536")) url_http_h) = None).
Proof.
  split.
  - destruct (proj2 set_port_string_canonical (str "0443") url_http_u_p_h)
      as (H1 & H2 & _).
    + reflexivity.
    + discriminate.
    + reflexivity.
    + reflexivity.
    + split; [exact H1|]. destruct H2 as (H2 & _ & H3);
        [apply N.leb_le; reflexivity|].
      split; [exact H2|exact H3].
  - destruct (proj2 set_port_string_canonical (str "65536") url_http_h)
      as (H1 & _ & H2).
    + reflexivity.
    + discriminate.
    + reflexivity.
    + reflexivity.
    + split; [exact H1|]. destruct H2 as (_ & H2 & H3); [reflexivity|].
      split; assumption.
Defined.

(** ** Plain setters and readers *)

Lemma hex_value_hex_digit (k : nat) :
  k < 16 -> pct.hex_value (pct.hex_digit k) = Some k.
Proof.
  intros H.
  do 16 (destruct k as [|k]; [reflexivity|]). lia.
Qed.

Lemma nat_of_ascii_bound (c : ascii) : nat_of_ascii c < 256.
Proof. apply nat_ascii_bounded. Qed.

Lemma decode_triplet (c : ascii) (r : bytes) :
  pct.decode (pct.triplet c ++ r) = c :: pct.decode r.
Proof.
  unfold pct.triplet. cbn [app pct.decode].
  change (Ascii.eqb pct.percent pct.percent) with true. cbv iota.
  pose proof (nat_of_ascii_bound c) as Hb.
  rewrite !hex_value_hex_digit.
  - f_equal. rewrite <- Nat.div_mod_eq. apply ascii_nat_embedding.
  - apply Nat.mod_upper_bound. lia.
  - apply Nat.Div0.div_lt_upper_bound. lia.
Qed.

(** Spec 8.1: decoding an encoding gives the raw bytes back, for every set
    that leaves the percent sign to be escaped. *)
Lemma decode_encode (e : pct.pct_set) (s : bytes) :
  pct.mask e pct.percent = false ->
  pct.decode (pct.encode e s) = s.
Proof.
  intros Hm. induction s as [|c r IH]; [reflexivity|].
  cbn [pct.encode]. destruct (pct.mask e c) eqn:Ec.
  - cbn [app pct.decode].
    destruct (Ascii.eqb_spec c pct.percent) as [->|_]; [congruence|].
    now rewrite IH.
  - rewrite decode_triplet. now rewrite IH.
Qed.

Lemma empty_false (l : bytes) : 0 < List.length l -> empty l = false.
Proof. destruct l; simpl; [lia|reflexivity]. Qed.

Lemma skipn_sub (b : bytes) (o len a : nat) :
  skipn a (sub b o len) = sub b (o + a) (len - a).
Proof.
  unfold sub. rewrite skipn_firstn_comm, skipn_skipn.
  now rewrite (Nat.add_comm a o).
Qed.

(** The region of a freshly resized component, once stores have filled it
    with [W]. *)
Lemma region_filled (v v1 : basic_value) (id n : nat) (W s' : bytes) :
  wf v -> id < 8 ->
  resized id (id + 1) n v v1 ->
  List.length W = n ->
  List.length s' = List.length (s_ v1) ->
  (forall k, k < n -> rd s' (off v id + k) = rd W k) ->
  sub s' (off v1 id) (off v1 (id + 1) - off v1 id) = W.
Proof.
  intros Hwf Hid R HW HL Hrd.
  pose proof (rs_before R id ltac:(lia)) as B.
  pose proof (rs_inside R (id + 1) ltac:(lia) ltac:(lia)) as I.
  pose proof (wf_bound v1 (id + 1) (rs_wf R) ltac:(lia)) as Hb.
  replace (off v1 (id + 1) - off v1 id) with (List.length W) by lia.
  rewrite B. apply sub_is; [lia|].
  intros k Hk. apply Hrd. lia.
Qed.

Lemma firstn_removelast (x : bytes) (a : ascii) :
  remove_suffix 1 (x ++ [a]) = x.
Proof.
  unfold remove_suffix. rewrite length_app. cbn [List.length].
  replace (List.length x + 1 - 1) with (List.length x) by lia.
  rewrite firstn_app, Nat.sub_diag, firstn_all. cbn [firstn].
  apply app_nil_r.
Qed.

(** Prove that a view of the buffer is a given list, byte by byte. *)
Ltac sub_exact :=
  match goal with
  | |- sub ?b ?o ?len = ?l =>
      replace len with (List.length l)
        by (cbn [List.length]; rewrite ?length_app; cbn [List.length]; lia);
      apply sub_is;
      [ rewrite ?length_write; cbn [List.length]; rewrite ?length_app;
        cbn [List.length]; lia
      | let k := fresh "k" in
        let Hk := fresh "Hk" in
        intros k Hk; cbn [List.length] in Hk; rewrite ?length_app in Hk;
        cbn [List.length] in Hk ]
  end.

(** *** user *)

Lemma set_username_reads_back (s : bytes) (v : basic_value) :
  wf v -> fits v (3 * List.length s + 3) = true ->
  eval (set_username s) v = Ok tt /\
  encoded_username (exec (set_username s) v) =
  pct.encode pct.userinfo_nc_pct_set s.
Proof.
  intros Hwf Hfit. unfold exec, eval.
  destruct (set_username s v) as [vf r] eqn:Run. cbn [fst snd].
  unfold set_username in Run.
  mono_facts Hwf 1 2. mono_facts Hwf 2 3.
  destruct s as [|c s0].
  - (* removal *)
    cbn [empty pct.encode] in *.
    unfold bind at 1 in Run. unfold get_pt at 1 in Run.
    unfold detail.length in Run. ids.
    fold (off v 1) (off v 2) (off v 3) in Run.
    unfold encoded_username, detail.get, detail.length. ids.
    destruct (Nat.eqb_spec (off v 2 - off v 1) 0) as [E|E].
    + unfold ret in Run. inversion Run; subst vf r; clear Run.
      split; [reflexivity|]. fold (off v 1) (off v 2). rewrite E. reflexivity.
    + destruct (Nat.eqb_spec (off v 3 - off v 2) 1) as [E1|E1].
      * destruct (resize_range_spec v 1 3 2 Hwf ltac:(lia) ltac:(lia))
          as (v1 & Ev & R).
        { replace (2 - (off v 3 - off v 1)) with 0 by lia. apply fits_zero. }
        unfold ignore in Run. rewrite (bind_ok _ _ _ _ _ Ev) in Run.
        unfold ret in Run. inversion Run; subst vf r; clear Run.
        split; [reflexivity|].
        fold (off v1 1) (off v1 2).
        pose proof (rs_before R 1 ltac:(lia)).
        pose proof (rs_inside R 2 ltac:(lia) ltac:(lia)).
        pose proof (wf_bound v1 2 (rs_wf R) ltac:(lia)).
        rewrite empty_false by (rewrite length_sub; lia). cbn [negb].
        unfold remove_prefix. rewrite skipn_sub.
        replace (off v1 2 - off v1 1 - 2) with 0 by lia. reflexivity.
      * destruct (resize_spec v 1 2 Hwf ltac:(lia)) as (v1 & Ev & R).
        { ids. apply (fits_mono v _ (3 * 0 + 3)); [lia|assumption]. }
        ids. unfold ignore in Run. rewrite (bind_ok _ _ _ _ _ Ev) in Run.
        unfold ret in Run. inversion Run; subst vf r; clear Run.
        split; [reflexivity|].
        fold (off v1 1) (off v1 2).
        pose proof (rs_before R 1 ltac:(lia)).
        pose proof (rs_inside R 2 ltac:(lia) ltac:(lia)).
        pose proof (wf_bound v1 2 (rs_wf R) ltac:(lia)).
        rewrite empty_false by (rewrite length_sub; lia). cbn [negb].
        unfold remove_prefix. rewrite skipn_sub.
        replace (off v1 2 - off v1 1 - 2) with 0 by lia. reflexivity.
  - (* a user is written *)
    set (s := c :: s0) in *.
    set (enc := pct.encode pct.userinfo_nc_pct_set s) in *.
    assert (Hn : pct.encoded_size pct.userinfo_nc_pct_set s = List.length enc)
      by (symmetry; apply length_encode).
    pose proof (encoded_size_bound pct.userinfo_nc_pct_set s) as Hsz.
    change (empty s) with false in Run. cbv iota in Run.
    cbn zeta in Run. rewrite Hn in *.
    unfold bind at 1 in Run. unfold get_pt at 1 in Run.
    unfold detail.length in Run. ids. fold (off v 2) (off v 3) in Run.
    unfold encoded_username, detail.get, detail.length. ids.
    destruct (Nat.eqb_spec (off v 3 - off v 2) 0) as [E|E]; cbn [negb] in Run.
    + (* no password: slashes and at-sign are written *)
      destruct (resize_spec v 1 (2 + List.length enc + 1) Hwf ltac:(lia))
        as (v1 & Ev & R).
      { ids. apply (fits_mono v _ (3 * List.length s + 3)); [lia|assumption]. }
      ids. rewrite (bind_ok _ _ _ _ _ Ev) in Run. finish_run Run.
      split; [reflexivity|].
      pose proof (rs_wf R) as Hwf1. pose proof (wf_len Hwf1) as Hlen1.
      pose proof (rs_before R 1 ltac:(lia)) as B1.
      pose proof (rs_inside R 2 ltac:(lia) ltac:(lia)) as I2.
      pose proof (wf_bound v1 2 Hwf1 ltac:(lia)) as Hb.
      rewrite !off_split, Hlen1.
      cbn [Nat.eqb Nat.ltb Nat.leb andb Nat.add].
      fold (off v1 1).
      rewrite empty_false by (rewrite length_sub, !length_write; lia).
      cbn [negb]. unfold remove_prefix. rewrite skipn_sub.
      sub_exact. rd_solve.
    + (* a password exists: the slashes are already there *)
      destruct (resize_spec v 1 (2 + List.length enc) Hwf ltac:(lia))
        as (v1 & Ev & R).
      { ids. apply (fits_mono v _ (3 * List.length s + 3)); [lia|assumption]. }
      ids. rewrite (bind_ok _ _ _ _ _ Ev) in Run. finish_run Run.
      split; [reflexivity|].
      pose proof (rs_wf R) as Hwf1.
      pose proof (rs_before R 1 ltac:(lia)) as B1.
      pose proof (rs_inside R 2 ltac:(lia) ltac:(lia)) as I2.
      pose proof (wf_bound v1 2 Hwf1 ltac:(lia)) as Hb.
      fold (off v1 1) (off v1 2).
      rewrite empty_false by (rewrite length_sub, !length_write; lia).
      cbn [negb]. unfold remove_prefix. rewrite skipn_sub.
      sub_exact. rd_solve.
Qed.

(** *** password *)

Lemma encoded_password_of_region (v : basic_value) (p : bytes) :
  p <> [] ->
  detail.get (pt_ v) detail.id_password (s_ v) = chr ":" :: p ++ [chr "@"] ->
  encoded_password v = p.
Proof.
  intros Hp Hr. unfold encoded_password. rewrite Hr.
  destruct p as [|c r]; [contradiction|].
  cbn [List.length app]. cbv zeta.
  change (chr ":" :: c :: r ++ [chr "@"])
    with ((chr ":" :: c :: r) ++ [chr "@"]).
  rewrite firstn_removelast. reflexivity.
Qed.

Lemma encoded_password_short (v : basic_value) :
  detail.length (pt_ v) detail.id_password <= 1 ->
  encoded_password v = [].
Proof.
  intros H. unfold encoded_password.
  assert (HL : List.length (detail.get (pt_ v) detail.id_password (s_ v)) <= 1).
  { unfold detail.get. rewrite length_sub. lia. }
  destruct (List.length _) as [|[|n]]; [reflexivity|reflexivity|lia].
Qed.

Lemma set_password_reads_back (s : bytes) (v : basic_value) :
  wf v -> fits v (3 * List.length s + 4) = true ->
  eval (set_password s) v = Ok tt /\
  encoded_password (exec (set_password s) v) =
  pct.encode pct.userinfo_pct_set s.
Proof.
  intros Hwf Hfit.
  destruct s as [|c s0].
  - (* removal: at most the at-sign stays *)
    unfold exec, eval.
    destruct (set_password [] v) as [vf r] eqn:Run. cbn [fst snd].
    unfold set_password in Run. cbn [empty pct.encode] in *.
    unfold bind at 1 in Run. unfold get_pt at 1 in Run.
    unfold detail.length in Run. ids.
    fold (off v 1) (off v 2) (off v 3) in Run.
    mono_facts Hwf 1 2. mono_facts Hwf 2 3.
    destruct (Nat.eqb_spec (off v 3 - off v 2) 0) as [E|E].
    + unfold ret in Run. inversion Run; subst vf r; clear Run.
      split; [reflexivity|]. apply encoded_password_short.
      unfold detail.length. ids. fold (off v 3) (off v 2). lia.
    + destruct (Nat.eqb_spec (off v 2 - off v 1) 2) as [E1|E1].
      * destruct (resize_spec v 2 0 Hwf ltac:(lia)) as (v1 & Ev & R);
          [apply fits_zero|].
        ids. unfold ignore in Run. rewrite (bind_ok _ _ _ _ _ Ev) in Run.
        unfold ret in Run. inversion Run; subst vf r; clear Run.
        split; [reflexivity|]. apply encoded_password_short.
        unfold detail.length. ids. fold (off v1 3) (off v1 2).
        pose proof (rs_before R 2 ltac:(lia)).
        pose proof (rs_inside R 3 ltac:(lia) ltac:(lia)). lia.
      * destruct (resize_spec v 2 1 Hwf ltac:(lia)) as (v1 & Ev & R).
        { ids. replace (1 - (off v 3 - off v 2)) with 0 by lia.
          apply fits_zero. }
        ids. rewrite (bind_ok _ _ _ _ _ Ev) in Run. finish_run Run.
        split; [reflexivity|]. apply encoded_password_short.
        unfold detail.length. cbn [pt_]. ids. fold (off v1 3) (off v1 2).
        pose proof (rs_before R 2 ltac:(lia)).
        pose proof (rs_inside R 3 ltac:(lia) ltac:(lia)). lia.
  - set (s := c :: s0) in *.
    assert (Hs : s <> []) by discriminate.
    rewrite (set_password_install s Hs).
    destruct (install_password_spec (pct.encode pct.userinfo_pct_set s) v Hwf)
      as (H1 & H2 & _).
    { apply (fits_mono v _ (3 * List.length s + 4)); [|assumption].
      rewrite length_encode.
      pose proof (encoded_size_bound pct.userinfo_pct_set s). lia. }
    split; [exact H1|].
    apply encoded_password_of_region; [|exact H2].
    intros Z. pose proof (encoded_size_pos pct.userinfo_pct_set s Hs) as P.
    rewrite <- length_encode, Z in P. simpl in P. lia.
Qed.

(** *** query and fragment *)

Lemma set_fragment_reads_back (s : bytes) (v : basic_value) :
  wf v -> fits v (3 * List.length s + 1) = true ->
  eval (set_fragment s) v = Ok tt /\
  encoded_fragment (exec (set_fragment s) v) =
  pct.encode pct.frag_pct_set s.
Proof.
  intros Hwf Hfit. unfold exec, eval.
  destruct (set_fragment s v) as [vf r] eqn:Run. cbn [fst snd].
  unfold set_fragment in Run.
  mono_facts Hwf 7 8.
  unfold encoded_fragment, detail.get_range, detail.length_range.
  destruct s as [|c s0].
  - cbn [empty pct.encode] in *.
    destruct (resize_spec v 7 0 Hwf ltac:(lia)) as (v1 & Ev & R);
      [apply fits_zero|].
    ids. unfold ignore in Run. rewrite (bind_ok _ _ _ _ _ Ev) in Run.
    unfold ret in Run. inversion Run; subst vf r; clear Run.
    split; [reflexivity|]. fold (off v1 7) (off v1 8).
    pose proof (rs_before R 7 ltac:(lia)).
    pose proof (rs_inside R 8 ltac:(lia) ltac:(lia)).
    replace (off v1 8 - off v1 7) with 0 by lia. reflexivity.
  - set (s := c :: s0) in *.
    set (enc := pct.encode pct.frag_pct_set s) in *.
    assert (Hn : pct.encoded_size pct.frag_pct_set s = List.length enc)
      by (symmetry; apply length_encode).
    pose proof (encoded_size_bound pct.frag_pct_set s) as Hsz.
    change (empty s) with false in Run. cbv iota in Run.
    cbn zeta in Run. rewrite Hn in *.
    destruct (resize_spec v 7 (1 + List.length enc) Hwf ltac:(lia))
      as (v1 & Ev & R).
    { ids. apply (fits_mono v _ (3 * List.length s + 1)); [lia|assumption]. }
    ids. rewrite (bind_ok _ _ _ _ _ Ev) in Run. finish_run Run.
    split; [reflexivity|]. fold (off v1 7) (off v1 8).
    pose proof (rs_before R 7 ltac:(lia)) as B.
    pose proof (rs_inside R 8 ltac:(lia) ltac:(lia)) as I.
    pose proof (wf_bound v1 8 (rs_wf R) ltac:(lia)) as Hb.
    rewrite empty_false by (rewrite length_sub, !length_write; lia).
    unfold substr1. rewrite skipn_sub.
    sub_exact. rd_solve.
Qed.

Lemma set_query_stores (s : bytes) (v : basic_value) :
  wf v -> fits v (3 * List.length s + 1) = true -> s <> [] ->
  eval (set_query s) v = Ok tt /\
  encoded_query (exec (set_query s) v) =
  chr "?" :: pct.encode pct.query_pct_set (query_argument s).
Proof.
  intros Hwf Hfit Hs. unfold exec, eval.
  destruct (set_query s v) as [vf r] eqn:Run. cbn [fst snd].
  unfold set_query in Run.
  rewrite (empty_false s) in Run by (destruct s; [contradiction|simpl; lia]).
  cbn zeta in Run. fold (query_argument s) in Run.
  set (enc := pct.encode pct.query_pct_set (query_argument s)) in *.
  assert (Hn : pct.encoded_size pct.query_pct_set (query_argument s) =
               List.length enc) by (symmetry; apply length_encode).
  pose proof (encoded_size_bound pct.query_pct_set (query_argument s)) as Hsz.
  assert (Hq : List.length (query_argument s) <= List.length s).
  { unfold query_argument, substr1.
    destruct (Ascii.eqb _ _); [rewrite length_skipn|]; lia. }
  rewrite Hn in *.
  destruct (resize_spec v 6 (1 + List.length enc) Hwf ltac:(lia))
    as (v1 & Ev & R).
  { ids. apply (fits_mono v _ (3 * List.length s + 1)); [lia|assumption]. }
  ids. rewrite (bind_ok _ _ _ _ _ Ev) in Run. finish_run Run.
  split; [reflexivity|].
  unfold encoded_query, detail.get_range, detail.length_range.
  cbn [pt_ s_]. ids. fold (off v1 6) (off v1 7).
  pose proof (rs_before R 6 ltac:(lia)) as B.
  pose proof (rs_inside R 7 ltac:(lia) ltac:(lia)) as I.
  pose proof (wf_bound v1 7 (rs_wf R) ltac:(lia)) as Hb.
  sub_exact. rd_solve.
Qed.

Lemma set_query_empty (v : basic_value) :
  wf v ->
  eval (set_query []) v = Ok tt /\
  detail.get (pt_ (exec (set_query []) v)) detail.id_query
    (s_ (exec (set_query []) v)) = [].
Proof.
  intros Hwf. unfold exec, eval.
  destruct (set_query [] v) as [vf r] eqn:Run. cbn [fst snd].
  unfold set_query in Run. cbn [empty] in Run.
  destruct (resize_spec v 6 0 Hwf ltac:(lia)) as (v1 & Ev & R);
    [apply fits_zero|].
  ids. unfold ignore in Run. rewrite (bind_ok _ _ _ _ _ Ev) in Run.
  unfold ret in Run. inversion Run; subst vf r; clear Run.
  split; [reflexivity|].
  unfold detail.get, detail.length. ids. fold (off v1 6) (off v1 7).
  pose proof (rs_before R 6 ltac:(lia)).
  pose proof (rs_inside R 7 ltac:(lia) ltac:(lia)).
  replace (off v1 7 - off v1 6) with 0 by lia. reflexivity.
Qed.

(** *** host name *)

Section HostName.

Context {G : Grammar}.

Lemma set_hostname_reads_back (s : bytes) (v : basic_value) :
  wf v -> fits v (3 * List.length s) = true ->
  encoded_hostname (exec (set_hostname s) v) =
  pct.encode pct.reg_name_pct_set s.
Proof.
  intros Hwf Hfit. unfold exec.
  destruct (set_hostname s v) as [vf r] eqn:Run. cbn [fst].
  unfold set_hostname in Run.
  mono_facts Hwf 3 4.
  unfold encoded_hostname, detail.get, detail.length.
  destruct s as [|c s0].
  - cbn [empty pct.encode] in *.
    destruct (resize_spec v 3 0 Hwf ltac:(lia)) as (v1 & Ev & R);
      [apply fits_zero|].
    ids. unfold ignore in Run. rewrite (bind_ok _ _ _ _ _ Ev) in Run.
    unfold ret in Run. inversion Run; subst vf r; clear Run.
    fold (off v1 3) (off v1 4).
    pose proof (rs_before R 3 ltac:(lia)).
    pose proof (rs_inside R 4 ltac:(lia) ltac:(lia)).
    replace (off v1 4 - off v1 3) with 0 by lia. reflexivity.
  - set (s := c :: s0) in *.
    set (enc := pct.encode pct.reg_name_pct_set s) in *.
    assert (Hn : pct.encoded_size pct.reg_name_pct_set s = List.length enc)
      by (symmetry; apply length_encode).
    pose proof (encoded_size_bound pct.reg_name_pct_set s) as Hsz.
    change (empty s) with false in Run. cbv iota in Run.
    cbn zeta in Run. rewrite Hn in *.
    destruct (resize_spec v 3 (List.length enc) Hwf ltac:(lia))
      as (v1 & Ev & R).
    { ids. apply (fits_mono v _ (3 * List.length s)); [lia|assumption]. }
    ids. rewrite (bind_ok _ _ _ _ _ Ev) in Run.
    unfold store in Run. unfold bind, modify_s, lift, modify_pt in Run.
    cbn [fst snd pt_ s_] in Run.
    pose proof (rs_before R 3 ltac:(lia)) as B.
    pose proof (rs_inside R 4 ltac:(lia) ltac:(lia)) as I.
    pose proof (wf_bound v1 4 (rs_wf R) ltac:(lia)) as Hb.
    destruct (parse_hostname _) as [pt|e] in Run;
      inversion Run; subst vf r; clear Run; cbn [pt_ s_];
      rewrite ?off_set_host; ids; fold (off v1 3) (off v1 4);
      sub_exact; rd_solve.
Qed.

(** C5 (amended).  For the user, the password and the fragment, and for
    every byte string that fits, the plain setter returns normally and the
    plain reader then gives the byte string back; for the host name the
    reader gives the byte string back whenever the setter returns
    normally.  The query setter returns normally and drops one leading
    question mark of its argument before encoding: the query region holds
    a question mark and the encoding of the rest, so a non-empty argument
    that does not start with a question mark and the same argument behind
    one more question mark give the same container. *)
Theorem plain_setters_read_back (s : bytes) (v : basic_value) :
  invariant v = true ->
  fits v (3 * List.length s + 4) = true ->
  (eval (set_username s) v = Ok tt /\
   username (exec (set_username s) v) = s) /\
  (eval (set_password s) v = Ok tt /\
   password (exec (set_password s) v) = s) /\
  (eval (set_hostname s) v = Ok tt ->
   hostname (exec (set_hostname s) v) = s) /\
  (eval (set_fragment s) v = Ok tt /\
   fragment (exec (set_fragment s) v) = s) /\
  (eval (set_query s) v = Ok tt /\
   detail.get (pt_ (exec (set_query s) v)) detail.id_query
     (s_ (exec (set_query s) v)) =
   (if empty s then []
    else chr "?" :: pct.encode pct.query_pct_set (query_argument s))) /\
  (s <> [] -> front s <> chr "?" ->
   set_query (chr "?" :: s) v = set_query s v).
Proof.
  intros Hinv Hfit. apply invariant_wf in Hinv.
  split; [|split; [|split; [|split; [|split]]]].
  - unfold username.
    destruct (set_username_reads_back s v Hinv) as [Hok H].
    { apply (fits_mono v _ (3 * List.length s + 4)); [lia|assumption]. }
    split; [exact Hok|]. rewrite H. now apply decode_encode.
  - unfold password.
    destruct (set_password_reads_back s v Hinv Hfit) as [Hok H].
    split; [exact Hok|]. rewrite H. now apply decode_encode.
  - intros _. unfold hostname. rewrite set_hostname_reads_back; try assumption.
    + now apply decode_encode.
    + apply (fits_mono v _ (3 * List.length s + 4)); [lia|assumption].
  - unfold fragment.
    destruct (set_fragment_reads_back s v Hinv) as [Hok H].
    { apply (fits_mono v _ (3 * List.length s + 4)); [lia|assumption]. }
    split; [exact Hok|]. rewrite H. now apply decode_encode.
  - destruct s as [|c s0].
    + cbn [empty]. apply set_query_empty. assumption.
    + cbn [empty].
      apply (set_query_stores (c :: s0) v Hinv); [|discriminate].
      apply (fits_mono v _ (3 * List.length (c :: s0) + 4));
        [lia|assumption].
  - intros Hs Hq. unfold set_query. cbn [empty front nth substr1 skipn].
    rewrite Ascii.eqb_refl.
    destruct s as [|c s0]; [contradiction|]. cbn [empty front nth] in *.
    destruct (Ascii.eqb_spec c (chr "?")) as [E|_]; [contradiction|].
    reflexivity.
Qed.

End HostName.

(** C5 (as stated, refuted).  The query does not round-trip: [set_query]
    stores the same bytes for [a] and for [?a], so no reader can give both
    arguments back. *)
Lemma set_query_not_injective :
  exec (set_query (str "?a")) value_init = exec (set_query (str "a")) value_init /\
  ~ (forall s, query (exec (set_query s) value_init) = s).
Proof.
  assert (E : exec (set_query (str "?a")) value_init =
              exec (set_query (str "a")) value_init) by reflexivity.
  split; [exact E|].
  intros H. pose proof (H (str "?a")) as H1. pose proof (H (str "a")) as H2.
  rewrite E, H2 in H1. discriminate.
Qed.

(** ** The grammar accepts text only *)

(** No production of the grammar admits the NUL byte, so a string that
    parses is read back whole through [c_str()]. *)
Definition text (s : bytes) : Prop := Forall (fun c => c <> NUL) s.

Lemma text_no_nul (s : bytes) : text s -> ~ In NUL s.
Proof.
  intros H Hin. unfold text in H. rewrite Forall_forall in H.
  now apply (H NUL Hin).
Qed.

Lemma text_app (a b : bytes) : text a -> text b -> text (a ++ b).
Proof. intros Ha Hb. apply Forall_app. now split. Qed.

Lemma text_cons (c : ascii) (s : bytes) : c <> NUL -> text s -> text (c :: s).
Proof. intros Hc Hs. now constructor. Qed.

Lemma text_forallb (p : ascii -> bool) (s : bytes) :
  p NUL = false -> forallb p s = true -> text s.
Proof.
  intros Hp H. unfold text. rewrite Forall_forall. intros c Hc E. subst c.
  rewrite forallb_forall in H. specialize (H NUL Hc). congruence.
Qed.

Lemma byte_is_not_nul (d : string) (c : ascii) :
  rfc3986.byte_is d c = true -> chr d <> NUL -> c <> NUL.
Proof.
  unfold rfc3986.byte_is. intros H Hd. apply Ascii.eqb_eq in H. congruence.
Qed.

Lemma validate_text_aux (e : pct.pct_set) (n : nat) : forall s,
  List.length s <= n ->
  pct.mask e NUL = false ->
  pct.validate e s = Ok tt -> text s.
Proof.
  induction n as [|n IH]; intros s Hl Hm Hv.
  - destruct s; [constructor|simpl in Hl; lia].
  - destruct s as [|c r]; [constructor|].
    cbn [pct.validate] in Hv.
    destruct (Ascii.eqb_spec c pct.percent) as [Ec|Ec].
    + destruct r as [|h [|l r']]; try discriminate.
      destruct (chars.is_hexdig h) eqn:Eh; [|discriminate].
      destruct (chars.is_hexdig l) eqn:El; [|discriminate].
      cbn [andb] in Hv.
      apply text_cons; [subst c; discriminate|].
      apply text_cons; [intros ->; discriminate|].
      apply text_cons; [intros ->; discriminate|].
      apply IH; [simpl in Hl; lia|assumption|assumption].
    + destruct (pct.mask e c) eqn:Em; [|discriminate].
      apply text_cons; [intros ->; congruence|].
      apply IH; [simpl in Hl; lia|assumption|assumption].
Qed.

Lemma validate_text (e : pct.pct_set) (s : bytes) :
  pct.mask e NUL = false -> pct.validate e s = Ok tt -> text s.
Proof. apply (validate_text_aux e (List.length s)). lia. Qed.

Lemma valid_text (m : ascii -> bool) (s : bytes) :
  m NUL = false -> rfc3986.valid m s = true -> text s.
Proof.
  intros Hm H. unfold rfc3986.valid in H.
  destruct (pct.validate _ s) as [[]|e] eqn:E; [|discriminate].
  now apply (validate_text (pct.mk_pct_set m)).
Qed.

Lemma span_app (p : ascii -> bool) (s a b : bytes) :
  rfc3986.span p s = (a, b) -> s = a ++ b.
Proof.
  revert a b. induction s as [|c r IH]; intros a b H; cbn [rfc3986.span] in H.
  - inversion H. reflexivity.
  - destruct (p c).
    + destruct (rfc3986.span p r) as [a' b'] eqn:E. inversion H; subst.
      cbn [app]. f_equal. now apply IH.
    + inversion H. reflexivity.
Qed.

Lemma span_text (p : ascii -> bool) (s a b : bytes) :
  rfc3986.span p s = (a, b) -> text s -> text a /\ text b.
Proof.
  intros H Hs. apply span_app in H. subst s. apply Forall_app in Hs. exact Hs.
Qed.

Lemma split_on_text (d : string) (s : bytes) :
  chr d <> NUL ->
  Forall text (rfc3986.split_on d s) -> text s.
Proof.
  intros Hd. induction s as [|c r IH]; intros H; [constructor|].
  cbn [rfc3986.split_on] in H.
  destruct (rfc3986.byte_is d c) eqn:E.
  - inversion H; subst. apply text_cons; [|now apply IH].
    now apply (byte_is_not_nul d).
  - destruct (rfc3986.split_on d r) as [|h t] eqn:Es.
    + inversion H; subst. match goal with
      | Hx : text [c] |- _ => inversion Hx; subst
      end.
      apply text_cons; [assumption|]. apply IH. constructor.
    + inversion H; subst. match goal with
      | Hx : text (c :: h) |- _ => inversion Hx; subst
      end.
      apply text_cons; [assumption|]. apply IH. now constructor.
Qed.

Lemma span_rest (p : ascii -> bool) (s a r : bytes) (c : ascii) :
  rfc3986.span p s = (a, c :: r) -> p c = false.
Proof.
  revert a. induction s as [|x t IH]; intros a H; cbn [rfc3986.span] in H.
  - discriminate.
  - destruct (p x) eqn:E.
    + destruct (rfc3986.span p t) as [a' b'] eqn:Es. inversion H; subst.
      now apply (IH a').
    + inversion H; subst. exact E.
Qed.

Lemma span_prefix (p : ascii -> bool) (s a b : bytes) :
  rfc3986.span p s = (a, b) -> forallb p a = true.
Proof.
  revert a. induction s as [|x t IH]; intros a H; cbn [rfc3986.span] in H.
  - inversion H. reflexivity.
  - destruct (p x) eqn:E.
    + destruct (rfc3986.span p t) as [a' b'] eqn:Es. inversion H; subst.
      cbn [forallb]. rewrite E. now apply IH.
    + inversion H. reflexivity.
Qed.

(** A string cut at the first [d] is text when the part before the
    delimiter and the part after it are. *)
Lemma delimited_text (d : string) (s a b : bytes) :
  rfc3986.span (fun c => negb (rfc3986.byte_is d c)) s = (a, b) ->
  chr d <> NUL -> text a -> text (remove_prefix 1 b) -> text s.
Proof.
  intros H Hd Ha Hb. pose proof (span_app _ _ _ _ H) as ->.
  apply text_app; [assumption|].
  destruct b as [|c r]; [constructor|].
  apply span_rest in H. apply negb_false_iff in H.
  apply text_cons; [now apply (byte_is_not_nul d)|exact Hb].
Qed.

Lemma dec_octet_text (s : bytes) : rfc3986.dec_octet s = true -> text s.
Proof.
  unfold rfc3986.dec_octet. intros H.
  repeat (apply andb_prop in H; destruct H as [H ?]).
  now apply (text_forallb chars.is_digit).
Qed.

Lemma ipv4_text (s : bytes) : rfc3986.ipv4 s = true -> text s.
Proof.
  unfold rfc3986.ipv4. intros H.
  apply (split_on_text "."); [discriminate|].
  destruct (rfc3986.split_on "." s) as [|a [|b [|c [|d [|x l]]]]];
    try discriminate.
  apply andb_prop in H. destruct H as [H Hd].
  apply andb_prop in H. destruct H as [H Hc].
  apply andb_prop in H. destruct H as [Ha Hb].
  repeat constructor; now apply dec_octet_text.
Qed.

Lemma h16_text (s : bytes) : rfc3986.h16 s = true -> text s.
Proof.
  unfold rfc3986.h16. intros H.
  apply andb_prop in H. destruct H as [_ H].
  now apply (text_forallb chars.is_hexdig).
Qed.

Lemma units_text (l : list bytes) (n : nat) :
  rfc3986.units l = Some n -> Forall text l.
Proof.
  revert n. induction l as [|x r IH]; intros n H; [constructor|].
  cbn [rfc3986.units] in H. destruct r as [|y r'].
  - constructor; [|constructor].
    destruct (rfc3986.h16 x) eqn:Eh; [now apply h16_text|].
    destruct (rfc3986.ipv4 x) eqn:E4; [now apply ipv4_text|discriminate].
  - destruct (rfc3986.h16 x) eqn:Eh; [|discriminate].
    destruct (rfc3986.units (y :: r')) as [m|] eqn:Eu; [|discriminate].
    constructor; [now apply h16_text|now apply (IH m)].
Qed.

Lemma empty_nil (s : bytes) : empty s = true -> s = [].
Proof. destruct s; [reflexivity|discriminate]. Qed.

Lemma groups_text (s : bytes) (n : nat) :
  rfc3986.groups s = Some n -> text s.
Proof.
  unfold rfc3986.groups. destruct (empty s) eqn:E.
  - intros _. apply empty_nil in E. subst. constructor.
  - intros H. apply (split_on_text ":"); [discriminate|].
    now apply (units_text _ n).
Qed.

Lemma groups_h16_text (s : bytes) (n : nat) :
  rfc3986.groups_h16 s = Some n -> text s.
Proof.
  unfold rfc3986.groups_h16. destruct (empty s) eqn:E.
  - intros _. apply empty_nil in E. subst. constructor.
  - destruct (forallb rfc3986.h16 (rfc3986.split_on ":" s)) eqn:F;
      [|discriminate].
    intros _. apply (split_on_text ":"); [discriminate|].
    rewrite forallb_forall in F. apply Forall_forall.
    intros x Hx. apply h16_text. now apply F.
Qed.

Lemma cut_double_colon_app (s l r : bytes) :
  rfc3986.cut_double_colon s = Some (l, r) ->
  s = l ++ chr ":" :: chr ":" :: r.
Proof.
  revert l. induction s as [|a t IH]; intros l H; [discriminate|].
  cbn [rfc3986.cut_double_colon] in H.
  destruct t as [|b r0]; [discriminate|].
  destruct (rfc3986.byte_is ":" a && rfc3986.byte_is ":" b) eqn:E.
  - inversion H; subst. apply andb_prop in E. destruct E as [Ea Eb].
    apply Ascii.eqb_eq in Ea, Eb. subst. reflexivity.
  - destruct (rfc3986.cut_double_colon (b :: r0)) as [[l' r']|] eqn:Ec;
      [|discriminate].
    inversion H; subst. cbn [app]. f_equal. now apply IH.
Qed.

Lemma ipv6_text (s : bytes) : rfc3986.ipv6 s = true -> text s.
Proof.
  unfold rfc3986.ipv6.
  destruct (rfc3986.cut_double_colon s) as [[l r]|] eqn:Ec.
  - destruct (rfc3986.groups_h16 l) as [a|] eqn:El; [|discriminate].
    destruct (rfc3986.groups r) as [b|] eqn:Er; [|discriminate].
    intros _. apply cut_double_colon_app in Ec. subst s.
    apply text_app; [now apply (groups_h16_text _ a)|].
    apply text_cons; [discriminate|].
    apply text_cons; [discriminate|].
    now apply (groups_text _ b).
  - destruct (rfc3986.groups s) as [n|] eqn:Eg; [|discriminate].
    intros _. now apply (groups_text _ n).
Qed.

Lemma ipvfuture_text (s : bytes) : rfc3986.ipvfuture s = true -> text s.
Proof.
  unfold rfc3986.ipvfuture. destruct s as [|v r]; [discriminate|].
  destruct (rfc3986.span chars.is_hexdig r) as [hex rest] eqn:Es.
  intros H. apply andb_prop in H. destruct H as [Hv H].
  apply andb_prop in H. destruct H as [_ H].
  destruct rest as [|dot tail]; [discriminate|].
  apply andb_prop in H. destruct H as [H Ht].
  apply andb_prop in H. destruct H as [Hd _].
  apply text_cons.
  - apply orb_prop in Hv. destruct Hv as [Hv|Hv];
      apply Ascii.eqb_eq in Hv; subst; discriminate.
  - pose proof (span_prefix _ _ _ _ Es) as Hx.
    pose proof (span_app _ _ _ _ Es) as ->.
    apply text_app.
    + now apply (text_forallb chars.is_hexdig).
    + apply text_cons; [now apply (byte_is_not_nul ".")|].
      revert Ht. apply text_forallb. reflexivity.
Qed.

Lemma bracketed (s : bytes) :
  rfc3986.byte_is "[" (front s) = true ->
  rfc3986.byte_is "]" (back s) = true ->
  s = chr "[" :: remove_suffix 1 (remove_prefix 1 s) ++ [chr "]"].
Proof.
  destruct s as [|c r]; [discriminate|].
  unfold front, back, remove_prefix. cbn [nth skipn].
  intros Hc Hb. apply Ascii.eqb_eq in Hc. subst c.
  destruct r as [|x r'] using rev_ind; [discriminate|].
  rewrite firstn_removelast.
  change ((chr "[" :: r' ++ [x])) with ((chr "[" :: r') ++ [x]) in Hb.
  rewrite last_last in Hb. apply Ascii.eqb_eq in Hb. now subst x.
Qed.

Lemma host_kind_text (s : bytes) (k : detail.host_type) :
  rfc3986.host_kind s = Some k -> text s.
Proof.
  unfold rfc3986.host_kind. destruct (empty s) eqn:E.
  { intros _. apply empty_nil in E. subst. constructor. }
  destruct (rfc3986.byte_is "[" (front s)) eqn:Eo.
  - destruct (rfc3986.byte_is "]" (back s)) eqn:Ec; [|discriminate].
    cbv zeta. intros H. rewrite (bracketed s Eo Ec).
    apply text_cons; [discriminate|].
    apply text_app; [|apply text_cons; [discriminate|constructor]].
    destruct (rfc3986.ipv6 _) eqn:E6; [now apply ipv6_text|].
    destruct (rfc3986.ipvfuture _) eqn:Ef; [now apply ipvfuture_text|].
    discriminate.
  - destruct (rfc3986.ipv4 s) eqn:E4; [intros _; now apply ipv4_text|].
    destruct (rfc3986.valid chars.is_reg_name s) eqn:Ev; [|discriminate].
    intros _. now apply (valid_text chars.is_reg_name).
Qed.

Lemma split_host_port_text (s : bytes) x :
  rfc3986.split_host_port s = Some x -> text s.
Proof.
  unfold rfc3986.split_host_port.
  assert (Hp : forall h p k, s = h ++ p ->
            rfc3986.host_kind h = Some k ->
            match p with
            | [] => true
            | c :: digits =>
                rfc3986.byte_is ":" c && forallb chars.is_digit digits
            end = true -> text s).
  { intros h p k -> Hk Hd. apply text_app; [now apply (host_kind_text h k)|].
    destruct p as [|c digits]; [constructor|].
    apply andb_prop in Hd. destruct Hd as [Hc Hd].
    apply text_cons; [now apply (byte_is_not_nul ":")|].
    now apply (text_forallb chars.is_digit). }
  assert (Hcut : forall h p,
            s = h ++ p ->
            match rfc3986.host_kind h with
            | None => None
            | Some k =>
                match p with
                | [] => Some (h, k, [])
                | c :: digits =>
                    if rfc3986.byte_is ":" c && forallb chars.is_digit digits
                    then Some (h, k, p) else None
                end
            end = Some x -> text s).
  { intros h p E H. destruct (rfc3986.host_kind h) as [k|] eqn:Ek;
      [|discriminate].
    apply (Hp h p k E Ek). destruct p as [|c digits]; [reflexivity|].
    destruct (_ && _); [reflexivity|discriminate]. }
  destruct (rfc3986.byte_is "[" (front s)).
  - destruct (rfc3986.span _ s) as [lit rest] eqn:Es.
    apply span_app in Es.
    destruct rest as [|close after].
    + apply (Hcut s []). now rewrite app_nil_r.
    + apply (Hcut (lit ++ [close]) after). rewrite Es.
      now rewrite <- app_assoc.
  - destruct (rfc3986.span _ s) as [h p] eqn:Es.
    apply span_app in Es. now apply (Hcut h p).
Qed.

Lemma authority_parts_text (s : bytes) x :
  rfc3986.authority_parts s = Some x -> text s.
Proof.
  unfold rfc3986.authority_parts.
  destruct (rfc3986.span _ s) as [ui rest] eqn:Es.
  destruct (rfc3986.span _ ui) as [user pass] eqn:Eu.
  cbv zeta. destruct rest as [|c hp]; cbn [empty negb andb].
  - destruct (rfc3986.split_host_port s) as [[[h k] p]|] eqn:Eh;
      [|discriminate].
    intros _. now apply (split_host_port_text s (h, k, p)).
  - destruct (rfc3986.valid chars.is_userinfo ui) eqn:Ev;
      cbn [negb]; [|discriminate].
    unfold remove_prefix. cbn [skipn].
    destruct (rfc3986.split_host_port hp) as [[[h k] p]|] eqn:Eh;
      [|discriminate].
    intros _. apply (delimited_text "@" s ui (c :: hp) Es); [discriminate| |].
    + now apply (valid_text chars.is_userinfo).
    + now apply (split_host_port_text hp (h, k, p)).
Qed.

Lemma parse_scheme_text (s : bytes) :
  raised (grammar.parse_scheme s) = false -> text s.
Proof.
  unfold grammar.parse_scheme. destruct s as [|c r]; [discriminate|].
  destruct (chars.is_alpha c) eqn:Ea; cbn [andb]; [|discriminate].
  destruct (forallb _ r) eqn:Er; [|discriminate].
  intros _. apply text_cons; [intros ->; discriminate|].
  revert Er. now apply text_forallb.
Qed.

Lemma parse_path_abempty_text (s : bytes) :
  raised (grammar.parse_path_abempty s) = false -> text s.
Proof.
  unfold grammar.parse_path_abempty. destruct (empty s) eqn:E.
  { intros _. apply empty_nil in E. subst. constructor. }
  destruct (Ascii.eqb (front s) (chr "/")); [|discriminate].
  destruct (pct.validate _ s) as [[]|e] eqn:Ev; [|discriminate].
  intros _. revert Ev. now apply validate_text.
Qed.

Lemma slashes_text (rest auth path : bytes) :
  rfc3986.byte_is "/" (front rest) && rfc3986.byte_is "/" (nth 1 rest NUL)
    = true ->
  rfc3986.span (fun c => negb (rfc3986.byte_is "/" c)) (remove_prefix 2 rest)
    = (auth, path) ->
  text auth -> text path -> text rest.
Proof.
  intros H Es Ha Hp. apply andb_prop in H. destruct H as [H0 H1].
  destruct rest as [|a [|b r]]; try discriminate.
  unfold remove_prefix in Es. cbn [skipn] in Es. apply span_app in Es.
  subst r. unfold front in H0. cbn [nth] in H0, H1.
  apply text_cons; [now apply (byte_is_not_nul "/")|].
  apply text_cons; [now apply (byte_is_not_nul "/")|].
  now apply text_app.
Qed.

(** The hierarchical part: an authority and a path after two slashes, or
    a path alone. *)
Ltac hier_part rest :=
  let Hsl := fresh "Hsl" in
  let E4 := fresh "E4" in
  let Ea := fresh "Ea" in
  let Epa := fresh "Epa" in
  let Ev := fresh "Ev" in
  destruct (rfc3986.byte_is "/" (front rest) &&
            rfc3986.byte_is "/" (nth 1 rest NUL)) eqn:Hsl;
  [ destruct (rfc3986.span _ (remove_prefix 2 rest)) as [auth path] eqn:E4;
    destruct (rfc3986.authority_parts auth) as [[[lens k] p]|] eqn:Ea;
      [|discriminate];
    destruct (raised (grammar.parse_path_abempty path)) eqn:Epa;
      [discriminate|];
    intros _; apply (slashes_text rest auth path Hsl E4);
      [ now apply (authority_parts_text auth (lens, k, p))
      | now apply parse_path_abempty_text ]
  | destruct (rfc3986.valid _ rest) eqn:Ev; [|discriminate];
    intros _; revert Ev; now apply valid_text ].

Lemma uri_reference_text (s : bytes) (pt : detail.parts) :
  rfc3986.uri_reference s = Ok pt -> text s.
Proof.
  unfold rfc3986.uri_reference.
  destruct (rfc3986.span _ s) as [before frag] eqn:E1.
  destruct (rfc3986.span _ before) as [hier query] eqn:E2.
  destruct (rfc3986.span _ hier) as [pre post] eqn:E3.
  cbv zeta.
  destruct (rfc3986.byte_is ":" (front post) && negb (empty post)) eqn:Hs;
    cbn [andb].
  - destruct (raised (grammar.parse_scheme pre)) eqn:Hp; [discriminate|].
    destruct (rfc3986.valid chars.is_query _) eqn:Hq;
      cbn [negb]; [|discriminate].
    destruct (rfc3986.valid chars.is_fragment _) eqn:Hf;
      cbn [negb]; [|discriminate].
    intros H.
    apply (delimited_text "#" s before frag E1);
      [discriminate| |now apply (valid_text chars.is_fragment)].
    apply (delimited_text "?" before hier query E2);
      [discriminate| |now apply (valid_text chars.is_query)].
    apply span_app in E3. subst hier.
    apply text_app; [now apply parse_scheme_text|].
    destruct post as [|c rest]; [discriminate|].
    apply andb_prop in Hs. destruct Hs as [Hs _].
    unfold front in Hs. cbn [nth] in Hs.
    apply text_cons; [now apply (byte_is_not_nul ":")|].
    revert H. change (remove_prefix 1 (c :: rest)) with rest.
    hier_part rest.
  - destruct (rfc3986.valid chars.is_query _) eqn:Hq;
      cbn [negb]; [|discriminate].
    destruct (rfc3986.valid chars.is_fragment _) eqn:Hf;
      cbn [negb]; [|discriminate].
    intros H.
    apply (delimited_text "#" s before frag E1);
      [discriminate| |now apply (valid_text chars.is_fragment)].
    apply (delimited_text "?" before hier query E2);
      [discriminate| |now apply (valid_text chars.is_query)].
    revert H. hier_part hier.
Qed.

(** Every string the grammar of section 4.3 accepts as a URL is free of the
    NUL byte. *)
Lemma rfc3986_accepts_text (s : bytes) (pt : detail.parts) :
  rfc3986.uri_reference s = Ok pt -> ~ In NUL s.
Proof. intros H. apply text_no_nul. now apply (uri_reference_text s pt). Qed.

(** With that grammar the round trip through the constructor needs no side
    condition: [c_str()] of the container built from [s] is [s]. *)
Corollary rfc3986_round_trip (s : bytes) (pt : detail.parts) :
  rfc3986.uri_reference s = Ok pt ->
  c_str (fst (@construct rfc3986_grammar s)) = s.
Proof.
  intros Hp. destruct s as [|c r]; [reflexivity|].
  rewrite (@construct_buffer rfc3986_grammar c r pt Hp).
  unfold c_str. cbn [fst s_]. rewrite cstring_app_nul.
  apply cstring_no_nul. now apply (rfc3986_accepts_text _ pt).
Qed.

(** ** The theorems at concrete containers *)

(** The scenario containers are what the constructor builds from their
    text with the grammar [rfc3986_grammar]. *)
Example construct_scenarios :
  construct (str "http://h/") = (url_http_h, Ok tt) /\
  construct (str "http://u:p@h/") = (url_http_u_p_h, Ok tt) /\
  construct (str "http://u@h/") = (url_http_u_h, Ok tt).
Proof. repeat split. Qed.

Lemma resize_frame_witness :
  eval (resize detail.id_port 3) url_http_h = Ok 8 /\
  detail.get (pt_ (exec (resize detail.id_port 3) url_http_h)) detail.id_path
    (s_ (exec (resize detail.id_port 3) url_http_h)) = str "/" /\
  detail.length (pt_ (exec (resize detail.id_port 3) url_http_h))
    detail.id_port = 3.
Proof.
  destruct (resize_frame url_http_h detail.id_port 3)
    as (H1 & H2 & _ & _ & _ & _ & H3).
  - reflexivity.
  - unfold detail.id_port, detail.id_end. lia.
  - reflexivity.
  - split; [exact H1|]. split; [|exact H3].
    rewrite (H2 detail.id_path).
    + reflexivity.
    + unfold detail.id_path, detail.id_end. lia.
    + discriminate.
Defined.

Lemma construct_round_trip_witness :
  c_str (fst (construct (str "http://u:p@h:8080/a%20b?x=1&y=2#top"))) =
  str "http://u:p@h:8080/a%20b?x=1&y=2#top".
Proof.
  destruct (construct_round_trip (str "http://u:p@h:8080/a%20b?x=1&y=2#top")
              (rfc3986.with_table [5; 3; 3; 1; 5; 6; 8; 4] detail.host_name
                 (Some 8080%N) (str "/a%20b") (str "?x=1&y=2")))
    as (_ & _ & _ & _ & H).
  - reflexivity.
  - apply H.
    apply (rfc3986_accepts_text _
             (rfc3986.with_table [5; 3; 3; 1; 5; 6; 8; 4] detail.host_name
                (Some 8080%N) (str "/a%20b") (str "?x=1&y=2"))).
    reflexivity.
Defined.

Lemma plain_setters_read_back_witness :
  (eval (set_username (str "a b")) url_http_h = Ok tt /\
   username (exec (set_username (str "a b")) url_http_h) = str "a b") /\
  (eval (set_password (str "a b")) url_http_h = Ok tt /\
   password (exec (set_password (str "a b")) url_http_h) = str "a b") /\
  (eval (set_hostname (str "a b")) url_http_h = Ok tt /\
   hostname (exec (set_hostname (str "a b")) url_http_h) = str "a b") /\
  (eval (set_fragment (str "a b")) url_http_h = Ok tt /\
   fragment (exec (set_fragment (str "a b")) url_http_h) = str "a b") /\
  (eval (set_query (str "a b")) url_http_h = Ok tt /\
   encoded_url (exec (set_query (str "a b")) url_http_h) =
     str "http://h/?a%20b") /\
  set_query (str "?a b") url_http_h = set_query (str "a b") url_http_h.
Proof.
  destruct (plain_setters_read_back (str "a b") url_http_h)
    as (H1 & H2 & H3 & H4 & (H5 & _) & H6).
  - reflexivity.
  - reflexivity.
  - split; [exact H1|]. split; [exact H2|].
    split; [split; [reflexivity|apply H3; reflexivity]|].
    split; [exact H4|]. split; [split; [exact H5|reflexivity]|].
    apply H6; discriminate.
Defined.

Lemma set_password_without_user_witness :
  has_authority (exec (set_password (str "pa ss")) value_init) = true /\
  detail.get (pt_ (exec (set_password (str "pa ss")) value_init))
    detail.id_username (s_ (exec (set_password (str "pa ss")) value_init)) =
    str "//" /\
  detail.get (pt_ (exec (set_password (str "pa ss")) value_init))
    detail.id_password (s_ (exec (set_password (str "pa ss")) value_init)) =
    str ":pa%20ss@".
Proof.
  destruct (set_password_without_user (str "pa ss") value_init)
    as ((_ & H1 & H2 & _ & H3) & _).
  - reflexivity.
  - reflexivity.
  - discriminate.
  - reflexivity.
  - repeat split; assumption.
Defined.

(** Spec 8.3, scenario 1, with the encoded host setter. *)
Example scenario_build :
  encoded_url
    (exec (set_scheme (str "http") ;; set_encoded_host (str "example.com") ;;
           set_encoded_path (str "/a%20b") ;; set_query (str "x=1&y=2") ;;
           set_fragment (str "top")) value_init) =
  str "http://example.com/a%20b?x=1&y=2#top".
Proof. reflexivity. Qed.

(** Spec 8.3, scenario 2. *)
Example scenario_remove_password :
  encoded_url
    (exec remove_password (fst (construct (str "http://u:p@h:8080/")))) =
  str "http://u@h:8080/".
Proof. reflexivity. Qed.

(* ================================================================== *)
(** ** The structural invariant under the resize engine *)
(* ================================================================== *)

Lemma wf_invariant (v : basic_value) : wf v -> invariant v = true.
Proof.
  intros [Hlen Hzero Hmono Hbuf Hnul]. unfold invariant.
  unfold off in *. cbv zeta.
  rewrite Hlen, Hzero. change (detail.id_end + 1) with 9.
  cbn [Nat.eqb andb].
  assert (Hs : sorted (detail.offset (pt_ v)) = true).
  { pose proof (Hmono 0 1 ltac:(lia) ltac:(lia)) as M0.
    pose proof (Hmono 1 2 ltac:(lia) ltac:(lia)) as M1.
    pose proof (Hmono 2 3 ltac:(lia) ltac:(lia)) as M2.
    pose proof (Hmono 3 4 ltac:(lia) ltac:(lia)) as M3.
    pose proof (Hmono 4 5 ltac:(lia) ltac:(lia)) as M4.
    pose proof (Hmono 5 6 ltac:(lia) ltac:(lia)) as M5.
    pose proof (Hmono 6 7 ltac:(lia) ltac:(lia)) as M6.
    pose proof (Hmono 7 8 ltac:(lia) ltac:(lia)) as M7.
    unfold detail.off in *.
    destruct (detail.offset (pt_ v))
      as [|a0 [|a1 [|a2 [|a3 [|a4 [|a5 [|a6 [|a7 [|a8 [|x l]]]]]]]]]];
      try discriminate Hlen.
    cbn [nth] in *. cbn [sorted].
    repeat (apply andb_true_iff; split); try (apply Nat.leb_le; assumption).
    reflexivity. }
  rewrite Hs. cbn [andb].
  apply andb_true_iff. split.
  - apply orb_true_iff. destruct Hbuf as [Hb|[Hb1 Hb2]].
    + left. now apply Nat.ltb_lt.
    + right. unfold detail.id_end. rewrite Hb1, Hb2. reflexivity.
  - unfold detail.id_end. rewrite Hnul. apply Ascii.eqb_refl.
Qed.

(** Stores below the terminator and splits between two offsets keep the
    invariant. *)
Lemma wf_write (pt : detail.parts) (b : bytes) (p : nat) (l : bytes) :
  wf (mk_value pt b) ->
  p + List.length l <= detail.off pt 8 ->
  wf (mk_value pt (write b p l)).
Proof.
  intros [Hlen Hzero Hmono Hbuf Hnul] Hp. unfold off in *. cbn [pt_ s_] in *.
  constructor; unfold off; cbn [pt_ s_]; try assumption.
  - rewrite length_write. exact Hbuf.
  - rewrite rd_write. split_bools; try lia. exact Hnul.
Qed.

Lemma wf_split (pt : detail.parts) (b : bytes) (id n : nat) :
  wf (mk_value pt b) ->
  id + 2 <= 8 ->
  detail.off pt id + n <= detail.off pt (id + 2) ->
  wf (mk_value (detail.split id n pt) b).
Proof.
  intros Hwf Hid Hn. pose proof Hwf as [Hlen Hzero Hmono Hbuf Hnul].
  unfold off in *. cbn [pt_ s_] in *.
  assert (Ho : forall k, detail.off (detail.split id n pt) k =
                         if k =? id + 1 then detail.off pt id + n
                         else detail.off pt k).
  { intros k. rewrite off_split, Hlen.
    split_bools; try lia; reflexivity. }
  constructor; unfold off; cbn [pt_ s_].
  - unfold detail.split, detail.set_off. cbn [detail.offset].
    now rewrite set_nth_length.
  - rewrite Ho. split_bools; [lia|assumption].
  - intros i j Hij Hj. rewrite !Ho.
    pose proof (Hmono i id) as M1. pose proof (Hmono (id + 2) j) as M2.
    pose proof (Hmono i j Hij Hj) as M3.
    pose proof (Hmono id (id + 2)) as M4.
    split_bools; try lia.
  - rewrite Ho. split_bools; [lia|assumption].
  - rewrite Ho. split_bools; [lia|assumption].
Qed.

Lemma wf_fields (pt pt' : detail.parts) (b : bytes) :
  detail.offset pt' = detail.offset pt ->
  wf (mk_value pt b) -> wf (mk_value pt' b).
Proof.
  intros E [Hlen Hzero Hmono Hbuf Hnul].
  unfold off, detail.off in *. cbn [pt_ s_] in *.
  constructor; unfold off, detail.off; cbn [pt_ s_]; rewrite E; assumption.
Qed.

Lemma resize_range_too_large (v : basic_value) (first last n : nat) :
  fits v (n - (off v last - off v first)) = false ->
  resize_range first last n v = (v, Raise too_large).
Proof.
  intros Hfit. unfold fits in Hfit. apply N.leb_gt in Hfit.
  unfold resize_range, size. unfold bind, get_pt, ret, raise.
  unfold detail.length_range. fold (off v last) (off v first).
  destruct (Nat.eqb_spec n 0) as [E0|E0].
  { subst n. simpl in Hfit. lia. }
  cbn [andb].
  destruct (Nat.leb_spec n (off v last - off v first)) as [L|L].
  - replace (n - (off v last - off v first)) with 0 in Hfit by lia.
    simpl in Hfit. lia.
  - cbn [pt_]. apply N.ltb_lt in Hfit.
    unfold off, detail.id_end in *. rewrite Hfit. reflexivity.
Qed.

(** The two outcomes of a resize on a well-formed container. *)
Lemma resize_range_cases (v : basic_value) (first last n : nat) :
  wf v -> first < last -> last <= 8 ->
  resize_range first last n v = (v, Raise too_large) \/
  exists v',
    resize_range first last n v = (v', Ok (off v first)) /\
    resized first last n v v'.
Proof.
  intros Hwf Hfl Hl.
  destruct (fits v (n - (off v last - off v first))) eqn:Hfit.
  - right. now apply resize_range_spec.
  - left. now apply resize_range_too_large.
Qed.

Lemma resize_cases (v : basic_value) (id n : nat) :
  wf v -> id < 8 ->
  resize id n v = (v, Raise too_large) \/
  exists v',
    resize id n v = (v', Ok (off v id)) /\
    resized id (id + 1) n v v'.
Proof.
  intros Hwf Hid.
  destruct (fits v (n - (off v (id + 1) - off v id))) eqn:Hfit.
  - right. now apply resize_spec.
  - left. apply resize_too_large; [|assumption].
    apply (wf_mono Hwf); lia.
Qed.

(** X1.  The range overload [resize(first, last, n)], on a container that
    satisfies the invariant and for a request that fits: it returns the
    start of the range; the offsets up to [first] stay, those after
    [first] up to [last] all become the end of the new room, the later
    ones move by [n] minus the old length of the range; every component
    outside the range keeps its bytes and the terminator follows the URL. *)
Theorem resize_range_frame (v : basic_value) (first last n : nat) :
  invariant v = true ->
  first < last -> last <= detail.id_end ->
  fits v (n - detail.length_range (pt_ v) first last) = true ->
  let v' := exec (resize_range first last n) v in
  eval (resize_range first last n) v = Ok (off v first) /\
  (forall i, i <= first -> off v' i = off v i) /\
  (forall i, first < i -> i <= last -> off v' i = off v first + n) /\
  (forall i, last < i -> i <= detail.id_end ->
     off v' i + detail.length_range (pt_ v) first last = off v i + n) /\
  (forall j, j < detail.id_end -> j < first \/ last <= j ->
     region v' j = region v j) /\
  rd (s_ v') (off v' detail.id_end) = NUL /\
  invariant v' = true.
Proof.
  intros Hinv Hfl Hl Hfit. apply invariant_wf in Hinv.
  unfold detail.id_end in *.
  destruct (resize_range_spec v first last n Hinv Hfl Hl Hfit)
    as (v' & E & R).
  unfold exec, eval. rewrite E. cbn [fst snd]. cbn zeta.
  repeat split.
  - apply (rs_before R).
  - apply (rs_inside R).
  - apply (rs_after R).
  - intros j Hj [Hb|Ha].
    + now apply (resized_region_before v v' first last n j).
    + now apply (resized_region_after v v' first last n j).
  - apply (wf_nul (rs_wf R)).
  - apply wf_invariant, (rs_wf R).
Qed.

Lemma resize_range_frame_witness :
  let v' := exec (resize_range 1 3 4) url_http_u_p_h in
  off v' 2 = 9 /\ off v' 3 = 9 /\ off v' 4 = 10 /\ off v' 8 = 11 /\
  region v' 0 = str "http:" /\ region v' 3 = str "h" /\
  region v' 5 = str "/".
Proof.
  destruct (resize_range_frame url_http_u_p_h 1 3 4)
    as (_ & _ & Hin & Haf & Hreg & _ & _);
    [reflexivity|lia|unfold detail.id_end; lia|reflexivity|].
  cbv zeta.
  split; [apply Hin; lia|]. split; [apply Hin; lia|].
  split.
  { pose proof (Haf 4 ltac:(lia) ltac:(unfold detail.id_end; lia)) as H.
    change (detail.length_range (pt_ url_http_u_p_h) 1 3) with 6 in H.
    change (off url_http_u_p_h 4) with 12 in H. lia. }
  split.
  { pose proof (Haf 8 ltac:(lia) ltac:(unfold detail.id_end; lia)) as H.
    change (detail.length_range (pt_ url_http_u_p_h) 1 3) with 6 in H.
    change (off url_http_u_p_h 8) with 13 in H. lia. }
  split; [|split];
    (rewrite Hreg; [reflexivity|unfold detail.id_end; lia|lia]).
Defined.

(** X2.  A request to grow by more than [size_max - size()] makes either
    overload of [resize] raise [too_large] before anything is written:
    the container is the one before the call. *)
Theorem resize_too_large_unchanged (v : basic_value) (first last n : nat) :
  (size_max - N.of_nat (off v detail.id_end) <
   N.of_nat (n - detail.length_range (pt_ v) first last))%N ->
  resize_range first last n v = (v, Raise too_large) /\
  (off v first <= off v last -> last = first + 1 ->
   resize first n v = (v, Raise too_large)).
Proof.
  intros H.
  assert (Hfit : fits v (n - (off v last - off v first)) = false).
  { unfold fits. apply N.leb_gt. exact H. }
  split.
  - now apply resize_range_too_large.
  - intros Hm ->. now apply resize_too_large.
Qed.

Lemma resize_too_large_unchanged_witness :
  resize_range 5 6 (N.to_nat size_max) url_http_h =
    (url_http_h, Raise too_large) /\
  resize 5 (N.to_nat size_max) url_http_h = (url_http_h, Raise too_large).
Proof.
  destruct (resize_too_large_unchanged url_http_h 5 6 (N.to_nat size_max))
    as [H1 H2].
  - change (off url_http_h detail.id_end) with 9.
    change (detail.length_range (pt_ url_http_h) 5 6) with 1.
    unfold size_max. lia.
  - split; [exact H1|]. apply H2; [|reflexivity].
    change (off url_http_h 5) with 8. change (off url_http_h 6) with 9. lia.
Defined.

(** X3.  Both overloads of [resize] keep the structural invariant, for
    every component, every range and every requested size: nine monotone
    offsets from zero and the terminator right after the last byte. *)
Theorem resize_keeps_invariant (v : basic_value) (first last n : nat) :
  invariant v = true ->
  first < last -> last <= detail.id_end ->
  invariant (exec (resize_range first last n) v) = true /\
  invariant (exec (resize first n) v) = true.
Proof.
  intros Hinv Hfl Hl. pose proof (invariant_wf v Hinv) as Hwf.
  unfold detail.id_end in *. unfold exec. split.
  - destruct (resize_range_cases v first last n Hwf Hfl Hl)
      as [E|(v' & E & R)]; rewrite E; cbn [fst].
    + exact Hinv.
    + apply wf_invariant, (rs_wf R).
  - destruct (resize_cases v first n Hwf ltac:(lia))
      as [E|(v' & E & R)]; rewrite E; cbn [fst].
    + exact Hinv.
    + apply wf_invariant, (rs_wf R).
Qed.

Lemma resize_keeps_invariant_witness :
  invariant (exec (resize_range 1 5 40) url_http_u_p_h) = true /\
  invariant (exec (resize 1 40) url_http_u_p_h) = true.
Proof.
  apply (resize_keeps_invariant url_http_u_p_h 1 5);
    [reflexivity|lia|unfold detail.id_end; lia].
Defined.

(* ================================================================== *)
(** ** Readers and regions *)
(* ================================================================== *)

Lemma sub_split (b : bytes) (o n m : nat) :
  o + n + m <= List.length b ->
  sub b o (n + m) = sub b o n ++ sub b (o + n) m.
Proof.
  intros H. apply bytes_ext.
  - rewrite length_app, !length_sub. lia.
  - intros k Hk. rewrite length_sub in Hk.
    rewrite rd_app, !rd_sub, length_sub.
    split_bools; try lia; try reflexivity. f_equal. lia.
Qed.

Lemma region_length (v : basic_value) (j : nat) :
  wf v -> j < 8 -> List.length (region v j) = off v (j + 1) - off v j.
Proof.
  intros Hwf Hj. unfold region, detail.get, detail.length.
  fold (off v (j + 1)) (off v j). rewrite length_sub.
  pose proof (wf_bound v (j + 1) Hwf ltac:(lia)).
  mono_facts Hwf j (j + 1). lia.
Qed.

(** The view of a range is the concatenation of the views of its two
    halves. *)
Lemma get_range_split (v : basic_value) (i j k : nat) :
  wf v -> i <= j -> j <= k -> k <= 8 ->
  detail.get_range (pt_ v) i k (s_ v) =
  detail.get_range (pt_ v) i j (s_ v) ++ detail.get_range (pt_ v) j k (s_ v).
Proof.
  intros Hwf Hij Hjk Hk. unfold detail.get_range, detail.length_range.
  fold (off v i) (off v j) (off v k).
  pose proof (wf_bound v k Hwf Hk).
  mono_facts Hwf i j. mono_facts Hwf j k.
  replace (off v k - off v i) with ((off v j - off v i) + (off v k - off v j))
    by lia.
  rewrite sub_split by lia. do 2 f_equal. lia.
Qed.

Lemma get_range_one (v : basic_value) (j : nat) :
  detail.get_range (pt_ v) j (j + 1) (s_ v) = region v j.
Proof. reflexivity. Qed.

Lemma url_is_components (v : basic_value) :
  wf v -> encoded_url v = List.concat (components v).
Proof.
  intros Hwf. unfold encoded_url, components. ids.
  cbn [seq map List.concat]. rewrite app_nil_r.
  rewrite (get_range_split v 0 1 8), (get_range_split v 1 2 8),
    (get_range_split v 2 3 8), (get_range_split v 3 4 8),
    (get_range_split v 4 5 8), (get_range_split v 5 6 8),
    (get_range_split v 6 7 8) by (assumption || lia).
  reflexivity.
Qed.

(** Two well-formed containers with the same eight regions have the same
    offsets and the same URL. *)
Lemma offsets_from_regions (v w : basic_value) :
  wf v -> wf w ->
  (forall j, j < 8 -> region v j = region w j) ->
  detail.offset (pt_ v) = detail.offset (pt_ w) /\
  encoded_url v = encoded_url w.
Proof.
  intros Hv Hw H.
  assert (Ho : forall k, k <= 8 -> off v k = off w k).
  { induction k as [|k IH]; intros Hk.
    - now rewrite (wf_zero Hv), (wf_zero Hw).
    - pose proof (region_length v k Hv ltac:(lia)) as Lv.
      pose proof (region_length w k Hw ltac:(lia)) as Lw.
      rewrite (H k) in Lv by lia. rewrite Lv in Lw.
      replace (k + 1) with (S k) in * by lia.
      mono_facts Hv k (S k). mono_facts Hw k (S k).
      specialize (IH ltac:(lia)). lia. }
  split.
  - apply (nth_ext _ _ 0 0).
    + now rewrite (wf_len Hv), (wf_len Hw).
    + intros k Hk. rewrite (wf_len Hv) in Hk. apply (Ho k). lia.
  - rewrite !url_is_components by assumption. unfold components.
    f_equal. apply map_ext_in. intros j Hj. apply in_seq in Hj.
    apply H. unfold detail.id_end in Hj. lia.
Qed.

(** X4.  On a container that satisfies the invariant the readers tile the
    URL: the whole is the origin, the path, the query and the fragment
    part one after the other; the origin is the scheme region followed by
    the authority region; the host is the host name followed by the port
    region. *)
Theorem readers_tile_the_url (v : basic_value) :
  invariant v = true ->
  encoded_url v =
    encoded_origin v ++ encoded_path v ++ encoded_query v ++ fragment_part v /\
  encoded_origin v =
    region v detail.id_scheme ++
    detail.get_range (pt_ v) detail.id_username detail.id_path (s_ v) /\
  encoded_host v = encoded_hostname v ++ region v detail.id_port /\
  encoded_url v = List.concat (components v) /\
  List.length (encoded_url v) = off v detail.id_end.
Proof.
  intros Hinv. apply invariant_wf in Hinv.
  unfold encoded_origin, encoded_path, encoded_query, fragment_part,
    encoded_host, encoded_hostname, encoded_url.
  ids. repeat split.
  - rewrite (get_range_split v 0 5 8), (get_range_split v 5 6 8),
      (get_range_split v 6 7 8) by (assumption || lia).
    reflexivity.
  - now rewrite (get_range_split v 0 1 5) by (assumption || lia).
  - now rewrite (get_range_split v 3 4 5) by (assumption || lia).
  - now apply url_is_components.
  - unfold detail.get_range, detail.length_range.
    fold (off v 8) (off v 0). rewrite length_sub.
    pose proof (wf_bound v 8 Hinv ltac:(lia)).
    rewrite (wf_zero Hinv). lia.
Qed.

Lemma readers_tile_the_url_witness :
  encoded_url url_http_u_p_h =
    encoded_origin url_http_u_p_h ++ encoded_path url_http_u_p_h ++
    encoded_query url_http_u_p_h ++ fragment_part url_http_u_p_h.
Proof.
  apply (readers_tile_the_url url_http_u_p_h). reflexivity.
Defined.

Lemma buffer_is_url_nul (v : basic_value) :
  wf v -> s_ v <> [] ->
  exists rest, s_ v = encoded_url v ++ NUL :: rest.
Proof.
  intros Hwf Hne.
  pose proof (wf_buf Hwf) as [Hb|[Hb _]].
  2:{ destruct (s_ v); [contradiction|discriminate]. }
  pose proof (wf_nul Hwf) as Hn.
  unfold encoded_url, detail.get_range, detail.length_range. ids.
  fold (off v 8) (off v 0). rewrite (wf_zero Hwf), Nat.sub_0_r.
  unfold sub. rewrite skipn_O.
  destruct (skipn (off v 8) (s_ v)) as [|c rest] eqn:E.
  - apply (f_equal (@List.length _)) in E. rewrite length_skipn in E.
    simpl in E. lia.
  - exists rest. rewrite <- (firstn_skipn (off v 8) (s_ v)) at 1.
    f_equal. rewrite E. f_equal.
    assert (Hc : rd (skipn (off v 8) (s_ v)) 0 = c) by now rewrite E.
    rewrite rd_skipn, Nat.add_0_r in Hc. congruence.
Qed.

Lemma c_str_cut (v : basic_value) :
  wf v -> c_str v = cstring (encoded_url v).
Proof.
  intros Hwf. unfold c_str. destruct (s_ v) as [|c r] eqn:E.
  - unfold encoded_url, detail.get_range. rewrite E.
    unfold sub. rewrite skipn_nil, firstn_nil. reflexivity.
  - destruct (buffer_is_url_nul v Hwf) as [rest Hr];
      [rewrite E; discriminate|].
    rewrite <- E, Hr at 1. apply cstring_app_nul.
Qed.

(** X5.  On a container that satisfies the invariant, the C string at
    [c_str()] is the encoded URL cut at its first NUL byte; for a URL
    without a NUL byte the two readers agree. *)
Theorem c_str_is_encoded_url (v : basic_value) :
  invariant v = true ->
  c_str v = cstring (encoded_url v) /\
  (~ In NUL (encoded_url v) -> c_str v = encoded_url v).
Proof.
  intros Hinv. apply invariant_wf in Hinv.
  pose proof (c_str_cut v Hinv) as H.
  split; [exact H|].
  intros Hn. rewrite H. now apply cstring_no_nul.
Qed.

Lemma c_str_is_encoded_url_witness :
  c_str url_http_u_p_h = encoded_url url_http_u_p_h.
Proof.
  apply (c_str_is_encoded_url url_http_u_p_h); [reflexivity|].
  vm_compute. intuition discriminate.
Defined.

(* ================================================================== *)
(** ** What a setter leaves behind *)
(* ================================================================== *)

(** Reading a buffer after a chain of stores, deciding each comparison as
    soon as the arithmetic of the context settles it. *)
Ltac bool_step :=
  match goal with
  | |- context [?a <=? ?b] =>
      first [ replace (a <=? b) with true by (symmetry; apply Nat.leb_le; lia)
            | replace (a <=? b) with false by (symmetry; apply Nat.leb_gt; lia)
            | destruct (Nat.leb_spec a b) ]
  | |- context [?a <? ?b] =>
      first [ replace (a <? b) with true by (symmetry; apply Nat.ltb_lt; lia)
            | replace (a <? b) with false by (symmetry; apply Nat.ltb_ge; lia)
            | destruct (Nat.ltb_spec a b) ]
  | |- context [?a =? ?b] =>
      first [ replace (a =? b) with true by (symmetry; apply Nat.eqb_eq; lia)
            | replace (a =? b) with false by (symmetry; apply Nat.eqb_neq; lia)
            | destruct (Nat.eqb_spec a b) ]
  end;
  cbv iota.

Ltac rd_fast :=
  cbn [List.length];
  repeat first [ rewrite length_write | rewrite length_sub | bool_step
               | rd_step; cbn [List.length] ];
  try lia; try reflexivity; try (f_equal; lia).

Lemma resized_end (v v1 : basic_value) (first last n : nat) :
  wf v -> first < last -> last <= 8 ->
  resized first last n v v1 ->
  off v first + n <= off v1 8 /\
  off v1 last = off v first + n /\ off v1 first = off v first.
Proof.
  intros Hwf Hfl Hl R.
  pose proof (rs_wf R) as Hwf1.
  pose proof (rs_inside R last ltac:(lia) ltac:(lia)) as I.
  pose proof (rs_before R first ltac:(lia)) as B.
  mono_facts Hwf1 last 8.
  repeat split; lia.
Qed.

Lemma filled_wf (v v1 vf : basic_value) (first last n : nat) :
  wf v -> first < last -> last <= 8 ->
  resized first last n v v1 ->
  filled first last n v v1 vf ->
  wf vf.
Proof.
  intros Hwf Hfl Hl R F.
  pose proof (rs_wf R) as Hwf1.
  destruct (resized_end v v1 first last n Hwf Hfl Hl R) as (E8 & EL & EF).
  pose proof (fl_off F 8 ltac:(lia)) as O8.
  constructor.
  - apply (fl_len F).
  - rewrite (fl_off F 0) by lia. apply (wf_zero Hwf1).
  - assert (Hadj : forall k, k < 8 -> off vf k <= off vf (k + 1)).
    { intros k Hk.
      destruct (Nat.lt_ge_cases k first) as [L|L].
      - rewrite !(fl_off F) by lia. apply (wf_mono Hwf1); lia.
      - destruct (Nat.lt_ge_cases k last) as [L2|L2].
        + apply (fl_mono F); lia.
        + rewrite !(fl_off F) by lia. apply (wf_mono Hwf1); lia. }
    intros i j Hij Hj. induction Hij as [|j Hij IH]; [lia|].
    transitivity (off vf j); [apply IH; lia|].
    replace (S j) with (j + 1) by lia. apply Hadj. lia.
  - rewrite O8, (fl_buf F). apply (wf_buf Hwf1).
  - rewrite O8, (fl_rd F) by lia. apply (wf_nul Hwf1).
Qed.

Lemma filled_region (v v1 vf : basic_value) (first last n j : nat) :
  wf v -> first < last -> last <= 8 ->
  resized first last n v v1 ->
  filled first last n v v1 vf ->
  j < 8 -> j < first \/ last <= j ->
  region vf j = region v j.
Proof.
  intros Hwf Hfl Hl R F Hj Hout.
  pose proof (rs_wf R) as Hwf1.
  destruct (resized_end v v1 first last n Hwf Hfl Hl R) as (E8 & EL & EF).
  transitivity (region v1 j).
  - unfold region, detail.get, detail.length.
    fold (off vf j) (off vf (j + 1)) (off v1 j) (off v1 (j + 1)).
    rewrite !(fl_off F) by lia.
    pose proof (wf_bound v1 (j + 1) Hwf1 ltac:(lia)) as Hb.
    mono_facts Hwf1 j (j + 1).
    apply sub_ext; [rewrite (fl_buf F); lia|lia|].
    intros k Hk. apply (fl_rd F).
    destruct Hout as [Hb4|Ha].
    + left. mono_facts Hwf1 (j + 1) first. lia.
    + right. mono_facts Hwf1 last j. lia.
  - unfold region. destruct Hout as [Hb4|Ha].
    + now apply (resized_region_before v v1 first last n j).
    + now apply (resized_region_after v v1 first last n j).
Qed.

(** A region inside the range, read off the stores that filled it. *)
Lemma filled_inside (v v1 vf : basic_value) (first last n j : nat)
    (W : bytes) (a : nat) :
  wf v -> first < last -> last <= 8 ->
  resized first last n v v1 ->
  List.length (s_ vf) = List.length (s_ v1) ->
  off vf j = off v first + a ->
  off vf (j + 1) = off v first + a + List.length W ->
  a + List.length W <= n ->
  (forall k, k < List.length W -> rd (s_ vf) (off v first + a + k) = rd W k) ->
  region vf j = W.
Proof.
  intros Hwf Hfl Hl R Hbuf Hj Hj1 Ha Hrd.
  pose proof (rs_wf R) as Hwf1.
  destruct (resized_end v v1 first last n Hwf Hfl Hl R) as (E8 & EL & EF).
  pose proof (wf_bound v1 8 Hwf1 ltac:(lia)) as Hb.
  unfold region, detail.get, detail.length.
  fold (off vf j) (off vf (j + 1)). rewrite Hj, Hj1.
  replace (off v first + a + List.length W - (off v first + a))
    with (List.length W) by lia.
  apply sub_is; [rewrite Hbuf; lia|exact Hrd].
Qed.

(** Take the resize of a setter that returned normally: it did not raise,
    so it produced a resized container. *)
Ltac resize_step Run Hwf id n v1 E R :=
  destruct (resize_cases _ id n Hwf ltac:(unfold detail.id_end; lia))
    as [E|(v1 & E & R)];
  [ unfold ignore in Run; unfold bind at 1 in Run; rewrite E in Run;
    discriminate Run
  | unfold ignore in Run; rewrite (bind_ok _ _ _ _ _ E) in Run ].

Ltac resize_range_step Run Hwf first last n v1 E R :=
  destruct (resize_range_cases _ first last n Hwf
              ltac:(unfold detail.id_end; lia) ltac:(unfold detail.id_end; lia))
    as [E|(v1 & E & R)];
  [ unfold ignore in Run; unfold bind at 1 in Run; rewrite E in Run;
    discriminate Run
  | unfold ignore in Run; rewrite (bind_ok _ _ _ _ _ E) in Run ].

(** The offsets of a table after splits and field updates. *)
Ltac offs :=
  unfold off; cbn [pt_ s_];
  rewrite ?off_set_port, ?off_set_host, ?off_split, ?length_split.

Lemma filled_same (v v1 : basic_value) (first last n : nat) :
  wf v -> first < last -> last <= 8 ->
  resized first last n v v1 ->
  filled first last n v v1 v1.
Proof.
  intros Hwf Hfl Hl R. pose proof (rs_wf R) as Hwf1.
  constructor; try reflexivity.
  - apply (wf_len Hwf1).
  - intros k H1 H2. apply (wf_mono Hwf1); lia.
Qed.

Lemma same_fields_refl (v : basic_value) : same_fields v v.
Proof. repeat split. Qed.

Lemma resized_fields (v v1 : basic_value) (first last n : nat) :
  resized first last n v v1 -> same_fields v v1.
Proof.
  intros R. repeat split;
    [apply (rs_port R)|apply (rs_host R)|apply (rs_nseg R)|apply (rs_nparam R)].
Qed.

(** Side conditions on lengths and offsets. *)
Ltac side :=
  cbn [pt_ s_]; rewrite ?length_app, ?length_write; cbn [List.length]; ids;
  first [ reflexivity | assumption
        | unfold off in *; cbn [pt_ s_] in *; lia
        | idtac ].

(** One region replaced by [W]: the resized table, a buffer that holds
    [W] in the new room and the bytes of the resized buffer elsewhere. *)
Lemma replace_effect (id n : nat) (W S : bytes) (v v1 : basic_value) :
  wf v -> id < 8 ->
  resized id (id + 1) n v v1 ->
  List.length W = n ->
  List.length S = List.length (s_ v1) ->
  (forall i, i < off v id \/ off v id + n <= i -> rd S i = rd (s_ v1) i) ->
  (forall k, k < n -> rd S (off v id + k) = rd W k) ->
  wf (mk_value (pt_ v1) S) /\
  same_fields v (mk_value (pt_ v1) S) /\
  region (mk_value (pt_ v1) S) id = W /\
  forall j, j < 8 -> j <> id -> region (mk_value (pt_ v1) S) j = region v j.
Proof.
  intros Hwf Hid R HW HS Hout Hin.
  destruct (resized_end v v1 id (id + 1) _ Hwf ltac:(lia) ltac:(lia) R)
    as (E8 & EL & EF).
  assert (F : filled id (id + 1) n v v1 (mk_value (pt_ v1) S)).
  { constructor; cbn [pt_ s_]; try assumption.
    - apply (wf_len (rs_wf R)).
    - reflexivity.
    - intros k H1 H2. apply (wf_mono (rs_wf R)); lia. }
  split; [refine (filled_wf _ _ _ _ _ _ Hwf _ _ R F); lia|].
  split; [apply (resized_fields _ _ _ _ _ R)|].
  split.
  - refine (filled_inside v v1 _ id (id + 1) _ id W 0 Hwf _ _ R _ _ _ _ _);
      side.
    intros k Hk. rewrite Nat.add_0_r. apply Hin. lia.
  - intros j H8 Hne.
    refine (filled_region _ _ _ _ _ _ j Hwf _ _ R F _ _); lia.
Qed.

Lemma remove_effect (id : nat) (v v1 : basic_value) :
  wf v -> id < 8 ->
  resized id (id + 1) 0 v v1 ->
  replaces id [] v v1.
Proof.
  intros Hwf Hid R. destruct v1 as [pt1 s1].
  apply (replace_effect id 0 [] s1 v (mk_value pt1 s1) Hwf Hid R);
    try reflexivity.
  intros k Hk. lia.
Qed.

(** Close a goal [replaces id W v vf] for a final state computed from the
    resize [R]. *)
Ltac by_replace Hwf R :=
  unfold replaces;
  match goal with
  | |- wf (mk_value (pt_ ?v1) ?S) /\ _ =>
      refine (replace_effect _ _ _ S _ v1 Hwf _ R _ _ _ _);
      [ lia
      | cbn [List.length]; rewrite ?length_app; cbn [List.length]; try lia
      | now rewrite ?length_write
      | let i := fresh "i" in let Hi := fresh "Hi" in intros i Hi; rd_fast
      | let k := fresh "k" in let Hk := fresh "Hk" in intros k Hk; rd_fast ]
  end.

(** *** scheme *)

Lemma set_scheme_effect (s : bytes) (v vf : basic_value) :
  wf v -> set_scheme s v = (vf, Ok tt) ->
  replaces 0 (if empty s then [] else s ++ [chr ":"]) v vf.
Proof.
  intros Hwf Run. unfold set_scheme in Run.
  destruct (empty s) eqn:Hs.
  - ids. resize_step Run Hwf 0 0 v1 E R.
    unfold ret in Run. inversion Run; subst vf; clear Run.
    apply (remove_effect 0 v v1 Hwf ltac:(lia) R).
  - unfold bind at 1 in Run. unfold lift at 1 in Run.
    destruct (grammar.parse_scheme s) as [[]|e]; [|discriminate Run].
    ids.
    resize_step Run Hwf 0 (List.length s + 1) v1 E R.
    finish_run Run.
    pose proof (wf_bound v1 8 (rs_wf R) ltac:(lia)) as Hb.
    destruct (resized_end v v1 0 1 _ Hwf ltac:(lia) ltac:(lia) R)
      as (E8 & EL & EF).
    by_replace Hwf R.
Qed.

(** Start of a setter that validates with a throwing check. *)
Ltac pass_check Run :=
  unfold bind at 1 in Run; unfold lift at 1 in Run;
  match type of Run with
  | context [match ?r with Ok _ => _ | Raise _ => _ end] =>
      destruct r as [[]|?]; [|discriminate Run]
  end.

(** The common tail: resize of one region, stores, done. *)
Ltac single_region Run Hwf id n :=
  let v1 := fresh "v1" in
  let E := fresh "E" in
  let R := fresh "R" in
  let Hb := fresh "Hb" in
  let E8 := fresh "E8" in
  let EL := fresh "EL" in
  let EF := fresh "EF" in
  resize_step Run Hwf id n v1 E R;
  finish_run Run;
  pose proof (wf_bound v1 8 (rs_wf R) ltac:(lia)) as Hb;
  destruct (resized_end _ v1 id (id + 1) _ Hwf ltac:(lia) ltac:(lia) R)
    as (E8 & EL & EF);
  by_replace Hwf R.

Ltac single_removal Run Hwf id :=
  let v1 := fresh "v1" in
  let E := fresh "E" in
  let R := fresh "R" in
  resize_step Run Hwf id 0 v1 E R;
  unfold ret in Run; injection Run as <-;
  apply (remove_effect id _ v1 Hwf ltac:(lia) R).

(** *** path *)

Lemma set_encoded_path_effect (s : bytes) (v vf : basic_value) :
  wf v -> set_encoded_path s v = (vf, Ok tt) ->
  replaces 5 s v vf.
Proof.
  intros Hwf Run. unfold set_encoded_path in Run.
  destruct (empty s) eqn:Hs.
  - apply empty_nil in Hs. subst s. ids.
    resize_range_step Run Hwf 5 6 0 v1 E R.
    unfold ret in Run. injection Run as <-.
    apply (remove_effect 5 _ v1 Hwf ltac:(lia) R).
  - pass_check Run. ids.
    resize_range_step Run Hwf 5 6 (List.length s) v1 E R.
    finish_run Run.
    pose proof (wf_bound v1 8 (rs_wf R) ltac:(lia)) as Hb.
    destruct (resized_end _ v1 5 6 _ Hwf ltac:(lia) ltac:(lia) R)
      as (E8 & EL & EF).
    by_replace Hwf R.
Qed.

(** *** query *)

Lemma set_query_effect (s : bytes) (v vf : basic_value) :
  wf v -> set_query s v = (vf, Ok tt) ->
  replaces 6
    (if empty s then []
     else chr "?" :: pct.encode pct.query_pct_set (query_argument s)) v vf.
Proof.
  intros Hwf Run. unfold set_query in Run.
  destruct (empty s) eqn:Hs.
  - ids. single_removal Run Hwf 6.
  - cbv zeta in Run. fold (query_argument s) in Run.
    rewrite <- length_encode in Run. ids.
    single_region Run Hwf 6
      (1 + List.length (pct.encode pct.query_pct_set (query_argument s))).
Qed.

Lemma set_encoded_query_effect (s : bytes) (v vf : basic_value) :
  wf v -> set_encoded_query s v = (vf, Ok tt) ->
  replaces 6 (if empty s then [] else chr "?" :: query_argument s) v vf.
Proof.
  intros Hwf Run. unfold set_encoded_query in Run.
  destruct (empty s) eqn:Hs.
  - ids. single_removal Run Hwf 6.
  - cbv zeta in Run. fold (query_argument s) in Run.
    pass_check Run. ids.
    single_region Run Hwf 6 (1 + List.length (query_argument s)).
Qed.

(** *** fragment *)

Lemma set_fragment_effect (s : bytes) (v vf : basic_value) :
  wf v -> set_fragment s v = (vf, Ok tt) ->
  replaces 7
    (if empty s then [] else chr "#" :: pct.encode pct.frag_pct_set s) v vf.
Proof.
  intros Hwf Run. unfold set_fragment in Run.
  destruct (empty s) eqn:Hs.
  - ids. single_removal Run Hwf 7.
  - cbv zeta in Run. rewrite <- length_encode in Run. ids.
    single_region Run Hwf 7
      (1 + List.length (pct.encode pct.frag_pct_set s)).
Qed.

Lemma set_encoded_fragment_effect (s : bytes) (v vf : basic_value) :
  wf v -> set_encoded_fragment s v = (vf, Ok tt) ->
  replaces 7 (if empty s then [] else chr "#" :: s) v vf.
Proof.
  intros Hwf Run. unfold set_encoded_fragment in Run.
  destruct (empty s) eqn:Hs.
  - ids. single_removal Run Hwf 7.
  - cbv zeta in Run. pass_check Run. ids.
    single_region Run Hwf 7 (1 + List.length s).
Qed.

Lemma set_fragment_part_effect (s : bytes) (v vf : basic_value) :
  wf v -> set_fragment_part s v = (vf, Ok tt) ->
  replaces 7 s v vf /\ (s <> [] -> front s = chr "#").
Proof.
  intros Hwf Run. unfold set_fragment_part in Run.
  destruct (empty s) eqn:Hs.
  - apply empty_nil in Hs. subst s. split; [|congruence].
    unfold set_fragment in Run. cbn [empty] in Run. ids.
    single_removal Run Hwf 7.
  - destruct (Ascii.eqb_spec (front s) (chr "#")) as [Ef|Ef];
      cbn [negb] in Run; [|discriminate Run].
    split; [|intros _; exact Ef].
    cbv zeta in Run. pass_check Run. ids.
    assert (Es : s = chr "#" :: substr1 s).
    { destruct s as [|c r]; [discriminate Hs|].
      unfold front in Ef. cbn [nth] in Ef. subst c. reflexivity. }
    rewrite Es at 1. 
    single_region Run Hwf 7 (1 + List.length (substr1 s)).
Qed.

(** *** user and password *)

(** A resize of a range is a resize of any wider range whose extra
    components are empty. *)
Lemma resized_widen (v v1 : basic_value) (first last last' n : nat) :
  wf v -> first < last -> last <= last' -> last' <= 8 ->
  off v last' = off v last ->
  resized first last n v v1 ->
  resized first last' n v v1.
Proof.
  intros Hwf Hfl Hll Hl8 Heq R.
  assert (Hmid : forall i, last <= i -> i <= last' -> off v i = off v last).
  { intros i H1 H2. mono_facts Hwf last i. mono_facts Hwf i last'. lia. }
  constructor.
  - apply (rs_wf R).
  - apply (rs_port R).
  - apply (rs_host R).
  - apply (rs_nseg R).
  - apply (rs_nparam R).
  - apply (rs_before R).
  - intros i H1 H2. destruct (Nat.le_gt_cases i last) as [L|L].
    + apply (rs_inside R); lia.
    + pose proof (rs_after R i ltac:(lia) ltac:(lia)) as A.
      rewrite (Hmid i) in A by lia. mono_facts Hwf first last. lia.
  - intros i H1 H2. rewrite Heq. apply (rs_after R); lia.
  - intros i Hi. rewrite Heq in Hi. now apply (rs_prefix R).
  - intros i H1 H2. rewrite Heq. now apply (rs_suffix R).
Qed.

Lemma set_username_install (s : bytes) :
  s <> [] ->
  set_username s = install_user (pct.encode pct.userinfo_nc_pct_set s).
Proof.
  intros Hs. unfold set_username, install_user.
  destruct s as [|c r]; [contradiction|]. cbn [empty].
  cbv zeta. rewrite length_encode. reflexivity.
Qed.

Lemma set_encoded_username_install (s : bytes) (v : basic_value) :
  s <> [] ->
  pct.validate pct.userinfo_nc_pct_set s = Ok tt ->
  set_encoded_username s v = install_user s v.
Proof.
  intros Hs Hv. unfold set_encoded_username, install_user.
  destruct s as [|c r]; [contradiction|]. cbn [empty].
  cbv zeta. unfold bind at 1. unfold lift. rewrite Hv. reflexivity.
Qed.

Lemma region_nil_iff (v : basic_value) (j : nat) :
  wf v -> j < 8 -> (region v j = [] <-> off v (j + 1) - off v j = 0).
Proof.
  intros Hwf Hj. rewrite <- (region_length v j Hwf Hj).
  split; [intros ->; reflexivity|apply length_zero_iff_nil].
Qed.

(** Offsets in one form everywhere, for arithmetic. *)
Ltac ctx := unfold off in *; cbn [pt_ s_] in *.

Lemma install_user_effect (u : bytes) (v vf : basic_value) :
  wf v -> install_user u v = (vf, Ok tt) ->
  wf vf /\ same_fields v vf /\
  (forall j, j < 8 -> j = 0 \/ 3 <= j -> region vf j = region v j) /\
  skipn 2 (region vf 1) = u /\
  List.length (region vf 1) = 2 + List.length u /\
  (region v 2 = [] ->
   region vf 1 = str "//" ++ u /\ region vf 2 = [chr "@"]) /\
  (region v 2 <> [] ->
   region vf 2 = region v 2 /\
   (2 <= List.length (region v 1) ->
    firstn 2 (region vf 1) = firstn 2 (region v 1))).
Proof.
  intros Hwf Run. unfold install_user in Run. cbv zeta in Run.
  unfold bind at 1 in Run. unfold get_pt at 1 in Run.
  unfold detail.length in Run. ids. fold (off v 2) (off v 3) in Run.
  pose proof (region_nil_iff v 2 Hwf ltac:(lia)) as Hnil. ids.
  pose proof (region_length v 1 Hwf ltac:(lia)) as Hlen1. ids.
  mono_facts Hwf 1 2. mono_facts Hwf 2 3.
  destruct (Nat.eqb_spec (off v 3 - off v 2) 0) as [E0|E0]; cbn [negb] in Run.
  - (* no password: the slashes and the at-sign are written *)
    resize_step Run Hwf 1 (2 + List.length u + 1) v1 E R.
    finish_run Run. ids.
    apply (resized_widen v v1 1 2 3 _ Hwf) in R; try lia.
    destruct (resized_end v v1 1 3 _ Hwf ltac:(lia) ltac:(lia) R)
      as (E8 & EL & EF).
    pose proof (rs_wf R) as Hwf1. pose proof (wf_len Hwf1) as HL1.
    pose proof (wf_bound v1 8 Hwf1 ltac:(lia)) as Hb.
    set (S := write _ _ u).
    set (PT := detail.split _ _ (pt_ v1)).
    assert (O : forall k, detail.off PT k =
                          if k =? 2 then off v 1 + (2 + List.length u)
                          else detail.off (pt_ v1) k).
    { intros k. unfold PT. rewrite off_split, HL1. fold (off v1 1).
      rewrite EF. split_bools; try lia; reflexivity. }
    assert (HS : List.length S = List.length (s_ v1))
      by (unfold S; now rewrite !length_write).
    assert (F : filled 1 3 (2 + List.length u + 1) v v1 (mk_value PT S)).
    { constructor; ctx.
      - unfold PT. now rewrite length_split.
      - intros k Hk. rewrite O. split_bools; [lia|reflexivity].
      - intros k H1 H2. rewrite !O.
        split_bools; try lia.
        + replace (k + 1) with 3 by lia. lia.
        + replace k with 1 by lia. lia.
      - exact HS.
      - intros i Hi. unfold S. rd_fast. }
    split; [refine (filled_wf _ _ _ _ _ _ Hwf _ _ R F); lia|].
    split; [apply (resized_fields _ _ _ _ _ R)|].
    split.
    { intros j Hj Hout.
      refine (filled_region _ _ _ _ _ _ j Hwf _ _ R F _ _); lia. }
    assert (R1 : region (mk_value PT S) 1 = str "//" ++ u).
    { refine (filled_inside v v1 _ 1 3 _ 1 (str "//" ++ u) 0 Hwf _ _ R
                _ _ _ _ _); try lia; ctx;
        rewrite ?length_app; cbn [List.length str list_ascii_of_string];
        rewrite ?O; cbn [Nat.eqb Nat.add]; try lia; try assumption.
      intros k Hk. unfold S. rd_fast. }
    assert (R2 : region (mk_value PT S) 2 = [chr "@"]).
    { refine (filled_inside v v1 _ 1 3 _ 2 [chr "@"] (2 + List.length u)
                Hwf _ _ R _ _ _ _ _); try lia; ctx;
        cbn [List.length]; rewrite ?O; cbn [Nat.eqb Nat.add];
        try lia; try assumption.
      intros k Hk. unfold S. rd_fast. }
    rewrite R1, R2. cbn [skipn app str list_ascii_of_string].
    split; [reflexivity|]. split; [cbn [List.length]; lia|].
    split; [intros _; split; reflexivity|].
    intros Hne. exfalso. apply Hne, Hnil, E0.
  - (* a password exists: the user is written after the slashes *)
    resize_step Run Hwf 1 (2 + List.length u) v1 E R.
    finish_run Run. ids.
    destruct (resized_end v v1 1 2 _ Hwf ltac:(lia) ltac:(lia) R)
      as (E8 & EL & EF).
    pose proof (rs_wf R) as Hwf1.
    pose proof (wf_bound v1 8 Hwf1 ltac:(lia)) as Hb.
    set (W := sub (s_ v1) (off v 1) 2 ++ u).
    assert (HW2 : List.length (sub (s_ v1) (off v 1) 2) = 2)
      by (rewrite length_sub; lia).
    assert (Rep : replaces 1 W v
                    (mk_value (pt_ v1) (write (s_ v1) (off v 1 + 2) u))).
    { unfold replaces.
      refine (replace_effect _ _ _ _ _ v1 Hwf _ R _ _ _ _).
      - lia.
      - unfold W. rewrite length_app. lia.
      - now rewrite length_write.
      - intros i Hi. rd_fast.
      - intros k Hk. unfold W. rewrite rd_app, HW2, rd_sub. rd_fast. }
    destruct Rep as (Hwff & Hfl & Hr1 & Hfr).
    split; [exact Hwff|]. split; [exact Hfl|].
    split; [intros j Hj Hout; apply Hfr; lia|].
    rewrite Hr1. unfold W.
    split.
    { rewrite skipn_app, HW2. rewrite skipn_all2 by lia. reflexivity. }
    split; [rewrite length_app; lia|].
    split; [intros Hn; apply Hnil in Hn; lia|].
    intros _. split; [apply Hfr; lia|].
    intros H2. rewrite firstn_app, HW2, Nat.sub_diag, firstn_O, app_nil_r.
    rewrite firstn_all2 by lia.
    unfold region, detail.get, detail.length. ids.
    fold (off v 1) (off v 2). unfold sub at 2.
    rewrite firstn_firstn. replace (Nat.min 2 (off v 2 - off v 1)) with 2 by lia.
    fold (sub (s_ v) (off v 1) 2).
    pose proof (wf_bound v 2 Hwf ltac:(lia)).
    apply sub_ext; try lia.
    intros k Hk. apply (rs_prefix R). lia.
Qed.

Lemma install_password_effect (p : bytes) (v vf : basic_value) :
  wf v -> install_password p v = (vf, Ok tt) ->
  wf vf /\ same_fields v vf /\
  (forall j, j < 8 -> j = 0 \/ 3 <= j -> region vf j = region v j) /\
  region vf 2 = chr ":" :: p ++ [chr "@"] /\
  (region v 1 = [] -> region vf 1 = str "//") /\
  (region v 1 <> [] -> region vf 1 = region v 1).
Proof.
  intros Hwf Run. unfold install_password in Run. cbv zeta in Run.
  unfold bind at 1 in Run. unfold get_pt at 1 in Run.
  unfold detail.length in Run. ids. fold (off v 1) (off v 2) in Run.
  pose proof (region_nil_iff v 1 Hwf ltac:(lia)) as Hnil. ids.
  mono_facts Hwf 1 2. mono_facts Hwf 2 3.
  destruct (Nat.eqb_spec (off v 2 - off v 1) 0) as [E0|E0]; cbn [negb] in Run.
  - (* no user region: slashes, colon, password, at-sign *)
    resize_range_step Run Hwf 1 3 (3 + List.length p + 1) v1 E R.
    finish_run Run. ids.
    destruct (resized_end v v1 1 3 _ Hwf ltac:(lia) ltac:(lia) R)
      as (E8 & EL & EF).
    pose proof (rs_wf R) as Hwf1. pose proof (wf_len Hwf1) as HL1.
    pose proof (wf_bound v1 8 Hwf1 ltac:(lia)) as Hb.
    set (S := write _ _ p).
    set (PT := detail.split _ _ (pt_ v1)).
    assert (O : forall k, detail.off PT k =
                          if k =? 2 then off v 1 + 2
                          else detail.off (pt_ v1) k).
    { intros k. unfold PT. rewrite off_split, HL1. fold (off v1 1).
      rewrite EF. split_bools; try lia; reflexivity. }
    assert (HS : List.length S = List.length (s_ v1))
      by (unfold S; now rewrite !length_write).
    assert (F : filled 1 3 (3 + List.length p + 1) v v1 (mk_value PT S)).
    { constructor; ctx.
      - unfold PT. now rewrite length_split.
      - intros k Hk. rewrite O. split_bools; [lia|reflexivity].
      - intros k H1 H2. rewrite !O.
        split_bools; try lia.
        + replace (k + 1) with 3 by lia. lia.
        + replace k with 1 by lia. lia.
      - exact HS.
      - intros i Hi. unfold S. rd_fast. }
    split; [refine (filled_wf _ _ _ _ _ _ Hwf _ _ R F); lia|].
    split; [apply (resized_fields _ _ _ _ _ R)|].
    split.
    { intros j Hj Hout.
      refine (filled_region _ _ _ _ _ _ j Hwf _ _ R F _ _); lia. }
    split.
    { refine (filled_inside v v1 _ 1 3 _ 2 (chr ":" :: p ++ [chr "@"]) 2
                Hwf _ _ R _ _ _ _ _); try lia; ctx;
        cbn [List.length]; rewrite ?length_app; cbn [List.length];
        rewrite ?O; cbn [Nat.eqb Nat.add]; try lia; try assumption.
      intros k Hk. unfold S. rd_fast. }
    split; [|intros Hne; exfalso; apply Hne, Hnil, E0].
    intros _.
    refine (filled_inside v v1 _ 1 3 _ 1 (str "//") 0
              Hwf _ _ R _ _ _ _ _); try lia; ctx;
      cbn [List.length str list_ascii_of_string];
      rewrite ?O; cbn [Nat.eqb Nat.add]; try lia; try assumption.
    intros k Hk. unfold S. rd_fast.
  - (* a user region exists: only the password region is resized *)
    resize_step Run Hwf 2 (1 + List.length p + 1) v1 E R.
    finish_run Run. ids.
    destruct (resized_end v v1 2 3 _ Hwf ltac:(lia) ltac:(lia) R)
      as (E8 & EL & EF).
    pose proof (wf_bound v1 8 (rs_wf R) ltac:(lia)) as Hb.
    match goal with
    | |- wf ?vf /\ _ =>
        assert (Rep : replaces 2 (chr ":" :: p ++ [chr "@"]) v vf)
    end.
    { by_replace Hwf R. }
    destruct Rep as (Hwff & Hfl & Hr2 & Hfr).
    split; [exact Hwff|]. split; [exact Hfl|].
    split; [intros j Hj Hout; apply Hfr; lia|].
    split; [exact Hr2|].
    split; [intros Hn; apply Hnil in Hn; lia|].
    intros _. apply Hfr; lia.
Qed.

(** Removal of the user: the branch of [set_username] for an empty
    string. *)
Lemma remove_user_effect (v vf : basic_value) :
  wf v -> set_username [] v = (vf, Ok tt) ->
  wf vf /\ same_fields v vf /\
  (forall j, j < 8 -> j = 0 \/ 3 <= j -> region vf j = region v j) /\
  (region v 1 = [] -> vf = v).
Proof.
  intros Hwf Run. unfold set_username in Run. cbn [empty] in Run.
  unfold bind at 1 in Run. unfold get_pt at 1 in Run.
  unfold detail.length in Run. ids.
  fold (off v 1) (off v 2) (off v 3) in Run.
  pose proof (region_nil_iff v 1 Hwf ltac:(lia)) as Hnil. ids.
  destruct (Nat.eqb_spec (off v 2 - off v 1) 0) as [E0|E0].
  - unfold ret in Run. injection Run as <-.
    split; [exact Hwf|]. split; [apply same_fields_refl|].
    split; reflexivity.
  - destruct (Nat.eqb_spec (off v 3 - off v 2) 1) as [E1|E1].
    + resize_range_step Run Hwf 1 3 2 v1 E R.
      unfold ret in Run. injection Run as <-.
      pose proof (filled_same v v1 1 3 2 Hwf ltac:(lia) ltac:(lia) R) as F.
      split; [apply (rs_wf R)|].
      split; [apply (resized_fields _ _ _ _ _ R)|].
      split; [|intros Hn; apply Hnil in Hn; lia].
      intros j Hj Hout.
      refine (filled_region _ _ _ _ _ _ j Hwf _ _ R F _ _); lia.
    + resize_step Run Hwf 1 2 v1 E R.
      unfold ret in Run. injection Run as <-.
      pose proof (filled_same v v1 1 2 2 Hwf ltac:(lia) ltac:(lia) R) as F.
      split; [apply (rs_wf R)|].
      split; [apply (resized_fields _ _ _ _ _ R)|].
      split; [|intros Hn; apply Hnil in Hn; lia].
      intros j Hj Hout.
      refine (filled_region _ _ _ _ _ _ j Hwf _ _ R F _ _); lia.
Qed.

(** Removal of the password: the branch of [set_password] for an empty
    string.  The at-sign stays exactly when a user is left before it. *)
Lemma remove_password_effect (v vf : basic_value) :
  wf v -> set_password [] v = (vf, Ok tt) ->
  replaces 2
    (if empty (region v 2) then []
     else if List.length (region v 1) =? 2 then [] else [chr "@"]) v vf /\
  (region v 2 = [] -> vf = v).
Proof.
  intros Hwf Run. unfold set_password in Run. cbn [empty] in Run.
  cbv zeta in Run.
  unfold bind at 1 in Run. unfold get_pt at 1 in Run.
  unfold detail.length in Run. ids.
  fold (off v 1) (off v 2) (off v 3) in Run.
  pose proof (region_nil_iff v 2 Hwf ltac:(lia)) as Hnil. ids.
  rewrite (region_length v 1 Hwf ltac:(lia)). ids.
  destruct (Nat.eqb_spec (off v 3 - off v 2) 0) as [E0|E0].
  - unfold ret in Run. injection Run as <-.
    apply Hnil in E0. rewrite E0. cbn [empty].
    split; [|reflexivity].
    unfold replaces. split; [exact Hwf|]. split; [apply same_fields_refl|].
    split; [exact E0|reflexivity].
  - assert (Hne : empty (region v 2) = false).
    { destruct (region v 2) eqn:Er; [|reflexivity].
      exfalso. apply E0, Hnil. reflexivity. }
    rewrite Hne.
    split; [|intros Hn; apply Hnil in Hn; lia].
    destruct (Nat.eqb_spec (off v 2 - off v 1) 2) as [E1|E1].
    + single_removal Run Hwf 2.
    + single_region Run Hwf 2 1.
Qed.

Lemma off_split_known (pt : detail.parts) (id n k : nat) :
  List.length (detail.offset pt) = 9 -> id < 8 ->
  detail.off (detail.split id n pt) k =
  if k =? id + 1 then detail.off pt id + n else detail.off pt k.
Proof.
  intros H9 Hid. rewrite off_split, H9.
  destruct (Nat.ltb_spec (id + 1) 9); [|lia].
  now rewrite andb_true_r.
Qed.

(** The offsets of a table after a chain of splits, one split at a time. *)
Ltac split_chain HL1 :=
  repeat (rewrite off_split_known by (rewrite ?length_split; (exact HL1 || lia));
          cbn [Nat.eqb Nat.add]).

Ltac if_chain :=
  repeat match goal with
    | |- context [?a =? ?b] => destruct (Nat.eqb_spec a b)
    end;
  first [ reflexivity | lia ].


(** *** port *)

Lemma wf_eta (v : basic_value) : mk_value (pt_ v) (s_ v) = v.
Proof. now destruct v. Qed.

Lemma set_port_effect (num : option N) (v vf : basic_value) :
  wf v -> set_port num v = (vf, Ok tt) ->
  wf vf /\
  detail.port (pt_ vf) = num /\
  detail.host (pt_ vf) = detail.host (pt_ v) /\
  (forall j, j < 8 -> j = 0 \/ 5 <= j -> region vf j = region v j) /\
  region vf 4 =
    match num with
    | None => []
    | Some n => chr ":" :: grammar.port_string n
    end /\
  (num <> None -> off v 5 - off v 1 = 0 ->
   region vf 1 = str "//" /\ region vf 2 = [] /\ region vf 3 = []) /\
  (num = None \/ off v 5 - off v 1 <> 0 ->
   forall j, 1 <= j -> j <= 3 -> region vf j = region v j).
Proof.
  intros Hwf Run. unfold set_port in Run.
  destruct num as [n|].
  - set (p := grammar.port_string n) in *.
    unfold bind at 1 in Run. unfold bind at 1 in Run.
    unfold get_pt at 1 in Run.
    unfold detail.length_range in Run. ids. fold (off v 5) (off v 1) in Run.
    mono_facts Hwf 1 2. mono_facts Hwf 2 3. mono_facts Hwf 3 4.
    mono_facts Hwf 4 5.
    destruct (Nat.eqb_spec (off v 5 - off v 1) 0) as [E0|E0].
    + (* add authority *)
      resize_step Run Hwf 1 (3 + List.length p) v1 E R.
      finish_run Run. ids.
      apply (resized_widen v v1 1 2 5 _ Hwf) in R; try lia.
      destruct (resized_end v v1 1 5 _ Hwf ltac:(lia) ltac:(lia) R)
        as (E8 & EL & EF).
      pose proof (rs_wf R) as Hwf1. pose proof (wf_len Hwf1) as HL1.
      pose proof (wf_bound v1 8 Hwf1 ltac:(lia)) as Hb.
      set (S := write _ _ p).
      set (PT := detail.set_port _ _).
      assert (O : forall k, detail.off PT k =
                            if k =? 2 then off v 1 + 2
                            else if k =? 3 then off v 1 + 2
                            else if k =? 4 then off v 1 + 2
                            else detail.off (pt_ v1) k).
      { intros k. unfold PT. rewrite off_set_port.
        split_chain HL1. fold (off v1 1). rewrite EF. if_chain. }
      assert (HS : List.length S = List.length (s_ v1))
        by (unfold S; now rewrite !length_write).
      assert (F : filled 1 5 (3 + List.length p) v v1 (mk_value PT S)).
      { constructor; ctx.
        - unfold PT, detail.set_port. cbn [detail.offset].
          now rewrite !length_split.
        - intros k Hk. rewrite O. split_bools; try lia; reflexivity.
        - intros k Hk1 Hk2. rewrite !O.
          split_bools; try lia.
          + replace (k + 1) with 5 by lia. lia.
          + replace k with 1 by lia. lia.
        - exact HS.
        - intros i Hi. unfold S. rd_fast. }
      split; [refine (filled_wf _ _ _ _ _ _ Hwf _ _ R F); lia|].
      split; [reflexivity|].
      split; [cbn [pt_ PT detail.set_port detail.host detail.split
                   detail.set_off]; apply (rs_host R)|].
      split.
      { intros j Hj Hout.
        refine (filled_region _ _ _ _ _ _ j Hwf _ _ R F _ _); lia. }
      split.
      { refine (filled_inside v v1 _ 1 5 _ 4 (chr ":" :: p) 2
                  Hwf _ _ R _ _ _ _ _); try lia; ctx;
          cbn [List.length];
          rewrite ?O; cbn [Nat.eqb Nat.leb Nat.add andb];
          try lia; try assumption.
        intros k Hk. unfold S. rd_fast. }
      split; [|intros [Hn|Hn]; [discriminate Hn|lia]].
      intros _ _.
      split; [|split].
      * refine (filled_inside v v1 _ 1 5 _ 1 (str "//") 0
                  Hwf _ _ R _ _ _ _ _); try lia; ctx;
          cbn [List.length str list_ascii_of_string];
          rewrite ?O; cbn [Nat.eqb Nat.leb Nat.add andb];
          try lia; try assumption.
        intros k Hk. unfold S. rd_fast.
      * refine (filled_inside v v1 _ 1 5 _ 2 [] 2
                  Hwf _ _ R _ _ _ _ _); try lia; ctx;
          cbn [List.length];
          rewrite ?O; cbn [Nat.eqb Nat.leb Nat.add andb];
          try lia; try assumption.
      * refine (filled_inside v v1 _ 1 5 _ 3 [] 2
                  Hwf _ _ R _ _ _ _ _); try lia; ctx;
          cbn [List.length];
          rewrite ?O; cbn [Nat.eqb Nat.leb Nat.add andb];
          try lia; try assumption.
    + (* the authority exists: only the port region is resized *)
      resize_step Run Hwf 4 (1 + List.length p) v1 E R.
      finish_run Run. ids.
      destruct (resized_end v v1 4 5 _ Hwf ltac:(lia) ltac:(lia) R)
        as (E8 & EL & EF).
      pose proof (wf_bound v1 8 (rs_wf R) ltac:(lia)) as Hb.
      set (S := write _ _ p).
      assert (Rep : replaces 4 (chr ":" :: p) v (mk_value (pt_ v1) S)).
      { unfold S. by_replace Hwf R. }
      destruct Rep as (Hwff & Hfl & Hr & Hfr).
      split; [apply (wf_fields (pt_ v1)); [reflexivity|exact Hwff]|].
      split; [reflexivity|].
      split; [apply Hfl|].
      split; [intros j Hj Hout; apply (Hfr j); lia|].
      split; [exact Hr|].
      split; [intros _ Hz; lia|].
      intros _ j Hj1 Hj3. apply (Hfr j); lia.
  - ids. resize_step Run Hwf 4 0 v1 E R.
    unfold modify_pt in Run. injection Run as <-.
    pose proof (remove_effect 4 v v1 Hwf ltac:(lia) R) as Rep.
    rewrite <- (wf_eta v1) in Rep.
    destruct Rep as (Hwff & Hfl & Hr & Hfr).
    split; [apply (wf_fields (pt_ v1)); [reflexivity|exact Hwff]|].
    split; [reflexivity|].
    split; [apply Hfl|].
    split; [intros j Hj Hout; apply (Hfr j); lia|].
    split; [exact Hr|].
    split; [intros Hn; contradiction|].
    intros _ j Hj1 Hj3. apply (Hfr j); lia.
Qed.

(** *** userinfo *)

Lemma filled_range_inside (v v1 vf : basic_value) (first last n i j : nat)
    (W : bytes) (a : nat) :
  wf v -> first < last -> last <= 8 ->
  resized first last n v v1 ->
  List.length (s_ vf) = List.length (s_ v1) ->
  off vf i = off v first + a ->
  off vf j = off v first + a + List.length W ->
  a + List.length W <= n ->
  (forall k, k < List.length W -> rd (s_ vf) (off v first + a + k) = rd W k) ->
  detail.get_range (pt_ vf) i j (s_ vf) = W.
Proof.
  intros Hwf Hfl Hl R Hbuf Hi Hj Ha Hrd.
  pose proof (rs_wf R) as Hwf1.
  destruct (resized_end v v1 first last n Hwf Hfl Hl R) as (E8 & EL & EF).
  pose proof (wf_bound v1 8 Hwf1 ltac:(lia)) as Hb.
  unfold detail.get_range, detail.length_range.
  fold (off vf i) (off vf j). rewrite Hi, Hj.
  replace (off v first + a + List.length W - (off v first + a))
    with (List.length W) by lia.
  apply sub_is; [rewrite Hbuf; lia|exact Hrd].
Qed.

Lemma parse_bound (e : pct.pct_set) (n0 : nat) : forall (s : bytes) (n : nat),
  List.length s <= n0 -> pct.parse e s = Ok n -> n <= List.length s.
Proof.
  induction n0 as [|n0 IH]; intros s n Hl H.
  - destruct s; [|simpl in Hl; lia]. simpl in H. injection H as <-. simpl. lia.
  - destruct s as [|c r]; [simpl in H; injection H as <-; simpl; lia|].
    cbn [pct.parse] in H.
    destruct (Ascii.eqb c pct.percent).
    + destruct r as [|h [|l r']]; try discriminate H.
      destruct (chars.is_hexdig h && chars.is_hexdig l); [|discriminate H].
      destruct (pct.parse e r') as [m|x] eqn:Em; [|discriminate H].
      injection H as <-. apply IH in Em; simpl in *; lia.
    + destruct (pct.mask e c).
      * destruct (pct.parse e r) as [m|x] eqn:Em; [|discriminate H].
        injection H as <-. apply IH in Em; simpl in *; lia.
      * injection H as <-. lia.
Qed.

Lemma set_encoded_userinfo_effect (s : bytes) (v vf : basic_value) :
  wf v -> set_encoded_userinfo s v = (vf, Ok tt) ->
  wf vf /\ same_fields v vf /\
  (forall j, j < 8 -> j = 0 \/ 3 <= j -> region vf j = region v j) /\
  (s <> [] ->
   detail.get_range (pt_ vf) 1 3 (s_ vf) = str "//" ++ s ++ [chr "@"] /\
   exists n0, pct.parse pct.userinfo_nc_pct_set s = Ok n0 /\
              n0 <= List.length s /\
              off vf 2 = off vf 1 + n0) /\
  (s = [] ->
   detail.length_range (pt_ vf) 1 3 =
   if detail.length_range (pt_ v) 3 5 =? 0 then 0 else 2).
Proof.
  intros Hwf Run. unfold set_encoded_userinfo in Run.
  destruct (empty s) eqn:Hs.
  - apply empty_nil in Hs. subst s.
    unfold bind at 1 in Run. unfold get_pt at 1 in Run.
    assert (Hrm : forall n v1,
              resized 1 3 n v v1 ->
              wf v1 /\ same_fields v v1 /\
              (forall j, j < 8 -> j = 0 \/ 3 <= j ->
                         region v1 j = region v j) /\
              detail.length_range (pt_ v1) 1 3 = n).
    { intros n v1 R.
      pose proof (filled_same v v1 1 3 n Hwf ltac:(lia) ltac:(lia) R) as F.
      destruct (resized_end v v1 1 3 _ Hwf ltac:(lia) ltac:(lia) R)
        as (E8 & EL & EF).
      split; [apply (rs_wf R)|].
      split; [apply (resized_fields _ _ _ _ _ R)|].
      split.
      - intros j Hj Hout.
        refine (filled_region _ _ _ _ _ _ j Hwf _ _ R F _ _); lia.
      - unfold detail.length_range. fold (off v1 3) (off v1 1). lia. }
    ids.
    destruct (detail.length_range (pt_ v) 3 5 =? 0).
    + resize_range_step Run Hwf 1 3 0 v1 E R.
      unfold ret in Run. injection Run as <-.
      destruct (Hrm 0 v1 R) as (H1 & H2 & H3 & H4).
      repeat (split; [assumption|]).
      split; [intros Hn; contradiction|intros _; exact H4].
    + resize_range_step Run Hwf 1 3 2 v1 E R.
      unfold ret in Run. injection Run as <-.
      destruct (Hrm 2 v1 R) as (H1 & H2 & H3 & H4).
      repeat (split; [assumption|]).
      split; [intros Hn; contradiction|intros _; exact H4].
  - unfold bind at 1 in Run.
    destruct (pct.parse pct.userinfo_nc_pct_set s) as [n0|x] eqn:P0;
      [|discriminate Run].
    cbn [check_ec] in Run. unfold ret at 1 in Run.
    unfold bind at 1 in Run.
    destruct (pct.parse pct.userinfo_pct_set (skipn n0 s)) as [n1|x] eqn:P1;
      [|discriminate Run].
    cbn [check_ec] in Run. unfold ret at 1 in Run.
    destruct (Nat.eqb_spec (n0 + n1) (List.length s)) as [En|En];
      cbn [negb] in Run; [|discriminate Run].
    pose proof (parse_bound _ _ s n0 (Nat.le_refl _) P0) as Hn0.
    ids.
    resize_range_step Run Hwf 1 3 (2 + List.length s + 1) v1 E R.
    finish_run Run. ids.
    destruct (resized_end v v1 1 3 _ Hwf ltac:(lia) ltac:(lia) R)
      as (E8 & EL & EF).
    pose proof (rs_wf R) as Hwf1. pose proof (wf_len Hwf1) as HL1.
    pose proof (wf_bound v1 8 Hwf1 ltac:(lia)) as Hb.
    match goal with
    | |- wf (mk_value ?pt ?b) /\ _ => set (S := b); set (PT := pt)
    end.
    assert (O : forall k, detail.off PT k =
                          if k =? 2 then off v 1 + n0
                          else detail.off (pt_ v1) k).
    { intros k. unfold PT. rewrite off_split, HL1. fold (off v1 1).
      rewrite EF. split_bools; try lia; reflexivity. }
    assert (HS : List.length S = List.length (s_ v1))
      by (unfold S; now rewrite !length_write).
    assert (F : filled 1 3 (2 + List.length s + 1) v v1 (mk_value PT S)).
    { constructor; ctx.
      - unfold PT. now rewrite length_split.
      - intros k Hk. rewrite O. split_bools; [lia|reflexivity].
      - intros k Hk1 Hk2. rewrite !O.
        split_bools; try lia.
        + replace (k + 1) with 3 by lia. lia.
        + replace k with 1 by lia. lia.
      - exact HS.
      - intros i Hi. unfold S. rd_fast. }
    split; [refine (filled_wf _ _ _ _ _ _ Hwf _ _ R F); lia|].
    split; [apply (resized_fields _ _ _ _ _ R)|].
    split.
    { intros j Hj Hout.
      refine (filled_region _ _ _ _ _ _ j Hwf _ _ R F _ _); lia. }
    split; [|intros ->; discriminate Hs].
    intros _. split.
    + change (detail.get_range PT 1 3 S)
        with (detail.get_range (pt_ (mk_value PT S)) 1 3 (s_ (mk_value PT S))).
      refine (filled_range_inside v v1 (mk_value PT S) 1 3 _ 1 3
                (str "//" ++ s ++ [chr "@"]) 0 Hwf _ _ R _ _ _ _ _);
        try lia; ctx;
        rewrite ?length_app; cbn [List.length str list_ascii_of_string];
        rewrite ?length_app; cbn [List.length];
        rewrite ?O; cbn [Nat.eqb Nat.add]; try lia; try assumption.
      intros k Hk. unfold S. cbn [app]. rd_fast.
    + exists n0. split; [reflexivity|]. split; [exact Hn0|].
      ctx. rewrite !O. cbn [Nat.eqb]. lia.
Qed.

(** *** the encoded setters of the user and the password *)

Lemma set_encoded_username_ok (s : bytes) (v vf : basic_value) :
  set_encoded_username s v = (vf, Ok tt) -> s <> [] ->
  pct.validate pct.userinfo_nc_pct_set s = Ok tt /\
  install_user s v = (vf, Ok tt).
Proof.
  intros Run Hs. unfold set_encoded_username in Run.
  destruct s as [|c r]; [contradiction|]. cbn [empty] in Run.
  cbv zeta in Run. unfold bind at 1 in Run. unfold lift at 1 in Run.
  destruct (pct.validate pct.userinfo_nc_pct_set (c :: r)) as [[]|x];
    [|discriminate Run].
  split; [reflexivity|exact Run].
Qed.

Lemma set_encoded_password_ok (s : bytes) (v vf : basic_value) :
  set_encoded_password s v = (vf, Ok tt) -> s <> [] ->
  front s <> chr ":" /\
  pct.validate pct.userinfo_pct_set s = Ok tt /\
  install_password s v = (vf, Ok tt).
Proof.
  intros Run Hs. unfold set_encoded_password in Run.
  destruct s as [|c r]; [contradiction|]. cbn [empty] in Run.
  cbv zeta in Run.
  destruct (Ascii.eqb_spec (nth 0 (c :: r) NUL) (chr ":")) as [Ec|Ec];
    [discriminate Run|].
  unfold bind at 1 in Run. unfold lift at 1 in Run.
  destruct (pct.validate pct.userinfo_pct_set (c :: r)) as [[]|x];
    [|discriminate Run].
  split; [exact Ec|]. split; [reflexivity|exact Run].
Qed.

Lemma set_port_string_ok (s : bytes) (v vf : basic_value) :
  set_port_string s v = (vf, Ok tt) ->
  exists num, set_port num v = (vf, Ok tt) /\
              (s = [] -> num = None) /\
              (s <> [] -> grammar.parse_port s = Ok num).
Proof.
  intros Run. unfold set_port_string in Run.
  destruct s as [|c r]; cbn [empty] in Run.
  - exists None. split; [exact Run|]. split; [reflexivity|congruence].
  - unfold bind at 1 in Run. unfold lift at 1 in Run.
    destruct (grammar.parse_port (c :: r)) as [num|x]; [|discriminate Run].
    exists num. split; [exact Run|]. split; [discriminate|reflexivity].
Qed.

(* ================================================================== *)
(** ** Setters that call the grammar *)
(* ================================================================== *)

Section GrammarEffects.

Context {G : Grammar}.

(** *** host name *)

Lemma set_encoded_hostname_effect (s : bytes) (v vf : basic_value) :
  wf v -> set_encoded_hostname s v = (vf, Ok tt) ->
  wf vf /\
  region vf 3 = s /\
  (forall j, j < 8 -> j <> 3 -> region vf j = region v j) /\
  detail.port (pt_ vf) = detail.port (pt_ v) /\
  (s <> [] -> exists pt, parse_hostname s = Ok pt /\
                         detail.host (pt_ vf) = detail.host pt).
Proof.
  intros Hwf Run. unfold set_encoded_hostname in Run.
  destruct (empty s) eqn:Hs.
  - apply empty_nil in Hs. subst s.
    unfold set_hostname in Run. cbn [empty] in Run. ids.
    assert (Rep : replaces 3 [] v vf) by (single_removal Run Hwf 3).
    destruct Rep as (H1 & H2 & H3 & H4).
    split; [exact H1|]. split; [exact H3|]. split; [exact H4|].
    split; [apply H2|]. intros Hn. contradiction.
  - unfold bind at 1 in Run. unfold lift at 1 in Run.
    destruct (parse_hostname s) as [pt|x] eqn:P; [|discriminate Run].
    ids. resize_step Run Hwf 3 (List.length s) v1 E R.
    finish_run Run. ids.
    destruct (resized_end v v1 3 4 _ Hwf ltac:(lia) ltac:(lia) R)
      as (E8 & EL & EF).
    pose proof (wf_bound v1 8 (rs_wf R) ltac:(lia)) as Hb.
    assert (Rep : replaces 3 s v
                    (mk_value (pt_ v1) (write (s_ v1) (off v 3) s))).
    { by_replace Hwf R. }
    destruct Rep as (H1 & H2 & H3 & H4).
    split; [apply (wf_fields (pt_ v1)); [reflexivity|exact H1]|].
    split; [exact H3|]. split; [exact H4|].
    split; [apply H2|].
    intros _. exists pt. split; reflexivity.
Qed.

(** [set_hostname] stores the encoded name and then parses the stored
    host: whatever the parser says, the name has been replaced. *)
Lemma set_hostname_outcome (s : bytes) (v vf : basic_value)
    (r : outcome unit) :
  wf v -> s <> [] -> set_hostname s v = (vf, r) ->
  (vf = v /\ r = Raise too_large) \/
  (wf vf /\
   region vf 3 = pct.encode pct.reg_name_pct_set s /\
   (forall j, j < 8 -> j <> 3 -> region vf j = region v j) /\
   detail.port (pt_ vf) = detail.port (pt_ v) /\
   match parse_hostname (encoded_host vf) with
   | Ok pt => r = Ok tt /\ detail.host (pt_ vf) = detail.host pt
   | Raise e => r = Raise e /\ detail.host (pt_ vf) = detail.host (pt_ v)
   end).
Proof.
  intros Hwf Hs Run. unfold set_hostname in Run.
  destruct s as [|c s0]; [contradiction|]. cbn [empty] in Run.
  remember (c :: s0) as s eqn:Es. clear Es Hs c s0.
  cbv zeta in Run. rewrite <- length_encode in Run. ids.
  set (enc := pct.encode pct.reg_name_pct_set s) in *.
  destruct (resize_cases v 3 (List.length enc) Hwf ltac:(lia))
    as [E|(v1 & E & R)].
  { left. unfold bind at 1 in Run. rewrite E in Run.
    injection Run as <- <-. split; reflexivity. }
  right. rewrite (bind_ok _ _ _ _ _ E) in Run.
  unfold store at 1 in Run. unfold bind at 1 in Run.
  unfold modify_s at 1 in Run. unfold bind at 1 in Run.
  destruct (resized_end v v1 3 4 _ Hwf ltac:(lia) ltac:(lia) R)
    as (E8 & EL & EF).
  pose proof (wf_bound v1 8 (rs_wf R) ltac:(lia)) as Hb.
  set (v2 := mk_value (pt_ v1) (write (s_ v1) (off v 3) enc)) in *.
  assert (Rep : replaces 3 enc v v2).
  { unfold v2. by_replace Hwf R. }
  destruct Rep as (H1 & H2 & H3 & H4).
  unfold bind at 1 in Run. unfold lift at 1 in Run.
  destruct (parse_hostname (encoded_host v2)) as [pt|x] eqn:P.
  - unfold modify_pt in Run. injection Run as <- <-.
    split; [apply (wf_fields (pt_ v2)); [reflexivity|exact H1]|].
    split; [exact H3|]. split; [exact H4|]. split; [apply H2|].
    match goal with
    | |- context [parse_hostname (encoded_host ?x)] =>
        change (encoded_host x) with (encoded_host v2)
    end.
    rewrite P. split; reflexivity.
  - injection Run as <- <-.
    split; [exact H1|]. split; [exact H3|]. split; [exact H4|].
    split; [apply H2|]. rewrite P. split; [reflexivity|apply H2].
Qed.

Lemma setter_eq_dec (a b : setter) : {a = b} + {a <> b}.
Proof. decide equality. Qed.

Lemma safe_set_hostname_empty (v vf : basic_value) (e : error) :
  set_hostname [] v = (vf, Raise e) -> vf = v.
Proof.
  unfold set_hostname. cbn [empty]. unfold ignore. intros Run.
  assert (S : safe (_ <- resize detail.id_hostname 0 ;; ret tt)).
  { apply safe_bind_total; [apply safe_resize|intros; apply total_ret]. }
  apply (S v vf e Run).
Qed.

(** *** every setter that builds its own table keeps the invariant *)

Lemma run_ok_wf (op : setter) (s : bytes) (v vf : basic_value) :
  wf v -> table_free op = true ->
  run op s v = (vf, Ok tt) -> wf vf.
Proof.
  intros Hwf Hop Run.
  destruct op; cbn [run] in Run; try discriminate Hop.
  - apply (set_scheme_effect s v vf Hwf Run).
  - apply (set_encoded_userinfo_effect s v vf Hwf Run).
  - destruct s as [|c r].
    + unfold set_encoded_username in Run. cbn [empty] in Run.
      apply (remove_user_effect v vf Hwf Run).
    + destruct (set_encoded_username_ok _ v vf Run) as (_ & Hi);
        [discriminate|].
      apply (install_user_effect _ v vf Hwf Hi).
  - destruct s as [|c r].
    + unfold set_encoded_password in Run. cbn [empty] in Run.
      apply (remove_password_effect v vf Hwf Run).
    + destruct (set_encoded_password_ok _ v vf Run) as (_ & _ & Hi);
        [discriminate|].
      apply (install_password_effect _ v vf Hwf Hi).
  - apply (set_encoded_hostname_effect s v vf Hwf Run).
  - destruct (set_port_string_ok s v vf Run) as (num & Hp & _).
    apply (set_port_effect num v vf Hwf Hp).
  - apply (set_encoded_path_effect s v vf Hwf Run).
  - apply (set_encoded_query_effect s v vf Hwf Run).
  - apply (set_encoded_fragment_effect s v vf Hwf Run).
  - apply (set_fragment_part_effect s v vf Hwf Run).
  - destruct s as [|c r].
    + apply (remove_user_effect v vf Hwf Run).
    + rewrite set_username_install in Run by discriminate.
      apply (install_user_effect _ v vf Hwf Run).
  - destruct s as [|c r].
    + apply (remove_password_effect v vf Hwf Run).
    + rewrite set_password_install in Run by discriminate.
      apply (install_password_effect _ v vf Hwf Run).
  - destruct s as [|c r].
    + unfold set_hostname in Run. cbn [empty] in Run. ids.
      assert (Rep : replaces 3 [] v vf) by (single_removal Run Hwf 3).
      apply Rep.
    + assert (Hne : c :: r <> []) by discriminate.
      destruct (set_hostname_outcome _ v vf _ Hwf Hne Run)
        as [[_ Hr]|(H & _)]; [discriminate Hr|exact H].
  - apply (set_query_effect s v vf Hwf Run).
  - apply (set_fragment_effect s v vf Hwf Run).
Qed.

(** X6.  Every string setter that builds its own table keeps the
    structural invariant, whatever its argument and whether it returns or
    raises (fifteen setters: all but the four that copy lengths out of a
    parser's table); so does [set_port] for every port number. *)
Theorem setters_keep_invariant (op : setter) (s : bytes) (num : option N)
    (v : basic_value) :
  invariant v = true ->
  (table_free op = true -> invariant (exec (run op s) v) = true) /\
  invariant (exec (set_port num) v) = true.
Proof.
  intros Hinv. pose proof (invariant_wf v Hinv) as Hwf. split.
  - intros Hop. unfold exec.
    destruct (run op s v) as [vf [[]|e]] eqn:Run; cbn [fst].
    + apply wf_invariant. apply (run_ok_wf op s v vf Hwf Hop Run).
    + destruct (setter_eq_dec op op_set_hostname) as [->|Hne].
      * cbn [run] in Run. destruct s as [|c r].
        -- rewrite (safe_set_hostname_empty v vf e Run). exact Hinv.
        -- assert (Hne : c :: r <> []) by discriminate.
           destruct (set_hostname_outcome _ v vf _ Hwf Hne Run)
             as [[-> _]|(H & _)]; [exact Hinv|now apply wf_invariant].
      * rewrite (safe_run op s Hne v vf e Run). exact Hinv.
  - unfold exec.
    destruct (set_port num v) as [vf [[]|e]] eqn:Run; cbn [fst].
    + apply wf_invariant. apply (set_port_effect num v vf Hwf Run).
    + rewrite (safe_set_port num v vf e Run). exact Hinv.
Qed.

End GrammarEffects.

Lemma setters_keep_invariant_witness :
  invariant (exec (run op_set_username (str "a b")) url_http_h) = true /\
  invariant (exec (set_port (Some 8080%N)) url_http_h) = true.
Proof.
  destruct (setters_keep_invariant op_set_username (str "a b")
              (Some 8080%N) url_http_h) as (H1 & H2); [reflexivity|].
  split; [apply H1; reflexivity|exact H2].
Defined.

(* ================================================================== *)
(** ** The strong guarantee *)
(* ================================================================== *)

(** C3.  Eighteen of the nineteen string setters give the strong
    guarantee: whenever one of them raises, for a bad argument or for a
    request that is too large, the container is the one before the call.
    [set_hostname] does not: it stores the encoded name and parses the
    stored host afterwards, so when that parse fails and the name is new
    the call raises with the container changed.  On the container built
    from [http://h:80/], [set_hostname("x")] raises [invalid_host] and leaves [http://x:80/],
    where [set_encoded_hostname], which parses before it writes, would
    have left the container alone. *)
Theorem strong_guarantee_but_set_hostname :
  (forall (G : Grammar) (op : setter) (s : bytes) (v : basic_value)
          (e : error),
     op <> op_set_hostname ->
     eval (run op s) v = Raise e -> exec (run op s) v = v) /\
  (forall (G : Grammar) (s : bytes) (v : basic_value) (e : error),
     invariant v = true -> s <> [] ->
     eval (run op_set_hostname s) v = Raise e -> e <> too_large ->
     encoded_hostname v <> pct.encode pct.reg_name_pct_set s ->
     exec (run op_set_hostname s) v <> v) /\
  (@construct rfc3986_grammar (str "http://h:80/") = (url_http_h_80, Ok tt) /\
   eval (@run rfc3986_grammar op_set_hostname (str "x")) url_http_h_80 =
     Raise invalid_host /\
   encoded_url url_http_h_80 = str "http://h:80/" /\
   encoded_url
     (exec (@run rfc3986_grammar op_set_hostname (str "x")) url_http_h_80) =
     str "http://x:80/").
Proof.
  split; [|split].
  - intros G op s v e Hop He. unfold eval, exec in *.
    destruct (run op s v) as [v' r] eqn:E. cbn [fst snd] in *. subst r.
    exact (safe_run op s Hop v v' e E).
  - intros G s v e Hinv Hs He Hne Hnew Heq. apply invariant_wf in Hinv.
    cbn [run] in *. unfold eval, exec in *.
    destruct (set_hostname s v) as [vf r] eqn:Run. cbn [fst snd] in *.
    subst r vf.
    destruct (set_hostname_outcome s v v _ Hinv Hs Run)
      as [(_ & Hr)|(_ & Hreg & _)].
    + injection Hr as ->. now apply Hne.
    + apply Hnew. exact Hreg.
  - split; [reflexivity|]. split; [reflexivity|]. split; reflexivity.
Qed.

Lemma strong_guarantee_but_set_hostname_witness :
  exec (run op_set_encoded_hostname (str "x:80")) url_http_h_80 =
    url_http_h_80 /\
  exec (run op_set_hostname (str "x")) url_http_h_80 <> url_http_h_80.
Proof.
  destruct strong_guarantee_but_set_hostname as (Hsafe & Hbroken & _).
  split.
  - apply (Hsafe rfc3986_grammar op_set_encoded_hostname (str "x:80")
             url_http_h_80 invalid_host); [discriminate|reflexivity].
  - apply (Hbroken rfc3986_grammar (str "x") url_http_h_80 invalid_host);
      [reflexivity|discriminate|reflexivity|discriminate|discriminate].
Defined.

(* ================================================================== *)
(** ** Encoded setters read back *)
(* ================================================================== *)

(** From a call that returned normally to its final state. *)
Lemma ran {A} (m : M A) (v : basic_value) (a : A) :
  eval m v = Ok a -> m v = (exec m v, Ok a).
Proof.
  unfold eval, exec. destruct (m v) as [vf r]. cbn [fst snd].
  now intros ->.
Qed.

(** X7.  When [set_scheme(s)] returns normally on a container that
    satisfies the invariant, [scheme()] returns [s], the scheme region is
    [s] followed by a colon (or empty for an empty [s]), every other
    component keeps its bytes and the invariant still holds. *)
Theorem set_scheme_reads_back (s : bytes) (v : basic_value) :
  invariant v = true ->
  eval (set_scheme s) v = Ok tt ->
  let v' := exec (set_scheme s) v in
  scheme v' = s /\
  region v' detail.id_scheme = (if empty s then [] else s ++ [chr ":"]) /\
  (forall j, 0 < j -> j < detail.id_end -> region v' j = region v j) /\
  invariant v' = true.
Proof.
  intros Hinv Hok. apply invariant_wf in Hinv. apply ran in Hok. cbv zeta.
  destruct (set_scheme_effect s v _ Hinv Hok) as (Hwf & _ & Hr & Hfr).
  unfold detail.id_end, detail.id_scheme.
  split; [|split; [exact Hr|split; [|now apply wf_invariant]]].
  - unfold scheme. change (detail.get _ detail.id_scheme _)
      with (region (exec (set_scheme s) v) 0).
    rewrite Hr. destruct s as [|c r]; [reflexivity|].
    cbn [empty]. change (empty ((c :: r) ++ [chr ":"])) with false.
    cbv iota. apply firstn_removelast.
  - intros j H0 H8. apply Hfr; lia.
Qed.

Lemma set_scheme_reads_back_witness :
  scheme (exec (set_scheme (str "ftp")) url_http_u_p_h) = str "ftp" /\
  encoded_url (exec (set_scheme (str "ftp")) url_http_u_p_h) =
    str "ftp://u:p@h/".
Proof.
  destruct (set_scheme_reads_back (str "ftp") url_http_u_p_h)
    as (H & _); [reflexivity|reflexivity|].
  split; [exact H|reflexivity].
Defined.

(** X8.  When [set_encoded_path(s)] returns normally, [encoded_path()]
    returns [s], every other component keeps its bytes and the invariant
    still holds; an empty [s] removes the path. *)
Theorem set_encoded_path_reads_back (s : bytes) (v : basic_value) :
  invariant v = true ->
  eval (set_encoded_path s) v = Ok tt ->
  let v' := exec (set_encoded_path s) v in
  encoded_path v' = s /\
  (forall j, j < detail.id_end -> j <> detail.id_path ->
     region v' j = region v j) /\
  invariant v' = true.
Proof.
  intros Hinv Hok. apply invariant_wf in Hinv. apply ran in Hok. cbv zeta.
  destruct (set_encoded_path_effect s v _ Hinv Hok) as (Hwf & _ & Hr & Hfr).
  split; [exact Hr|]. split; [exact Hfr|now apply wf_invariant].
Qed.

Lemma set_encoded_path_reads_back_witness :
  encoded_path (exec (set_encoded_path (str "/a/b")) url_http_u_p_h) =
    str "/a/b" /\
  region (exec (set_encoded_path (str "/a/b")) url_http_u_p_h) 3 = str "h".
Proof.
  destruct (set_encoded_path_reads_back (str "/a/b") url_http_u_p_h)
    as (H1 & H2 & _); [reflexivity|reflexivity|].
  split; [exact H1|].
  rewrite H2; [reflexivity|unfold detail.id_end; lia|discriminate].
Defined.

(** X9.  When [set_encoded_query(s)] returns normally, the query region
    is a question mark followed by [s] without its own leading question
    mark, if it has one (so ["?a"] and ["a"] give the same query), and is
    empty for an empty [s]; every other component keeps its bytes and the
    invariant still holds. *)
Theorem set_encoded_query_reads_back (s : bytes) (v : basic_value) :
  invariant v = true ->
  eval (set_encoded_query s) v = Ok tt ->
  let v' := exec (set_encoded_query s) v in
  encoded_query v' =
    (if empty s then [] else chr "?" :: query_argument s) /\
  (forall j, j < detail.id_end -> j <> detail.id_query ->
     region v' j = region v j) /\
  invariant v' = true.
Proof.
  intros Hinv Hok. apply invariant_wf in Hinv. apply ran in Hok. cbv zeta.
  destruct (set_encoded_query_effect s v _ Hinv Hok) as (Hwf & _ & Hr & Hfr).
  split; [exact Hr|]. split; [exact Hfr|now apply wf_invariant].
Qed.

Lemma set_encoded_query_reads_back_witness :
  encoded_query (exec (set_encoded_query (str "?k=v")) url_http_h) =
    str "?k=v" /\
  encoded_query (exec (set_encoded_query (str "k=v")) url_http_h) =
    str "?k=v".
Proof.
  split.
  - apply (set_encoded_query_reads_back (str "?k=v") url_http_h);
      reflexivity.
  - apply (set_encoded_query_reads_back (str "k=v") url_http_h);
      reflexivity.
Defined.

(** X10.  When [set_encoded_fragment(s)] returns normally,
    [encoded_fragment()] returns [s] and [fragment_part()] returns [s]
    behind a hash sign (nothing for an empty [s]); every other component
    keeps its bytes and the invariant still holds. *)
Theorem set_encoded_fragment_reads_back (s : bytes) (v : basic_value) :
  invariant v = true ->
  eval (set_encoded_fragment s) v = Ok tt ->
  let v' := exec (set_encoded_fragment s) v in
  encoded_fragment v' = s /\
  fragment_part v' = (if empty s then [] else chr "#" :: s) /\
  (forall j, j < detail.id_end -> j <> detail.id_frag ->
     region v' j = region v j) /\
  invariant v' = true.
Proof.
  intros Hinv Hok. apply invariant_wf in Hinv. apply ran in Hok. cbv zeta.
  destruct (set_encoded_fragment_effect s v _ Hinv Hok)
    as (Hwf & _ & Hr & Hfr).
  assert (Hp : fragment_part (exec (set_encoded_fragment s) v) =
               (if empty s then [] else chr "#" :: s)) by exact Hr.
  split; [|split; [exact Hp|split; [exact Hfr|now apply wf_invariant]]].
  unfold encoded_fragment. fold (fragment_part (exec (set_encoded_fragment s) v)).
  rewrite Hp. destruct s; reflexivity.
Qed.

Lemma set_encoded_fragment_reads_back_witness :
  encoded_fragment (exec (set_encoded_fragment (str "top")) url_http_h) =
    str "top".
Proof.
  apply (set_encoded_fragment_reads_back (str "top") url_http_h);
    reflexivity.
Defined.

(** X11.  [set_fragment_part(s)] wants the hash sign: a non-empty [s]
    that does not start with one raises [invalid_part] and the container
    is the one before the call; when the call returns normally,
    [fragment_part()] returns [s] and every other component keeps its
    bytes. *)
Theorem set_fragment_part_spec (s : bytes) (v : basic_value) :
  invariant v = true ->
  (s <> [] -> front s <> chr "#" ->
   set_fragment_part s v = (v, Raise invalid_part)) /\
  (eval (set_fragment_part s) v = Ok tt ->
   let v' := exec (set_fragment_part s) v in
   fragment_part v' = s /\
   (forall j, j < detail.id_end -> j <> detail.id_frag ->
      region v' j = region v j) /\
   invariant v' = true).
Proof.
  intros Hinv. apply invariant_wf in Hinv. split.
  - intros Hs Hf. unfold set_fragment_part.
    destruct s as [|c r]; [contradiction|]. cbn [empty].
    destruct (Ascii.eqb_spec (front (c :: r)) (chr "#")); [contradiction|].
    reflexivity.
  - intros Hok. apply ran in Hok. cbv zeta.
    destruct (set_fragment_part_effect s v _ Hinv Hok)
      as ((Hwf & _ & Hr & Hfr) & _).
    split; [exact Hr|]. split; [exact Hfr|now apply wf_invariant].
Qed.

Lemma set_fragment_part_spec_witness :
  set_fragment_part (str "top") url_http_h = (url_http_h, Raise invalid_part) /\
  fragment_part (exec (set_fragment_part (str "#top")) url_http_h) =
    str "#top".
Proof.
  destruct (set_fragment_part_spec (str "top") url_http_h) as (H1 & _);
    [reflexivity|].
  destruct (set_fragment_part_spec (str "#top") url_http_h) as (_ & H2);
    [reflexivity|].
  split.
  - apply H1; discriminate.
  - apply H2. reflexivity.
Defined.

(** X12.  When [set_encoded_username(s)] returns normally for a non-empty
    [s], [encoded_username()] returns [s]; the scheme and everything from
    the host on keep their bytes; a password region that was there is
    kept, and where there was none the user region is the two slashes and
    [s], followed by an at-sign as the password region. *)
Theorem set_encoded_username_reads_back (s : bytes) (v : basic_value) :
  invariant v = true ->
  s <> [] ->
  eval (set_encoded_username s) v = Ok tt ->
  let v' := exec (set_encoded_username s) v in
  encoded_username v' = s /\
  (forall j, j < detail.id_end -> j = detail.id_scheme \/ detail.id_hostname <= j ->
     region v' j = region v j) /\
  (region v detail.id_password = [] ->
   region v' detail.id_username = str "//" ++ s /\
   region v' detail.id_password = [chr "@"]) /\
  (region v detail.id_password <> [] ->
   region v' detail.id_password = region v detail.id_password) /\
  invariant v' = true.
Proof.
  intros Hinv Hs Hok. apply invariant_wf in Hinv. apply ran in Hok. cbv zeta.
  destruct (set_encoded_username_ok s v _ Hok Hs) as (_ & Hi).
  destruct (install_user_effect s v _ Hinv Hi)
    as (Hwf & _ & Hfr & Hsk & Hlen & Hno & Hpw).
  ids.
  split; [|split; [exact Hfr|split; [exact Hno|split]]].
  - unfold encoded_username.
    change (detail.get _ detail.id_username _)
      with (region (exec (set_encoded_username s) v) 1).
    rewrite empty_false by lia. exact Hsk.
  - intros Hne. apply (Hpw Hne).
  - now apply wf_invariant.
Qed.

Lemma set_encoded_username_reads_back_witness :
  encoded_username (exec (set_encoded_username (str "bob")) url_http_h) =
    str "bob" /\
  encoded_url (exec (set_encoded_username (str "bob")) url_http_h) =
    str "http://bob@h/".
Proof.
  destruct (set_encoded_username_reads_back (str "bob") url_http_h)
    as (H & _); [reflexivity|discriminate|reflexivity|].
  split; [exact H|reflexivity].
Defined.

(** X13.  When [set_encoded_password(s)] returns normally for a non-empty
    [s], [encoded_password()] returns [s] and the password region is a
    colon, [s] and an at-sign; a user region that was there is kept, and
    where there was none it becomes the two slashes; the scheme and
    everything from the host on keep their bytes. *)
Theorem set_encoded_password_reads_back (s : bytes) (v : basic_value) :
  invariant v = true ->
  s <> [] ->
  eval (set_encoded_password s) v = Ok tt ->
  let v' := exec (set_encoded_password s) v in
  encoded_password v' = s /\
  region v' detail.id_password = chr ":" :: s ++ [chr "@"] /\
  (forall j, j < detail.id_end -> j = detail.id_scheme \/ detail.id_hostname <= j ->
     region v' j = region v j) /\
  (region v detail.id_username = [] ->
   region v' detail.id_username = str "//") /\
  (region v detail.id_username <> [] ->
   region v' detail.id_username = region v detail.id_username) /\
  invariant v' = true.
Proof.
  intros Hinv Hs Hok. apply invariant_wf in Hinv. apply ran in Hok. cbv zeta.
  destruct (set_encoded_password_ok s v _ Hok Hs) as (_ & _ & Hi).
  destruct (install_password_effect s v _ Hinv Hi)
    as (Hwf & _ & Hfr & Hr & Hno & Hus).
  ids.
  split; [now apply encoded_password_of_region|].
  split; [exact Hr|]. split; [exact Hfr|]. split; [exact Hno|].
  split; [exact Hus|now apply wf_invariant].
Qed.

Lemma set_encoded_password_reads_back_witness :
  encoded_password (exec (set_encoded_password (str "pw")) url_http_u_h) =
    str "pw" /\
  encoded_url (exec (set_encoded_password (str "pw")) url_http_u_h) =
    str "http://u:pw@h/".
Proof.
  destruct (set_encoded_password_reads_back (str "pw") url_http_u_h)
    as (H & _); [reflexivity|discriminate|reflexivity|].
  split; [exact H|reflexivity].
Defined.

Lemma shrink_ok (v : basic_value) (id n : nat) :
  wf v -> id < 8 -> n <= off v (id + 1) - off v id ->
  exists v', resize id n v = (v', Ok (off v id)) /\
             resized id (id + 1) n v v'.
Proof.
  intros Hwf Hid Hn. apply resize_spec; try assumption.
  replace (n - (off v (id + 1) - off v id)) with 0 by lia.
  apply fits_zero.
Qed.

(** X14.  [set_password] with an empty string removes the password and
    never raises.  The password region becomes empty when
    the user region is just the two slashes, so the at-sign goes too;
    otherwise the at-sign alone is left; every other component keeps its
    bytes, and a container without a password region is not touched. *)
Theorem set_password_empty_removes (v : basic_value) :
  invariant v = true ->
  let v' := exec (set_password []) v in
  eval (set_password []) v = Ok tt /\
  region v' detail.id_password =
    (if empty (region v detail.id_password) then []
     else if List.length (region v detail.id_username) =? 2 then []
     else [chr "@"]) /\
  encoded_password v' = [] /\
  (forall j, j < detail.id_end -> j <> detail.id_password ->
     region v' j = region v j) /\
  (region v detail.id_password = [] -> v' = v) /\
  invariant v' = true.
Proof.
  intros Hinv. apply invariant_wf in Hinv. cbv zeta.
  assert (Hok : eval (set_password []) v = Ok tt).
  { unfold eval, set_password. cbn [empty]. cbv zeta.
    unfold bind at 1. unfold get_pt at 1.
    unfold detail.length. ids. fold (off v 1) (off v 2) (off v 3).
    destruct (Nat.eqb_spec (off v 3 - off v 2) 0) as [E0|E0];
      [reflexivity|].
    destruct (off v 2 - off v 1 =? 2).
    - destruct (shrink_ok v 2 0 Hinv ltac:(lia) ltac:(lia)) as (v1 & E & _).
      unfold ignore. rewrite (bind_ok _ _ _ _ _ E). reflexivity.
    - destruct (shrink_ok v 2 1 Hinv ltac:(lia) ltac:(ids; lia))
        as (v1 & E & _).
      rewrite (bind_ok _ _ _ _ _ E). reflexivity. }
  split; [exact Hok|]. apply ran in Hok.
  destruct (remove_password_effect v _ Hinv Hok)
    as ((Hwf & _ & Hr & Hfr) & Hsame).
  ids. split; [exact Hr|].
  split.
  { apply encoded_password_short. unfold detail.length. ids.
    pose proof (region_length _ 2 Hwf ltac:(lia)) as HL. ids.
    unfold off in HL. rewrite <- HL, Hr.
    destruct (empty _); [simpl; lia|].
    destruct (_ =? 2); simpl; lia. }
  split; [exact Hfr|]. split; [exact Hsame|now apply wf_invariant].
Qed.

Lemma set_password_empty_removes_witness :
  eval (set_password []) url_http_u_p_h = Ok tt /\
  region (exec (set_password []) url_http_u_p_h) 2 = [chr "@"] /\
  encoded_password (exec (set_password []) url_http_u_p_h) = [] /\
  encoded_url (exec (set_password []) url_http_u_p_h) = str "http://u@h/".
Proof.
  destruct (set_password_empty_removes url_http_u_p_h)
    as (H1 & H2 & H3 & _ & _ & _); [reflexivity|].
  split; [exact H1|]. split; [exact H2|]. split; [exact H3|reflexivity].
Defined.

(** X15.  When [set_port(num)] returns normally, the port number is
    [num], [port_string()] returns its decimal text (nothing for no
    number) and the port region is that text behind a colon; the scheme
    and everything from the path on keep their bytes.  On a container
    without an authority a number creates one: the user region becomes
    the two slashes, password and host name stay empty.  Otherwise user,
    password and host name keep their bytes. *)
Theorem set_port_spec (num : option N) (v : basic_value) :
  invariant v = true ->
  eval (set_port num) v = Ok tt ->
  let v' := exec (set_port num) v in
  port_number v' = num /\
  port_string v' =
    match num with
    | None => []
    | Some n => grammar.port_string n
    end /\
  (forall j, j < detail.id_end -> j = detail.id_scheme \/ detail.id_path <= j ->
     region v' j = region v j) /\
  (num <> None -> has_authority v = false ->
   region v' detail.id_username = str "//" /\
   region v' detail.id_password = [] /\
   region v' detail.id_hostname = []) /\
  (num = None \/ has_authority v = true ->
   forall j, detail.id_username <= j -> j <= detail.id_hostname ->
     region v' j = region v j) /\
  invariant v' = true.
Proof.
  intros Hinv Hok. apply invariant_wf in Hinv. apply ran in Hok. cbv zeta.
  destruct (set_port_effect num v _ Hinv Hok)
    as (Hwf & Hp & _ & Hfr & Hr & Hnew & Hold).
  unfold has_authority, detail.length_range. ids. fold (off v 5) (off v 1).
  split; [exact Hp|].
  split.
  { unfold port_string.
    change (detail.get _ detail.id_port _)
      with (region (exec (set_port num) v) 4).
    rewrite Hr. destruct num; reflexivity. }
  split; [exact Hfr|].
  split.
  { intros Hn Ha. apply negb_false_iff, Nat.eqb_eq in Ha.
    now apply Hnew. }
  split; [|now apply wf_invariant].
  intros [Hn|Ha]; [now apply Hold; left|].
  apply Hold. right. apply negb_true_iff, Nat.eqb_neq in Ha. exact Ha.
Qed.

Lemma set_port_spec_witness :
  port_number (exec (set_port (Some 8080%N)) value_init) = Some 8080%N /\
  port_string (exec (set_port (Some 8080%N)) value_init) = str "8080" /\
  region (exec (set_port (Some 8080%N)) value_init) 1 = str "//".
Proof.
  destruct (set_port_spec (Some 8080%N) value_init)
    as (H1 & H2 & _ & H3 & _); [reflexivity|reflexivity|].
  split; [exact H1|]. split; [exact H2|].
  apply H3; [discriminate|reflexivity].
Defined.

Lemma userinfo_strip (s : bytes) :
  (let r := str "//" ++ s ++ [chr "@"] in
   if empty r then r
   else
     let r := if Ascii.eqb (back r) (chr "@") then remove_suffix 1 r else r in
     remove_prefix 2 r) = s.
Proof.
  cbv zeta. change (empty (str "//" ++ s ++ [chr "@"])) with false.
  cbv iota. rewrite app_assoc. unfold back. rewrite last_last.
  rewrite Ascii.eqb_refl, firstn_removelast. reflexivity.
Qed.

(** X16.  When [set_encoded_userinfo(s)] returns normally for a non-empty
    [s], the userinfo range holds the two slashes, [s] and an at-sign, so
    [encoded_userinfo()] returns [s]; the scheme and everything from the
    host on keep their bytes and the invariant holds.  Inside the range
    the boundary between user and password is put [n0] bytes after the
    start of the range, where [n0] is the length of the user part of [s]:
    the two slashes are not counted, so [encoded_username()] returns the
    user cut short by two bytes. *)
Theorem set_encoded_userinfo_spec (s : bytes) (v : basic_value) :
  invariant v = true ->
  s <> [] ->
  eval (set_encoded_userinfo s) v = Ok tt ->
  let v' := exec (set_encoded_userinfo s) v in
  encoded_userinfo v' = s /\
  (forall j, j < detail.id_end -> j = detail.id_scheme \/ detail.id_hostname <= j ->
     region v' j = region v j) /\
  (exists n0, pct.parse pct.userinfo_nc_pct_set s = Ok n0 /\
              n0 <= List.length s /\
              List.length (region v' detail.id_username) = n0 /\
              encoded_username v' = firstn (n0 - 2) s) /\
  invariant v' = true.
Proof.
  intros Hinv Hs Hok. apply invariant_wf in Hinv. apply ran in Hok. cbv zeta.
  destruct (set_encoded_userinfo_effect s v _ Hinv Hok)
    as (Hwf & _ & Hfr & Hne & _).
  destruct (Hne Hs) as (Hrange & n0 & P0 & Hn0 & Ho).
  set (v' := exec (set_encoded_userinfo s) v) in *.
  ids.
  split.
  { unfold encoded_userinfo. ids. rewrite Hrange. apply userinfo_strip. }
  split; [exact Hfr|]. split; [|now apply wf_invariant].
  exists n0. split; [exact P0|]. split; [exact Hn0|].
  assert (HL : List.length (region v' 1) = n0).
  { rewrite (region_length v' 1 Hwf) by lia. ids. lia. }
  split; [exact HL|].
  (* the user region is the first n0 bytes of the range *)
  assert (Hreg : region v' 1 = firstn n0 (str "//" ++ s ++ [chr "@"])).
  { rewrite <- Hrange.
    unfold region, detail.get, detail.get_range, detail.length,
      detail.length_range. ids. fold (off v' 1) (off v' 2) (off v' 3).
    unfold sub. rewrite firstn_firstn.
    mono_facts Hwf 2 3.
    replace (Nat.min n0 (off v' 3 - off v' 1)) with (off v' 2 - off v' 1)
      by lia.
    reflexivity. }
  unfold encoded_username.
  change (detail.get _ detail.id_username _) with (region v' 1).
  rewrite Hreg. unfold remove_prefix.
  destruct n0 as [|[|n]].
  - reflexivity.
  - reflexivity.
  - cbn [str list_ascii_of_string app firstn empty negb skipn Nat.sub].
    rewrite Nat.sub_0_r.
    rewrite firstn_app.
    replace (n - List.length s) with 0 by lia.
    rewrite firstn_O. now rewrite app_nil_r.
Qed.

Lemma set_encoded_userinfo_spec_witness :
  encoded_userinfo (exec (set_encoded_userinfo (str "user:pw")) url_http_h) =
    str "user:pw" /\
  encoded_username (exec (set_encoded_userinfo (str "user:pw")) url_http_h) =
    str "us".
Proof.
  destruct (set_encoded_userinfo_spec (str "user:pw") url_http_h)
    as (H1 & _ & (n0 & P & _ & _ & H2) & _);
    [reflexivity|discriminate|reflexivity|].
  split; [exact H1|].
  injection P as <-. exact H2.
Defined.

(* ================================================================== *)
(** ** The whole URL *)
(* ================================================================== *)

Lemma write_whole (s b : bytes) :
  write (storage_resize (List.length s) b) 0 s = s ++ [NUL].
Proof.
  apply bytes_ext.
  - rewrite length_write, length_storage_resize, length_app. reflexivity.
  - intros k Hk. rewrite length_write, length_storage_resize in Hk.
    rewrite rd_write, rd_storage_resize, length_storage_resize, rd_app.
    rewrite Nat.sub_0_r. cbn [Nat.add Nat.leb].
    destruct (Nat.ltb_spec k (List.length s)) as [L|L].
    + destruct (Nat.ltb_spec k (List.length s + 1)); [reflexivity|lia].
    + replace (k - List.length s) with 0 by lia. reflexivity.
Qed.

Section WholeUrl.

Context {G : Grammar}.

(** X17.  [set_encoded_url(s)] with a non-empty [s] that parses forgets
    what the container held: whatever the state before, the table is the
    parser's and the buffer is [s] and the terminator.  When the parser's
    table spans [s], the invariant holds afterwards and [encoded_url()]
    returns [s]. *)
Theorem set_encoded_url_replaces (s : bytes) (pt : detail.parts)
    (v : basic_value) :
  s <> [] ->
  parse_url s = Ok pt ->
  set_encoded_url s v = (mk_value pt (s ++ [NUL]), Ok tt) /\
  (spans pt (List.length s) = true ->
   invariant (exec (set_encoded_url s) v) = true /\
   encoded_url (exec (set_encoded_url s) v) = s).
Proof.
  intros Hs Hp.
  assert (Run : set_encoded_url s v = (mk_value pt (s ++ [NUL]), Ok tt)).
  { unfold set_encoded_url. destruct s as [|c r]; [contradiction|].
    cbn [empty]. unfold bind, check_ec. rewrite Hp.
    unfold store, ret, modify_s, modify_pt. cbn [fst snd s_ pt_].
    now rewrite write_whole. }
  split; [exact Run|]. intros Hsp. unfold exec. rewrite Run. cbn [fst].
  unfold spans in Hsp.
  apply andb_true_iff in Hsp. destruct Hsp as [Hsp H8].
  apply andb_true_iff in Hsp. destruct Hsp as [Hsp Hso].
  apply andb_true_iff in Hsp. destruct Hsp as [H9 H0].
  apply Nat.eqb_eq in H8, H9, H0.
  assert (Hinv : invariant (mk_value pt (s ++ [NUL])) = true).
  { unfold invariant. cbn [pt_ s_]. cbv zeta.
    rewrite H9, H0, Hso, H8, Nat.eqb_refl. cbn [Nat.eqb andb].
    rewrite length_app. cbn [List.length].
    replace (List.length s <? List.length s + 1) with true
      by (symmetry; apply Nat.ltb_lt; lia).
    cbn [orb andb]. rewrite rd_app, Nat.ltb_irrefl, Nat.sub_diag.
    reflexivity. }
  split; [exact Hinv|].
  unfold encoded_url, detail.get_range, detail.length_range. cbn [pt_ s_].
  unfold detail.id_scheme. rewrite H8, H0, Nat.sub_0_r.
  unfold sub. rewrite skipn_O, firstn_app, Nat.sub_diag, firstn_all.
  cbn [firstn]. apply app_nil_r.
Qed.

End WholeUrl.

Lemma set_encoded_url_replaces_witness :
  set_encoded_url (str "http://h/") url_http_u_p_h = (url_http_h, Ok tt) /\
  encoded_url (exec (set_encoded_url (str "http://h/")) url_http_u_p_h) =
    str "http://h/".
Proof.
  destruct (set_encoded_url_replaces (str "http://h/")
              (table [0; 5; 7; 7; 8; 8; 9; 9; 9]) url_http_u_p_h)
    as (H1 & H2); [discriminate|reflexivity|].
  split; [exact H1|]. apply H2. reflexivity.
Defined.

Section Clear.

Context {G : Grammar}.

(** X18.  [set_encoded_url("")] on a container that has a buffer never
    raises and clears the URL: all nine offsets are zero, every region is
    empty, [encoded_url()] and the C string at [c_str()] are empty and the
    invariant holds.  The other fields of the table are not reset: the
    port number and the host type stay what they were.  A container
    without a buffer is not touched. *)
Theorem set_encoded_url_clears (v : basic_value) :
  invariant v = true ->
  let v' := exec (set_encoded_url []) v in
  eval (set_encoded_url []) v = Ok tt /\
  (forall i, i <= detail.id_end -> off v' i = 0) /\
  encoded_url v' = [] /\
  c_str v' = [] /\
  port_number v' = port_number v /\
  detail.host (pt_ v') = detail.host (pt_ v) /\
  (s_ v = [] -> v' = v) /\
  invariant v' = true.
Proof.
  intros Hinv. pose proof (invariant_wf v Hinv) as Hwf. cbv zeta.
  unfold exec, eval.
  destruct (set_encoded_url [] v) as [vf r] eqn:Run. cbn [fst snd].
  unfold set_encoded_url in Run. cbn [empty] in Run.
  unfold bind at 1 in Run. unfold get_s at 1 in Run.
  destruct (s_ v) as [|c b] eqn:Eb; cbn [empty negb] in Run.
  - unfold ret in Run. injection Run as <- <-.
    destruct (wf_buf Hwf) as [Hb|[_ Hb]]; [rewrite Eb in Hb; simpl in Hb; lia|].
    assert (Ho : forall i, i <= detail.id_end -> off v i = 0).
    { intros i Hi. unfold detail.id_end in Hi.
      pose proof (wf_mono Hwf i 8 Hi ltac:(lia)). lia. }
    split; [reflexivity|]. split; [exact Ho|].
    split.
    { unfold encoded_url, detail.get_range. rewrite Eb.
      unfold sub. now rewrite skipn_nil, firstn_nil. }
    split; [unfold c_str; now rewrite Eb|].
    repeat split; assumption.
  - destruct (resize_range_spec v 0 8 0 Hwf ltac:(lia) ltac:(lia))
      as (v1 & E & R); [apply fits_zero|].
    unfold ignore in Run. ids. rewrite (bind_ok _ _ _ _ _ E) in Run.
    unfold ret in Run. injection Run as <- <-.
    pose proof (rs_wf R) as Hwf1.
    assert (Ho : forall i, i <= 8 -> off v1 i = 0).
    { intros i Hi. destruct i as [|i]; [apply (wf_zero Hwf1)|].
      rewrite (rs_inside R (S i)) by lia. rewrite (wf_zero Hwf). lia. }
    assert (Hu : encoded_url v1 = []).
    { unfold encoded_url, detail.get_range, detail.length_range. ids.
      fold (off v1 8) (off v1 0). rewrite !Ho by lia. reflexivity. }
    split; [reflexivity|]. split; [exact Ho|]. split; [exact Hu|].
    split.
    { now rewrite (c_str_cut v1 Hwf1), Hu. }
    split; [apply (rs_port R)|]. split; [apply (rs_host R)|].
    split; [discriminate|now apply wf_invariant].
Qed.

End Clear.

Lemma set_encoded_url_clears_witness :
  encoded_url (exec (set_encoded_url []) url_http_h_80) = [] /\
  port_number (exec (set_encoded_url []) url_http_h_80) = Some 80%N.
Proof.
  destruct (set_encoded_url_clears url_http_h_80)
    as (_ & _ & H1 & _ & H2 & _); [reflexivity|].
  split; [exact H1|exact H2].
Defined.

(* ================================================================== *)
(** ** Host, authority and origin *)
(* ================================================================== *)

Lemma outside_region (v v1 vf : basic_value) (first last n j : nat) :
  wf v -> first < last -> last <= 8 ->
  resized first last n v v1 ->
  (forall k, k <= first \/ last <= k -> off vf k = off v1 k) ->
  List.length (s_ vf) = List.length (s_ v1) ->
  (forall i, i < off v first \/ off v first + n <= i ->
             rd (s_ vf) i = rd (s_ v1) i) ->
  j < 8 -> j < first \/ last <= j ->
  region vf j = region v j.
Proof.
  intros Hwf Hfl Hl R Hoff Hbuf Hrd Hj Hout.
  pose proof (rs_wf R) as Hwf1.
  destruct (resized_end v v1 first last n Hwf Hfl Hl R) as (E8 & EL & EF).
  transitivity (region v1 j).
  - unfold region, detail.get, detail.length.
    fold (off vf j) (off vf (j + 1)) (off v1 j) (off v1 (j + 1)).
    rewrite !Hoff by lia.
    pose proof (wf_bound v1 (j + 1) Hwf1 ltac:(lia)) as Hb.
    mono_facts Hwf1 j (j + 1).
    apply sub_ext; [rewrite Hbuf; lia|lia|].
    intros k Hk. apply Hrd.
    destruct Hout as [Hb4|Ha].
    + left. mono_facts Hwf1 (j + 1) first. lia.
    + right. mono_facts Hwf1 last j. lia.
  - unfold region. destruct Hout as [Hb4|Ha].
    + now apply (resized_region_before v v1 first last n j).
    + now apply (resized_region_after v v1 first last n j).
Qed.

(** A table whose offsets inside a range are in order, over a resized
    container, is well formed. *)
Lemma wf_inside (v v1 vf : basic_value) (first last n : nat) :
  wf v -> first < last -> last <= 8 ->
  resized first last n v v1 ->
  List.length (detail.offset (pt_ vf)) = 9 ->
  (forall k, k <= first \/ last <= k -> off vf k = off v1 k) ->
  List.length (s_ vf) = List.length (s_ v1) ->
  (forall i, i < off v first \/ off v first + n <= i ->
             rd (s_ vf) i = rd (s_ v1) i) ->
  (forall k, first <= k -> k < last -> off vf k <= off vf (k + 1)) ->
  wf vf.
Proof.
  intros Hwf Hfl Hl R H9 Hoff Hbuf Hrd Hmono.
  apply (filled_wf v v1 vf first last n Hwf Hfl Hl R).
  constructor; assumption.
Qed.

Section HostSetters.

Context {G : Grammar}.

Lemma set_encoded_host_effect (s : bytes) (v vf : basic_value) :
  wf v -> s <> [] -> set_encoded_host s v = (vf, Ok tt) ->
  exists pt,
    parse_host s = Ok pt /\
    detail.port (pt_ vf) = detail.port pt /\
    detail.host (pt_ vf) = detail.host pt /\
    encoded_host vf = s /\
    off vf 4 = off vf 3 + detail.length pt 3 /\
    (forall j, j < 8 -> j = 0 \/ 5 <= j -> region vf j = region v j) /\
    (off v 5 - off v 1 = 0 ->
     region vf 1 = str "//" /\ region vf 2 = []) /\
    (off v 5 - off v 1 <> 0 ->
     region vf 1 = region v 1 /\ region vf 2 = region v 2) /\
    (detail.length pt 3 <= List.length s -> wf vf).
Proof.
  intros Hwf Hs Run. unfold set_encoded_host in Run.
  destruct s as [|c s0]; [contradiction|]. cbn [empty] in Run.
  remember (c :: s0) as s eqn:Es. clear Es Hs c s0.
  unfold bind at 1 in Run. unfold lift at 1 in Run.
  destruct (parse_host s) as [pt|x] eqn:P; [|discriminate Run].
  exists pt. split; [reflexivity|].
  unfold bind at 1 in Run. unfold get_pt at 1 in Run.
  unfold detail.length_range in Run. ids. fold (off v 5) (off v 1) in Run.
  set (L := detail.length pt 3) in *.
  mono_facts Hwf 1 2. mono_facts Hwf 2 3. mono_facts Hwf 3 4.
  mono_facts Hwf 4 5.
  destruct (Nat.eqb_spec (off v 5 - off v 1) 0) as [E0|E0].
  - (* add authority *)
    unfold bind at 1 in Run.
    resize_step Run Hwf 1 (2 + List.length s) v1 E R.
    finish_run Run. ids.
    apply (resized_widen v v1 1 2 5 _ Hwf) in R; try lia.
    destruct (resized_end v v1 1 5 _ Hwf ltac:(lia) ltac:(lia) R)
      as (E8 & EL & EF).
    pose proof (rs_wf R) as Hwf1. pose proof (wf_len Hwf1) as HL1.
    pose proof (wf_bound v1 8 Hwf1 ltac:(lia)) as Hb.
    match goal with
    | |- context [mk_value ?pt ?b] => set (S := b); set (PT := pt)
    end.
    assert (O : forall k, detail.off PT k =
                if k =? 2 then off v 1 + 2
                else if k =? 3 then off v 1 + 2
                else if k =? 4 then off v 1 + 2 + L
                else detail.off (pt_ v1) k).
    { intros k. unfold PT. rewrite off_set_port, off_set_host.
      split_chain HL1. fold (off v1 1). rewrite EF. if_chain. }
    assert (HS : List.length S = List.length (s_ v1))
      by (unfold S; now rewrite !length_write).
    assert (H9 : List.length (detail.offset PT) = 9).
    { unfold PT, detail.set_port, detail.set_host. cbn [detail.offset].
      now rewrite !length_split. }
    assert (Hoff : forall k, k <= 1 \/ 5 <= k ->
                     off (mk_value PT S) k = off v1 k).
    { intros k Hk. ctx. rewrite O. split_bools; try lia; reflexivity. }
    assert (Hrd : forall i, i < off v 1 \/ off v 1 + (2 + List.length s) <= i ->
                    rd S i = rd (s_ v1) i).
    { intros i Hi. unfold S. rd_fast. }
    split; [reflexivity|]. split; [reflexivity|].
    split.
    { unfold encoded_host.
      refine (filled_range_inside v v1 (mk_value PT S) 1 5 _ 3 5 s 2
                Hwf _ _ R _ _ _ _ _); try lia; ctx;
        rewrite ?O; cbn [Nat.eqb Nat.leb andb]; try lia; try assumption.
      intros k Hk. unfold S. rd_fast. }
    split; [ctx; rewrite !O; cbn [Nat.eqb Nat.leb andb]; lia|].
    split.
    { intros j Hj Hout.
      refine (outside_region v v1 (mk_value PT S) 1 5 _ j Hwf _ _ R
                Hoff HS Hrd Hj _); lia. }
    split.
    { intros _. split.
      - refine (filled_inside v v1 (mk_value PT S) 1 5 _ 1 (str "//") 0
                  Hwf _ _ R _ _ _ _ _); try lia; ctx;
          cbn [List.length str list_ascii_of_string];
          rewrite ?O; cbn [Nat.eqb Nat.leb Nat.add andb];
          try lia; try assumption.
        intros k Hk. unfold S. rd_fast.
      - refine (filled_inside v v1 (mk_value PT S) 1 5 _ 2 [] 2
                  Hwf _ _ R _ _ _ _ _); try lia; ctx;
          cbn [List.length];
          rewrite ?O; cbn [Nat.eqb Nat.leb Nat.add andb];
          try lia; try assumption. }
    split; [intros Hn; lia|].
    intros HL.
    refine (wf_inside v v1 (mk_value PT S) 1 5 _ Hwf _ _ R H9 Hoff HS Hrd _);
      try lia.
    intros k Hk1 Hk2. ctx. rewrite !O.
    split_bools; try lia.
    + replace (k + 1) with 5 by lia. lia.
    + replace k with 1 by lia. lia.
  - (* the authority exists: the host range is resized *)
    unfold bind at 1 in Run.
    resize_range_step Run Hwf 3 5 (List.length s) v1 E R.
    finish_run Run. ids.
    destruct (resized_end v v1 3 5 _ Hwf ltac:(lia) ltac:(lia) R)
      as (E8 & EL & EF).
    pose proof (rs_wf R) as Hwf1. pose proof (wf_len Hwf1) as HL1.
    pose proof (wf_bound v1 8 Hwf1 ltac:(lia)) as Hb.
    match goal with
    | |- context [mk_value ?pt ?b] => set (S := b); set (PT := pt)
    end.
    assert (O : forall k, detail.off PT k =
                if k =? 4 then off v 3 + L else detail.off (pt_ v1) k).
    { intros k. unfold PT. rewrite off_set_port, off_set_host.
      rewrite !off_split, ?length_split, HL1. fold (off v1 3).
      rewrite EF. split_bools; try lia; reflexivity. }
    assert (HS : List.length S = List.length (s_ v1))
      by (unfold S; now rewrite !length_write).
    assert (H9 : List.length (detail.offset PT) = 9).
    { unfold PT, detail.set_port, detail.set_host. cbn [detail.offset].
      now rewrite !length_split. }
    assert (Hoff : forall k, k <= 3 \/ 5 <= k ->
                     off (mk_value PT S) k = off v1 k).
    { intros k Hk. ctx. rewrite O. split_bools; try lia; reflexivity. }
    assert (Hrd : forall i, i < off v 3 \/ off v 3 + List.length s <= i ->
                    rd S i = rd (s_ v1) i).
    { intros i Hi. unfold S. rd_fast. }
    assert (Hfr : forall j, j < 8 -> j < 3 \/ 5 <= j ->
                    region (mk_value PT S) j = region v j).
    { intros j Hj Hout.
      refine (outside_region v v1 (mk_value PT S) 3 5 _ j Hwf _ _ R
                Hoff HS Hrd Hj _); lia. }
    split; [reflexivity|]. split; [reflexivity|].
    split.
    { unfold encoded_host.
      refine (filled_range_inside v v1 (mk_value PT S) 3 5 _ 3 5 s 0
                Hwf _ _ R _ _ _ _ _); try lia; ctx;
        rewrite ?O; cbn [Nat.eqb Nat.leb andb]; try lia; try assumption.
      intros k Hk. unfold S. rd_fast. }
    split; [ctx; rewrite !O; cbn [Nat.eqb Nat.leb andb]; lia|].
    split; [intros j Hj Hout; apply Hfr; lia|].
    split; [intros Hz; lia|].
    split; [intros _; split; apply Hfr; lia|].
    intros HL.
    refine (wf_inside v v1 (mk_value PT S) 3 5 _ Hwf _ _ R H9 Hoff HS Hrd _);
      try lia.
    intros k Hk1 Hk2. ctx. rewrite !O.
    split_bools; try lia.
    + replace (k + 1) with 5 by lia. lia.
    + replace k with 3 by lia. lia.
Qed.

Lemma set_encoded_authority_effect (s : bytes) (v vf : basic_value) :
  wf v -> s <> [] -> set_encoded_authority s v = (vf, Ok tt) ->
  exists pt,
    parse_authority s = Ok pt /\
    detail.port (pt_ vf) = detail.port pt /\
    detail.host (pt_ vf) = detail.host (pt_ v) /\
    detail.get_range (pt_ vf) 1 5 (s_ vf) = str "//" ++ s /\
    (forall j, j < 8 -> j = 0 \/ 5 <= j -> region vf j = region v j) /\
    (detail.length pt 1 + detail.length pt 2 + detail.length pt 3
       <= List.length s ->
     wf vf /\
     List.length (region vf 1) = 2 + detail.length pt 1 /\
     List.length (region vf 2) = detail.length pt 2 /\
     List.length (region vf 3) = detail.length pt 3).
Proof.
  intros Hwf Hs Run. unfold set_encoded_authority in Run.
  destruct s as [|c s0]; [contradiction|]. cbn [empty] in Run.
  remember (c :: s0) as s eqn:Es. clear Es Hs c s0.
  unfold bind at 1 in Run. unfold lift at 1 in Run.
  destruct (parse_authority s) as [pt|x] eqn:P; [|discriminate Run].
  exists pt. split; [reflexivity|]. ids.
  set (l1 := detail.length pt 1) in *.
  set (l2 := detail.length pt 2) in *.
  set (l3 := detail.length pt 3) in *.
  resize_range_step Run Hwf 1 5 (2 + List.length s) v1 E R.
  finish_run Run. ids.
  destruct (resized_end v v1 1 5 _ Hwf ltac:(lia) ltac:(lia) R)
    as (E8 & EL & EF).
  pose proof (rs_wf R) as Hwf1. pose proof (wf_len Hwf1) as HL1.
  pose proof (wf_bound v1 8 Hwf1 ltac:(lia)) as Hb.
  match goal with
  | |- context [mk_value ?pt ?b] => set (S := b); set (PT := pt)
  end.
  assert (O : forall k, detail.off PT k =
              if k =? 2 then off v 1 + (2 + l1)
              else if k =? 3 then off v 1 + (2 + l1) + l2
              else if k =? 4 then off v 1 + (2 + l1) + l2 + l3
              else detail.off (pt_ v1) k).
  { intros k. unfold PT. rewrite off_set_port. split_chain HL1.
    fold (off v1 1). rewrite EF. if_chain. }
  assert (HS : List.length S = List.length (s_ v1))
    by (unfold S; now rewrite !length_write).
  assert (H9 : List.length (detail.offset PT) = 9).
  { unfold PT, detail.set_port. cbn [detail.offset].
    now rewrite !length_split. }
  assert (Hoff : forall k, k <= 1 \/ 5 <= k ->
                   off (mk_value PT S) k = off v1 k).
  { intros k Hk. ctx. rewrite O. split_bools; try lia; reflexivity. }
  assert (Hrd : forall i, i < off v 1 \/ off v 1 + (2 + List.length s) <= i ->
                  rd S i = rd (s_ v1) i).
  { intros i Hi. unfold S. rd_fast. }
  split; [reflexivity|].
  split; [apply (rs_host R)|].
  split.
  { refine (filled_range_inside v v1 (mk_value PT S) 1 5 _ 1 5
              (str "//" ++ s) 0 Hwf _ _ R _ _ _ _ _); try lia; ctx;
      cbn [List.length str list_ascii_of_string app];
      rewrite ?O; cbn [Nat.eqb Nat.leb andb]; try lia; try assumption.
    intros k Hk. unfold S. rd_fast. }
  split.
  { intros j Hj Hout.
    refine (outside_region v v1 (mk_value PT S) 1 5 _ j Hwf _ _ R
              Hoff HS Hrd Hj _); lia. }
  intros Hsum.
  assert (Hwff : wf (mk_value PT S)).
  { refine (wf_inside v v1 (mk_value PT S) 1 5 _ Hwf _ _ R H9 Hoff HS Hrd _);
      try lia.
    intros k Hk1 Hk2. ctx. rewrite !O.
    split_bools; try lia.
    - replace (k + 1) with 5 by lia. lia.
    - replace k with 1 by lia. lia. }
  split; [exact Hwff|].
  rewrite !(region_length _ _ Hwff) by lia. ctx. ids. rewrite !O.
  cbn [Nat.eqb]. repeat split; lia.
Qed.

Lemma set_encoded_origin_effect (s : bytes) (v vf : basic_value) :
  wf v -> s <> [] -> set_encoded_origin s v = (vf, Ok tt) ->
  exists pt,
    parse_origin s = Ok pt /\
    detail.port (pt_ vf) = detail.port pt /\
    detail.host (pt_ vf) = detail.host (pt_ v) /\
    (detail.length pt 0 + detail.length pt 1 + detail.length pt 2 +
     detail.length pt 3 + detail.length pt 4 = List.length s ->
     wf vf /\
     encoded_origin vf = s /\
     (forall j, j < 8 -> 5 <= j -> region vf j = region v j) /\
     (forall j, j < 5 -> List.length (region vf j) = detail.length pt j)).
Proof.
  intros Hwf Hs Run. unfold set_encoded_origin in Run.
  destruct s as [|c s0]; [contradiction|]. cbn [empty] in Run.
  remember (c :: s0) as s eqn:Es. clear Es Hs c s0.
  unfold bind at 1 in Run.
  destruct (parse_origin s) as [pt|x] eqn:P; [|discriminate Run].
  cbn [check_ec] in Run. unfold ret at 1 in Run.
  exists pt. split; [reflexivity|]. ids.
  set (l0 := detail.length pt 0) in *.
  set (l1 := detail.length pt 1) in *.
  set (l2 := detail.length pt 2) in *.
  set (l3 := detail.length pt 3) in *.
  set (l4 := detail.length pt 4) in *.
  resize_range_step Run Hwf 0 5 (List.length s) v1 E R.
  finish_run Run. ids.
  destruct (resized_end v v1 0 5 _ Hwf ltac:(lia) ltac:(lia) R)
    as (E8 & EL & EF).
  pose proof (rs_wf R) as Hwf1. pose proof (wf_len Hwf1) as HL1.
  pose proof (wf_bound v1 8 Hwf1 ltac:(lia)) as Hb.
  pose proof (wf_zero Hwf) as Z.
  match goal with
  | |- context [mk_value ?pt ?b] => set (S := b); set (PT := pt)
  end.
  assert (O : forall k, detail.off PT k =
              if k =? 1 then off v 0 + l0
              else if k =? 2 then off v 0 + l0 + l1
              else if k =? 3 then off v 0 + l0 + l1 + l2
              else if k =? 4 then off v 0 + l0 + l1 + l2 + l3
              else if k =? 5 then off v 0 + l0 + l1 + l2 + l3 + l4
              else detail.off (pt_ v1) k).
  { intros k. unfold PT. rewrite off_set_port. split_chain HL1.
    fold (off v1 0). rewrite EF. if_chain. }
  assert (HS : List.length S = List.length (s_ v1))
    by (unfold S; now rewrite !length_write).
  assert (H9 : List.length (detail.offset PT) = 9).
  { unfold PT, detail.set_port. cbn [detail.offset].
    now rewrite !length_split. }
  split; [reflexivity|].
  split; [apply (rs_host R)|].
  intros Hsum.
  assert (Hoff : forall k, k <= 0 \/ 5 <= k ->
                   off (mk_value PT S) k = off v1 k).
  { intros k Hk. ctx. rewrite O.
    split_bools; try reflexivity; try lia. subst k. lia. }
  assert (Hrd : forall i, i < off v 0 \/ off v 0 + List.length s <= i ->
                  rd S i = rd (s_ v1) i).
  { intros i Hi. unfold S. rd_fast. }
  assert (Hwff : wf (mk_value PT S)).
  { refine (wf_inside v v1 (mk_value PT S) 0 5 _ Hwf _ _ R H9 Hoff HS Hrd _);
      try lia.
    intros k Hk1 Hk2. ctx. rewrite !O.
    split_bools; try lia.
    replace k with 0 by lia. lia. }
  split; [exact Hwff|].
  split.
  { unfold encoded_origin. ids.
    refine (filled_range_inside v v1 (mk_value PT S) 0 5 _ 0 5 s 0
              Hwf _ _ R _ _ _ _ _); try lia; ctx;
      rewrite ?O; cbn [Nat.eqb Nat.leb andb]; try lia; try assumption.
    intros k Hk. unfold S. rd_fast. }
  split.
  { intros j Hj Hout.
    refine (outside_region v v1 (mk_value PT S) 0 5 _ j Hwf _ _ R
              Hoff HS Hrd Hj _); lia. }
  intros j Hj. rewrite (region_length _ _ Hwff) by lia. ctx. rewrite !O.
  destruct j as [|[|[|[|[|j]]]]]; cbn [Nat.eqb Nat.add]; lia.
Qed.

End HostSetters.

Section HostReadBack.

Context {G : Grammar}.

(** X19.  When [set_encoded_host(s)] returns normally for a non-empty
    [s], [encoded_host()] returns [s] and the port number and the host
    type are the parser's; the scheme and everything from the path on keep
    their bytes; user and password keep theirs when there was an
    authority, and where there was none the user region becomes the two
    slashes.  When the host name the parser found is no longer than [s],
    the invariant holds and [encoded_hostname()] returns that prefix of
    [s]. *)
Theorem set_encoded_host_reads_back (s : bytes) (v : basic_value) :
  invariant v = true ->
  s <> [] ->
  eval (set_encoded_host s) v = Ok tt ->
  let v' := exec (set_encoded_host s) v in
  exists pt,
    parse_host s = Ok pt /\
    encoded_host v' = s /\
    port_number v' = detail.port pt /\
    detail.host (pt_ v') = detail.host pt /\
    (forall j, j < detail.id_end -> j = detail.id_scheme \/ detail.id_path <= j ->
       region v' j = region v j) /\
    (has_authority v = false ->
     region v' detail.id_username = str "//" /\
     region v' detail.id_password = []) /\
    (has_authority v = true ->
     region v' detail.id_username = region v detail.id_username /\
     region v' detail.id_password = region v detail.id_password) /\
    (detail.length pt detail.id_hostname <= List.length s ->
     invariant v' = true /\
     encoded_hostname v' = firstn (detail.length pt detail.id_hostname) s).
Proof.
  intros Hinv Hs Hok. apply invariant_wf in Hinv. apply ran in Hok. cbv zeta.
  destruct (set_encoded_host_effect s v _ Hinv Hs Hok)
    as (pt & P & Hp & Hh & Hr & Ho & Hfr & Hnew & Hold & Hwf).
  set (v' := exec (set_encoded_host s) v) in *.
  exists pt. unfold has_authority, detail.length_range. ids.
  fold (off v 5) (off v 1).
  split; [exact P|]. split; [exact Hr|]. split; [exact Hp|].
  split; [exact Hh|]. split; [exact Hfr|].
  split.
  { intros Ha. apply negb_false_iff, Nat.eqb_eq in Ha. now apply Hnew. }
  split.
  { intros Ha. apply negb_true_iff, Nat.eqb_neq in Ha. now apply Hold. }
  intros HL. specialize (Hwf HL). split; [now apply wf_invariant|].
  set (L := detail.length pt 3) in *.
  rewrite <- Hr. unfold encoded_hostname, encoded_host, detail.get,
    detail.get_range, detail.length, detail.length_range. ids.
  fold (off v' 3) (off v' 4) (off v' 5).
  unfold sub. rewrite firstn_firstn.
  mono_facts Hwf 4 5.
  replace (Nat.min L (off v' 5 - off v' 3))
    with (off v' 4 - off v' 3) by lia.
  reflexivity.
Qed.

(** X20.  When [set_encoded_hostname(s)] returns normally,
    [encoded_hostname()] returns [s], every other component keeps its
    bytes, the port number is kept and the invariant holds; for a
    non-empty [s] the host type is the parser's. *)
Theorem set_encoded_hostname_reads_back (s : bytes) (v : basic_value) :
  invariant v = true ->
  eval (set_encoded_hostname s) v = Ok tt ->
  let v' := exec (set_encoded_hostname s) v in
  encoded_hostname v' = s /\
  (forall j, j < detail.id_end -> j <> detail.id_hostname ->
     region v' j = region v j) /\
  port_number v' = port_number v /\
  (s <> [] -> exists pt, parse_hostname s = Ok pt /\
                         detail.host (pt_ v') = detail.host pt) /\
  invariant v' = true.
Proof.
  intros Hinv Hok. apply invariant_wf in Hinv. apply ran in Hok. cbv zeta.
  destruct (set_encoded_hostname_effect s v _ Hinv Hok)
    as (Hwf & Hr & Hfr & Hp & Hh).
  split; [exact Hr|]. split; [exact Hfr|]. split; [exact Hp|].
  split; [exact Hh|now apply wf_invariant].
Qed.

(** X21.  When [set_encoded_authority(s)] returns normally for a
    non-empty [s], [encoded_authority()] returns [s] and the port number
    is the parser's, while the host type is left as it was; the scheme and
    everything from the path on keep their bytes.  When the lengths the
    parser found for user, password and host name fit in [s], the
    invariant holds and the three regions have those lengths (the user
    region two more, for the slashes). *)
Theorem set_encoded_authority_reads_back (s : bytes) (v : basic_value) :
  invariant v = true ->
  s <> [] ->
  eval (set_encoded_authority s) v = Ok tt ->
  let v' := exec (set_encoded_authority s) v in
  exists pt,
    parse_authority s = Ok pt /\
    encoded_authority v' = s /\
    port_number v' = detail.port pt /\
    detail.host (pt_ v') = detail.host (pt_ v) /\
    (forall j, j < detail.id_end -> j = detail.id_scheme \/ detail.id_path <= j ->
       region v' j = region v j) /\
    (detail.length pt detail.id_username + detail.length pt detail.id_password +
     detail.length pt detail.id_hostname <= List.length s ->
     invariant v' = true /\
     List.length (region v' detail.id_username) =
       2 + detail.length pt detail.id_username /\
     List.length (region v' detail.id_password) =
       detail.length pt detail.id_password /\
     List.length (region v' detail.id_hostname) =
       detail.length pt detail.id_hostname).
Proof.
  intros Hinv Hs Hok. apply invariant_wf in Hinv. apply ran in Hok. cbv zeta.
  destruct (set_encoded_authority_effect s v _ Hinv Hs Hok)
    as (pt & P & Hp & Hh & Hr & Hfr & Hwf).
  exists pt. ids.
  split; [exact P|].
  split.
  { unfold encoded_authority. ids. rewrite Hr. reflexivity. }
  split; [exact Hp|]. split; [exact Hh|]. split; [exact Hfr|].
  intros HL. destruct (Hwf HL) as (H1 & H2 & H3 & H4).
  split; [now apply wf_invariant|]. repeat split; assumption.
Qed.

(** X22.  When [set_encoded_origin(s)] returns normally for a non-empty
    [s] and the five lengths the parser found (scheme, user, password,
    host name, port) add up to the length of [s], [encoded_origin()]
    returns [s], the five regions have those lengths, path, query and
    fragment keep their bytes, the port number is the parser's and the
    invariant holds. *)
Theorem set_encoded_origin_reads_back (s : bytes) (v : basic_value) :
  invariant v = true ->
  s <> [] ->
  eval (set_encoded_origin s) v = Ok tt ->
  let v' := exec (set_encoded_origin s) v in
  exists pt,
    parse_origin s = Ok pt /\
    port_number v' = detail.port pt /\
    (detail.length pt 0 + detail.length pt 1 + detail.length pt 2 +
     detail.length pt 3 + detail.length pt 4 = List.length s ->
     encoded_origin v' = s /\
     (forall j, j < detail.id_end -> detail.id_path <= j ->
        region v' j = region v j) /\
     (forall j, j < detail.id_path ->
        List.length (region v' j) = detail.length pt j) /\
     invariant v' = true).
Proof.
  intros Hinv Hs Hok. apply invariant_wf in Hinv. apply ran in Hok. cbv zeta.
  destruct (set_encoded_origin_effect s v _ Hinv Hs Hok)
    as (pt & P & Hp & _ & Hlaw).
  exists pt. ids. split; [exact P|]. split; [exact Hp|].
  intros HL. destruct (Hlaw HL) as (H1 & H2 & H3 & H4).
  split; [exact H2|]. split; [exact H3|]. split; [exact H4|].
  now apply wf_invariant.
Qed.

(** X23.  [set_hostname] validates after it has written: it stores the
    encoded name and then hands the stored host, port included, to the
    parser.  So when the call raises anything but [too_large], the
    container is not the one before the call: the host name region holds
    the encoding of [s]; the other components keep their bytes and the
    invariant holds. *)
Theorem set_hostname_raises_after_store (s : bytes) (v : basic_value)
    (e : error) :
  invariant v = true ->
  s <> [] ->
  eval (set_hostname s) v = Raise e ->
  e <> too_large ->
  let v' := exec (set_hostname s) v in
  parse_hostname (encoded_host v') = Raise e /\
  encoded_hostname v' = pct.encode pct.reg_name_pct_set s /\
  (forall j, j < detail.id_end -> j <> detail.id_hostname ->
     region v' j = region v j) /\
  invariant v' = true.
Proof.
  intros Hinv Hs Hr He. apply invariant_wf in Hinv. cbv zeta.
  unfold eval, exec in *.
  destruct (set_hostname s v) as [vf r] eqn:Run. cbn [fst snd] in *.
  subst r.
  destruct (set_hostname_outcome s v vf _ Hinv Hs Run)
    as [[_ Ht]|(Hwf & Hreg & Hfr & _ & Hp)].
  - congruence.
  - destruct (parse_hostname (encoded_host vf)) as [pt|x].
    + destruct Hp as [Hp _]. discriminate Hp.
    + destruct Hp as [Hp _]. injection Hp as <-.
      split; [reflexivity|]. split; [exact Hreg|].
      split; [exact Hfr|now apply wf_invariant].
Qed.

End HostReadBack.

Lemma set_encoded_host_reads_back_witness :
  encoded_host (exec (set_encoded_host (str "example.com:8080")) url_http_h) =
    str "example.com:8080" /\
  port_number (exec (set_encoded_host (str "example.com:8080")) url_http_h) =
    Some 8080%N /\
  encoded_hostname
    (exec (set_encoded_host (str "example.com:8080")) url_http_h) =
    str "example.com".
Proof.
  destruct (set_encoded_host_reads_back (str "example.com:8080") url_http_h)
    as (pt & P & H1 & H2 & _ & _ & _ & _ & H3);
    [reflexivity|discriminate|reflexivity|].
  vm_compute in P. injection P as <-.
  split; [exact H1|]. split; [exact H2|].
  destruct H3 as (_ & H3); [vm_compute; lia|exact H3].
Defined.

Lemma set_encoded_hostname_reads_back_witness :
  encoded_hostname (exec (set_encoded_hostname (str "example.com")) url_http_h) =
    str "example.com" /\
  region (exec (set_encoded_hostname (str "example.com")) url_http_h) 5 =
    str "/".
Proof.
  destruct (set_encoded_hostname_reads_back (str "example.com") url_http_h)
    as (H1 & H2 & _); [reflexivity|reflexivity|].
  split; [exact H1|].
  rewrite H2; [reflexivity|unfold detail.id_end; lia|discriminate].
Defined.

Lemma set_encoded_authority_reads_back_witness :
  encoded_authority
    (exec (set_encoded_authority (str "u:p@example.com:80")) url_http_h) =
    str "u:p@example.com:80" /\
  port_number
    (exec (set_encoded_authority (str "u:p@example.com:80")) url_http_h) =
    Some 80%N.
Proof.
  destruct (set_encoded_authority_reads_back (str "u:p@example.com:80")
              url_http_h)
    as (pt & P & H1 & H2 & _);
    [reflexivity|discriminate|reflexivity|].
  vm_compute in P. injection P as <-.
  split; [exact H1|exact H2].
Defined.

Lemma set_encoded_origin_reads_back_witness :
  encoded_origin
    (exec (set_encoded_origin (str "ftp://example.com:21")) url_http_h) =
    str "ftp://example.com:21".
Proof.
  destruct (set_encoded_origin_reads_back (str "ftp://example.com:21")
              url_http_h)
    as (pt & P & _ & H);
    [reflexivity|discriminate|reflexivity|].
  vm_compute in P. injection P as <-.
  destruct H as (H & _); [reflexivity|exact H].
Defined.

Lemma set_hostname_raises_after_store_witness :
  eval (set_hostname (str "x")) url_http_h_80 = Raise invalid_host /\
  encoded_hostname (exec (set_hostname (str "x")) url_http_h_80) = str "x" /\
  encoded_url (exec (set_hostname (str "x")) url_http_h_80) =
    str "http://x:80/".
Proof.
  destruct (set_hostname_raises_after_store (str "x") url_http_h_80
              invalid_host)
    as (_ & H & _); [reflexivity|discriminate|reflexivity|discriminate|].
  split; [reflexivity|]. split; [exact H|reflexivity].
Defined.

(* ================================================================== *)
(** ** How setters compose *)
(* ================================================================== *)

Section Compose.

Context {G : Grammar}.

Lemma run_replaces (op : setter) (s : bytes) (id : nat) (v vf : basic_value) :
  target op = Some id -> wf v -> run op s v = (vf, Ok tt) ->
  id < 8 /\ replaces id (stored op s) v vf.
Proof.
  intros Ht Hwf Run. unfold stored.
  destruct op; cbn [target] in Ht; try discriminate Ht;
    injection Ht as <-; cbn [run] in Run; ids; (split; [lia|]).
  - pose proof (set_scheme_effect s v vf Hwf Run) as H.
    destruct (empty s); exact H.
  - pose proof (set_encoded_path_effect s v vf Hwf Run) as H.
    destruct (empty s) eqn:E; [apply empty_nil in E; now subst s|exact H].
  - pose proof (set_encoded_query_effect s v vf Hwf Run) as H.
    destruct (empty s); exact H.
  - pose proof (set_encoded_fragment_effect s v vf Hwf Run) as H.
    destruct (empty s); exact H.
  - destruct (set_fragment_part_effect s v vf Hwf Run) as [H _].
    destruct (empty s) eqn:E; [apply empty_nil in E; now subst s|exact H].
  - pose proof (set_query_effect s v vf Hwf Run) as H.
    destruct (empty s); exact H.
  - pose proof (set_fragment_effect s v vf Hwf Run) as H.
    destruct (empty s); exact H.
Qed.

(** Two containers with the same regions and fields: same table, same
    URL. *)
Lemma same_regions (v w : basic_value) :
  wf v -> wf w ->
  (forall j, j < 8 -> region v j = region w j) ->
  same_fields v w ->
  pt_ v = pt_ w /\ encoded_url v = encoded_url w /\ c_str v = c_str w.
Proof.
  intros Hv Hw Hr (F1 & F2 & F3 & F4).
  destruct (offsets_from_regions v w Hv Hw Hr) as [Ho Hu].
  split; [|split; [exact Hu|]].
  - destruct (pt_ v), (pt_ w). cbn in *. congruence.
  - now rewrite (c_str_cut v Hv), (c_str_cut w Hw), Hu.
Qed.

Lemma same_fields_trans (a b c : basic_value) :
  same_fields a b -> same_fields b c -> same_fields a c.
Proof.
  intros (A1 & A2 & A3 & A4) (B1 & B2 & B3 & B4). repeat split; congruence.
Qed.

Lemma same_fields_sym (a b : basic_value) :
  same_fields a b -> same_fields b a.
Proof. intros (A1 & A2 & A3 & A4). repeat split; congruence. Qed.

(** X24.  The last write wins.  For two setters of the same component
    (scheme, path, query or fragment, plain or encoded): when the first,
    then the second, and the second alone all return normally, setting
    twice leaves the same table, the same URL and the same C string as
    the second call alone; nothing of the first argument remains. *)
Theorem later_set_wins (op1 op2 : setter) (s1 s2 : bytes) (id : nat)
    (v : basic_value) :
  invariant v = true ->
  target op1 = Some id -> target op2 = Some id ->
  eval (run op1 s1) v = Ok tt ->
  eval (run op2 s2) (exec (run op1 s1) v) = Ok tt ->
  eval (run op2 s2) v = Ok tt ->
  let twice := exec (run op2 s2) (exec (run op1 s1) v) in
  let once := exec (run op2 s2) v in
  pt_ twice = pt_ once /\
  encoded_url twice = encoded_url once /\
  c_str twice = c_str once.
Proof.
  intros Hinv T1 T2 H1 H12 H2. apply invariant_wf in Hinv. cbv zeta.
  apply ran in H1, H12, H2.
  destruct (run_replaces op1 s1 id v _ T1 Hinv H1)
    as (Hid & W1 & F1 & R1 & Fr1).
  destruct (run_replaces op2 s2 id _ _ T2 W1 H12)
    as (_ & W12 & F12 & R12 & Fr12).
  destruct (run_replaces op2 s2 id v _ T2 Hinv H2)
    as (_ & W2 & F2 & R2 & Fr2).
  apply same_regions; try assumption.
  - intros j Hj. destruct (Nat.eq_dec j id) as [->|Hne].
    + now rewrite R12, R2.
    + rewrite Fr12, Fr1, Fr2 by assumption. reflexivity.
  - apply (same_fields_trans _ v).
    + apply same_fields_sym. apply (same_fields_trans _ _ _ F1 F12).
    + exact F2.
Qed.

(** X25.  Setters of different components commute.  For two setters of
    two different components among scheme, path, query and fragment: when
    the calls return normally in both orders, both orders leave the same
    table, the same URL and the same C string. *)
Theorem setters_commute (op1 op2 : setter) (s1 s2 : bytes) (id1 id2 : nat)
    (v : basic_value) :
  invariant v = true ->
  target op1 = Some id1 -> target op2 = Some id2 -> id1 <> id2 ->
  eval (run op1 s1) v = Ok tt ->
  eval (run op2 s2) (exec (run op1 s1) v) = Ok tt ->
  eval (run op2 s2) v = Ok tt ->
  eval (run op1 s1) (exec (run op2 s2) v) = Ok tt ->
  let ab := exec (run op2 s2) (exec (run op1 s1) v) in
  let ba := exec (run op1 s1) (exec (run op2 s2) v) in
  pt_ ab = pt_ ba /\
  encoded_url ab = encoded_url ba /\
  c_str ab = c_str ba.
Proof.
  intros Hinv T1 T2 Hne H1 H12 H2 H21. apply invariant_wf in Hinv. cbv zeta.
  apply ran in H1, H12, H2, H21.
  destruct (run_replaces op1 s1 id1 v _ T1 Hinv H1)
    as (Hid1 & W1 & F1 & R1 & Fr1).
  destruct (run_replaces op2 s2 id2 _ _ T2 W1 H12)
    as (Hid2 & W12 & F12 & R12 & Fr12).
  destruct (run_replaces op2 s2 id2 v _ T2 Hinv H2)
    as (_ & W2 & F2 & R2 & Fr2).
  destruct (run_replaces op1 s1 id1 _ _ T1 W2 H21)
    as (_ & W21 & F21 & R21 & Fr21).
  apply same_regions; try assumption.
  - intros j Hj.
    destruct (Nat.eq_dec j id1) as [->|N1].
    + rewrite Fr12, R1, R21 by auto. reflexivity.
    + destruct (Nat.eq_dec j id2) as [->|N2].
      * rewrite R12, Fr21, R2 by auto. reflexivity.
      * rewrite Fr12, Fr1, Fr21, Fr2 by assumption. reflexivity.
  - apply (same_fields_trans _ v).
    + apply same_fields_sym. apply (same_fields_trans _ _ _ F1 F12).
    + apply (same_fields_trans _ _ _ F2 F21).
Qed.

End Compose.

Lemma later_set_wins_witness :
  encoded_url
    (exec (run op_set_fragment (str "b"))
       (exec (run op_set_encoded_fragment (str "a%20long%20one")) url_http_h)) =
  encoded_url (exec (run op_set_fragment (str "b")) url_http_h).
Proof.
  apply (later_set_wins op_set_encoded_fragment op_set_fragment
           (str "a%20long%20one") (str "b") detail.id_frag url_http_h);
    reflexivity.
Defined.

Lemma setters_commute_witness :
  encoded_url
    (exec (run op_set_encoded_query (str "k=v"))
       (exec (run op_set_scheme (str "ftp")) url_http_h)) =
  encoded_url
    (exec (run op_set_scheme (str "ftp"))
       (exec (run op_set_encoded_query (str "k=v")) url_http_h)).
Proof.
  apply (setters_commute op_set_scheme op_set_encoded_query
           (str "ftp") (str "k=v") detail.id_scheme detail.id_query
           url_http_h);
    try reflexivity.
  discriminate.
Defined.

(* ================================================================== *)
(** ** When a setter returns normally *)
(* ================================================================== *)

Lemma succ_bind {A B} (m : M A) (k : A -> M B) (v v1 : basic_value) (a : A) :
  m v = (v1, Ok a) -> succeeds_at v1 (k a) -> succeeds_at v (bind m k).
Proof.
  intros E (vf & b & H). exists vf, b. unfold bind. now rewrite E.
Qed.

Lemma succ_total {A} (m : M A) (v : basic_value) :
  total m -> succeeds_at v m.
Proof. intros T. apply (T v). Qed.

Lemma succ_resize {B} (id n : nat) (k : nat -> M B) (v : basic_value) :
  wf v -> id < 8 -> fits v n = true ->
  (forall d, total (k d)) ->
  succeeds_at v (bind (resize id n) k).
Proof.
  intros Hwf Hid Hfit Tk.
  destruct (resize_spec v id n Hwf Hid) as (v1 & E & _).
  { apply (fits_mono v _ n); [lia|exact Hfit]. }
  apply (succ_bind _ _ _ _ _ E). apply succ_total, Tk.
Qed.

Lemma succ_resize_range {B} (first last n : nat) (k : nat -> M B)
    (v : basic_value) :
  wf v -> first < last -> last <= 8 -> fits v n = true ->
  (forall d, total (k d)) ->
  succeeds_at v (bind (resize_range first last n) k).
Proof.
  intros Hwf Hfl Hl Hfit Tk.
  destruct (resize_range_spec v first last n Hwf Hfl Hl) as (v1 & E & _).
  { apply (fits_mono v _ n); [lia|exact Hfit]. }
  apply (succ_bind _ _ _ _ _ E). apply succ_total, Tk.
Qed.

Lemma succ_assoc {A B C} (m : M A) (k : A -> M B) (k' : B -> M C)
    (v : basic_value) :
  succeeds_at v (bind m (fun a => bind (k a) k')) ->
  succeeds_at v (bind (bind m k) k').
Proof.
  intros (vf & c & H). exists vf, c. unfold bind in *.
  destruct (m v) as [v1 [a|x]]; [exact H|exact H].
Qed.

Lemma length_query_argument (s : bytes) :
  List.length (query_argument s) <= List.length s.
Proof.
  unfold query_argument, substr1.
  destruct (Ascii.eqb _ _); [rewrite length_skipn|]; lia.
Qed.

(** Run a setter whose validation passed down to its resize. *)
Ltac fit Hfit :=
  match goal with
  | |- fits ?v ?n = true =>
      refine (fits_mono v n _ _ Hfit); unfold room; cbn [List.length]; lia
  end.

Ltac passed Hval r :=
  let Er := fresh "Er" in
  destruct r eqn:Er; rewrite ?Er in Hval; cbn [thrown via_ec negb] in Hval;
  try discriminate Hval.

Ltac succeed Hwf Hfit Hval :=
  repeat first
    [ progress unfold ignore
    | match goal with
      | |- succeeds_at _ (bind (resize _ _) _) =>
          apply succ_resize;
          [exact Hwf|unfold detail.id_end; lia|fit Hfit|intros; totality]
      | |- succeeds_at _ (bind (resize_range _ _ _) _) =>
          apply succ_resize_range;
          [exact Hwf|unfold detail.id_end; lia|unfold detail.id_end; lia
          |fit Hfit|intros; totality]
      | |- succeeds_at _ (ret _) => apply succ_total, total_ret
      | |- succeeds_at _ (bind get_pt _) =>
          eapply succ_bind; [reflexivity|]
      | |- succeeds_at _ (bind get_s _) =>
          eapply succ_bind; [reflexivity|]
      | |- succeeds_at _ (bind (lift (Ok _)) _) =>
          eapply succ_bind; [reflexivity|]
      | |- succeeds_at _ (bind (check_ec (Ok _)) _) =>
          eapply succ_bind; [reflexivity|]
      | |- succeeds_at _ (bind (bind _ _) _) => apply succ_assoc
      | |- succeeds_at _ (bind (if ?c then _ else _) _) => destruct c
      | |- succeeds_at _ (bind (lift ?r) _) => passed Hval r
      | |- succeeds_at _ (bind (check_ec ?r) _) => passed Hval r
      | |- succeeds_at _ (if negb ?c then _ else _) =>
          passed Hval c; cbn [negb]
      | |- succeeds_at _ (if ?c then _ else _) => passed Hval c
      | |- succeeds_at _ (bind (modify_s _) _) =>
          apply succ_total; totality
      end ].

Section Success.

Context {G : Grammar}.

(** X26.  A setter returns normally when its argument passes its
    validation and there is room for three bytes for every byte of the
    argument and four more.  This holds for seventeen of the string
    setters, on every container that satisfies the invariant; with the
    strong guarantee it says when they raise: on an argument that fails
    validation, or when the result would be too large. *)
Theorem setter_succeeds (op : setter) (s : bytes) (v : basic_value) :
  invariant v = true ->
  checked op = true ->
  validation op s = Ok tt ->
  fits v (room s) = true ->
  eval (run op s) v = Ok tt.
Proof.
  intros Hinv Hop Hval Hfit. apply invariant_wf in Hinv.
  enough (H : succeeds_at v (run op s)).
  { destruct H as (vf & [] & H). unfold eval. now rewrite H. }
  unfold validation in Hval.
  pose proof (encoded_size_bound pct.userinfo_nc_pct_set s) as B1.
  pose proof (encoded_size_bound pct.userinfo_pct_set s) as B2.
  pose proof (encoded_size_bound pct.frag_pct_set s) as B3.
  pose proof (encoded_size_bound pct.query_pct_set (query_argument s)) as B4.
  pose proof (length_query_argument s) as B5.
  assert (B6 : List.length (substr1 s) <= List.length s)
    by (unfold substr1; rewrite length_skipn; lia).
  destruct op; try discriminate Hop; cbn [run];
    unfold set_encoded_url, set_encoded_origin, set_scheme,
      set_encoded_authority, set_encoded_userinfo, set_encoded_username,
      set_encoded_password, set_encoded_host, set_encoded_hostname,
      set_encoded_path, set_encoded_query, set_encoded_fragment,
      set_fragment_part, set_username, set_password, set_query, set_fragment;
    destruct (empty s) eqn:Hs; cbv zeta.
  all: rewrite ?Hs in Hval.
  all: unfold set_hostname; rewrite ?Hs; fold (query_argument s) in *; ids.
  all: solve [succeed Hinv Hfit Hval].
Qed.

End Success.

Lemma setter_succeeds_witness :
  eval (run op_set_encoded_userinfo (str "user:pw")) url_http_h = Ok tt /\
  eval (run op_set_encoded_host (str "example.com:8080")) url_http_h = Ok tt.
Proof.
  split.
  - apply (setter_succeeds op_set_encoded_userinfo (str "user:pw") url_http_h);
      reflexivity.
  - apply (setter_succeeds op_set_encoded_host (str "example.com:8080")
             url_http_h); reflexivity.
Defined.

(* ================================================================== *)
(** ** The segments iterator *)
(* ================================================================== *)

Import segments.

Lemma scan_bounds (s : bytes) : forall d p, p <= scan s p d <= p + d.
Proof.
  induction d as [|d IH]; intros p; cbn [scan]; [lia|].
  destruct (is_slash (rd s p)); [lia|]. specialize (IH (S p)). lia.
Qed.

(** The loop of [parse] passes no slash. *)
Lemma scan_clear (s : bytes) : forall d p i,
  p <= i < scan s p d -> is_slash (rd s i) = false.
Proof.
  induction d as [|d IH]; intros p i H; cbn [scan] in H; [lia|].
  destruct (is_slash (rd s p)) eqn:E; [lia|].
  destruct (Nat.eq_dec i p) as [->|Hne]; [exact E|].
  apply (IH (S p)). lia.
Qed.

(** Where it stops before the end, it stands at a slash. *)
Lemma scan_stop (s : bytes) : forall d p,
  scan s p d < p + d -> is_slash (rd s (scan s p d)) = true.
Proof.
  induction d as [|d IH]; intros p H; cbn [scan] in *; [lia|].
  destruct (is_slash (rd s p)) eqn:E; [exact E|]. apply IH. lia.
Qed.

Lemma forallb_sub (f : ascii -> bool) (s : bytes) (o n : nat) :
  o + n <= List.length s ->
  (forall i, o <= i < o + n -> f (rd s i) = true) ->
  forallb f (sub s o n) = true.
Proof.
  intros HL H. apply forallb_forall. intros c Hc.
  destruct (In_nth _ _ NUL Hc) as (k & Hk & <-).
  rewrite length_sub in Hk. fold (rd (sub s o n) k). rewrite rd_sub.
  destruct (k <? n) eqn:E; [|apply Nat.ltb_ge in E; lia].
  apply H. lia.
Qed.

Lemma sub_cons (s : bytes) (o n : nat) :
  o < List.length s -> sub s o (S n) = rd s o :: sub s (o + 1) n.
Proof.
  intros H. apply bytes_ext.
  - cbn [List.length]. rewrite !length_sub. lia.
  - intros k Hk. rewrite length_sub in Hk. rewrite rd_sub.
    destruct (k <? S n) eqn:E; [|apply Nat.ltb_ge in E; lia].
    destruct k as [|k]; [now rewrite Nat.add_0_r|].
    unfold rd at 2. cbn [nth]. fold (rd (sub s (o + 1) n) k).
    rewrite rd_sub. apply Nat.ltb_lt in E.
    destruct (k <? n) eqn:E'; [|apply Nat.ltb_ge in E'; lia].
    f_equal. lia.
Qed.

Section Walk.

Variable v : basic_value.
Hypothesis Hwf : wf v.

Lemma frag_bound : off v detail.id_frag <= List.length (s_ v).
Proof. apply (wf_bound v 7 Hwf). lia. Qed.

(** What [parse] leaves at an offset before the fragment: a piece of at
    least one byte that ends by the fragment, holds no slash after its
    first byte, and is followed by a slash unless it ends there. *)
Lemma parse_facts (o : nat) :
  o < off v detail.id_frag ->
  off_ (parse v o) = o /\
  1 <= n_ (parse v o) /\
  o + n_ (parse v o) <= off v detail.id_frag /\
  (forall i, o <= i < o + n_ (parse v o) ->
     i <> o \/ is_slash (rd (s_ v) o) = false ->
     is_slash (rd (s_ v) i) = false) /\
  (o + n_ (parse v o) < off v detail.id_frag ->
     is_slash (rd (s_ v) (o + n_ (parse v o))) = true).
Proof.
  intros Ho. unfold parse. cbn [off_ n_].
  destruct (is_slash (rd (s_ v) o)) eqn:E.
  - pose proof (scan_bounds (s_ v) (off v detail.id_frag - (o + 1)) (o + 1)) as B.
    split; [reflexivity|]. split; [lia|]. split; [lia|]. split.
    + intros i Hi [Hne|Hf]; [|discriminate Hf].
      apply (scan_clear (s_ v) (off v detail.id_frag - (o + 1)) (o + 1)). lia.
    + intros Hlt.
      replace (o + (scan (s_ v) (o + 1) (off v detail.id_frag - (o + 1)) - o))
        with (scan (s_ v) (o + 1) (off v detail.id_frag - (o + 1))) by lia.
      apply scan_stop. lia.
  - pose proof (scan_bounds (s_ v) (off v detail.id_frag - o) o) as B.
    assert (B1 : o + 1 <= scan (s_ v) o (off v detail.id_frag - o)).
    { destruct (off v detail.id_frag - o) as [|d] eqn:D; [lia|]. cbn [scan]. rewrite E.
      pose proof (scan_bounds (s_ v) d (S o)). lia. }
    split; [reflexivity|]. split; [lia|]. split; [lia|]. split.
    + intros i Hi _. apply (scan_clear (s_ v) (off v detail.id_frag - o) o). lia.
    + intros Hlt.
      replace (o + (scan (s_ v) o (off v detail.id_frag - o) - o))
        with (scan (s_ v) o (off v detail.id_frag - o)) by lia.
      apply scan_stop. lia.
Qed.

Lemma walk_done (fuel : nat) (it : iterator) :
  off_ it = off v detail.id_frag -> walk v fuel it = [].
Proof.
  intros H. destruct fuel as [|f]; [reflexivity|]. cbn [walk].
  rewrite H, Nat.eqb_refl. reflexivity.
Qed.

Lemma walk_step (f : nat) (o : nat) :
  o < off v detail.id_frag ->
  walk v (S f) (parse v o) =
    parse v o ::
    (if o + n_ (parse v o) =? off v detail.id_frag then []
     else walk v f (parse v (o + n_ (parse v o)))).
Proof.
  intros Ho. destruct (parse_facts o Ho) as (Hoff & _).
  cbn [walk]. rewrite Hoff.
  destruct (o =? off v detail.id_frag) eqn:E; [apply Nat.eqb_eq in E; lia|].
  f_equal. unfold next. rewrite Hoff.
  destruct (o + n_ (parse v o) =? off v detail.id_frag) eqn:E'; [|reflexivity].
  apply walk_done. cbn [off_]. now apply Nat.eqb_eq.
Qed.

(** Every iterator of the walk was made by [parse] at the start of the
    path or at a slash. *)
Lemma walk_visits : forall fuel o it,
  at_piece v o -> In it (walk v fuel (parse v o)) ->
  exists o', at_piece v o' /\ it = parse v o'.
Proof.
  induction fuel as [|f IH]; intros o it Ho Hin; [contradiction Hin|].
  destruct Ho as (HP & HF & Hs).
  destruct (parse_facts o HF) as (_ & Hn & Hend & _ & Hstop).
  rewrite (walk_step f o HF) in Hin. destruct Hin as [<-|Hin].
  - exists o. split; [split; [exact HP|split; [exact HF|exact Hs]]|reflexivity].
  - destruct (o + n_ (parse v o) =? off v detail.id_frag) eqn:E; [contradiction Hin|].
    apply Nat.eqb_neq in E. apply (IH (o + n_ (parse v o)) it); [|exact Hin].
    split; [lia|]. split; [lia|]. right. apply Hstop. lia.
Qed.

(** The pieces of the walk, put together, are the bytes from where it
    starts to the fragment. *)
Lemma walk_tiles : forall fuel o,
  o < off v detail.id_frag -> off v detail.id_frag - o <= fuel ->
  List.concat (map (piece v) (walk v fuel (parse v o))) =
    sub (s_ v) o (off v detail.id_frag - o).
Proof.
  induction fuel as [|f IH]; intros o Ho Hfuel; [lia|].
  destruct (parse_facts o Ho) as (Hoff & Hn & Hend & _).
  pose proof frag_bound as HB.
  rewrite (walk_step f o Ho). cbn [map List.concat].
  unfold piece at 1. rewrite Hoff.
  destruct (o + n_ (parse v o) =? off v detail.id_frag) eqn:E.
  - apply Nat.eqb_eq in E. cbn [map List.concat]. rewrite app_nil_r.
    f_equal. lia.
  - apply Nat.eqb_neq in E. rewrite IH by lia.
    replace (off v detail.id_frag - o)
      with (n_ (parse v o) +
            (off v detail.id_frag - (o + n_ (parse v o)))) by lia.
    rewrite sub_split by lia. reflexivity.
Qed.

(** One more increment after the last iterator of the walk gives offset
    [offset[id_frag]] and length zero. *)
Lemma walk_last : forall fuel o d,
  o < off v detail.id_frag -> off v detail.id_frag - o <= fuel ->
  next v (last (walk v fuel (parse v o)) d) = mk_iterator (off v detail.id_frag) 0.
Proof.
  induction fuel as [|f IH]; intros o d Ho Hfuel; [lia|].
  destruct (parse_facts o Ho) as (Hoff & Hn & Hend & _).
  rewrite (walk_step f o Ho).
  destruct (o + n_ (parse v o) =? off v detail.id_frag) eqn:E.
  - cbn [last]. unfold next. rewrite Hoff, E.
    apply Nat.eqb_eq in E. now rewrite E.
  - apply Nat.eqb_neq in E.
    assert (Hlt : o + n_ (parse v o) < off v detail.id_frag) by lia.
    specialize (IH (o + n_ (parse v o)) d Hlt ltac:(lia)).
    destruct f as [|f']; [lia|].
    rewrite (walk_step f' _ Hlt) in *.
    cbn [last] in *. exact IH.
Qed.

(** The bytes [operator*] returns hold no slash. *)
Lemma deref_clear (o : nat) :
  o < off v detail.id_frag ->
  forallb (fun c => negb (is_slash c)) (deref v (parse v o)) = true.
Proof.
  intros Ho.
  destruct (parse_facts o Ho) as (Hoff & Hn & Hend & Hclear & _).
  pose proof frag_bound as HB.
  unfold deref, piece. rewrite Hoff.
  destruct (n_ (parse v o)) as [|n] eqn:En; [lia|].
  rewrite (sub_cons (s_ v) o n) by lia.
  cbn [empty negb andb front nth].
  destruct (is_slash (rd (s_ v) o)) eqn:E.
  - unfold substr1. cbn [skipn]. apply forallb_sub; [lia|].
    intros i Hi. rewrite (Hclear i); [reflexivity|lia|left; lia].
  - rewrite <- (sub_cons (s_ v) o n) by lia. apply forallb_sub; [lia|].
    intros i Hi. rewrite (Hclear i); [reflexivity|lia|now right].
Qed.

(** The loop of [operator--] from the end of a piece stops at its start. *)
Lemma back_scan_piece (first o : nat) : forall n,
  first <= o ->
  (forall i, o < i < o + S n -> is_slash (rd (s_ v) i) = false) ->
  back_scan (s_ v) first (o + S n) =
    if first <? o then
      if is_slash (rd (s_ v) o) then (o, true)
      else back_scan (s_ v) first o
    else (o, false).
Proof.
  induction n as [|n IH]; intros Hle Hclear.
  - replace (o + 1) with (S o) by lia. reflexivity.
  - replace (o + S (S n)) with (S (o + S n)) by lia. cbn [back_scan].
    destruct (first <? o + S n) eqn:E; [|apply Nat.ltb_ge in E; lia].
    rewrite (Hclear (o + S n)) by lia. apply IH; [exact Hle|].
    intros i Hi. apply Hclear. lia.
Qed.

Lemma iterator_eta (it : iterator) (o n : nat) :
  off_ it = o -> n_ it = n -> mk_iterator o n = it.
Proof. intros <- <-. now destruct it. Qed.

Lemma prev_next (o : nat) :
  at_piece v o -> prev v (next v (parse v o)) = parse v o.
Proof.
  intros (HP & HF & Hs).
  destruct (parse_facts o HF) as (Hoff & Hn & Hend & Hclear & _).
  assert (Hnext : off_ (next v (parse v o)) = o + n_ (parse v o)).
  { unfold next. rewrite Hoff.
    destruct (o + n_ (parse v o) =? off v detail.id_frag) eqn:E0;
      [reflexivity|].
    apply Nat.eqb_neq in E0. apply parse_facts. lia. }
  unfold prev. rewrite Hnext.
  destruct (n_ (parse v o)) as [|n] eqn:En; [lia|].
  rewrite (back_scan_piece (off v detail.id_path) o n HP).
  2:{ intros i Hi. apply Hclear; [lia|left; lia]. }
  destruct (off v detail.id_path <? o) eqn:E.
  - apply Nat.ltb_lt in E.
    destruct Hs as [Hs|Hs]; [lia|]. now rewrite Hs.
  - apply iterator_eta; [exact Hoff|]. rewrite En. lia.
Qed.

End Walk.

Lemma begin_is_parse (v : basic_value) :
  detail.nseg (pt_ v) <> 0 -> begin_ v = parse v (off v detail.id_path).
Proof.
  intros H. unfold begin_, make. cbn [orb].
  destruct (detail.nseg (pt_ v) =? 0) eqn:E; [|reflexivity].
  apply Nat.eqb_eq in E. contradiction.
Qed.

Lemma at_piece_begin (v : basic_value) :
  off v detail.id_path < off v detail.id_frag ->
  at_piece v (off v detail.id_path).
Proof. intros H. split; [lia|]. split; [exact H|now left]. Qed.

(** X27.  In a container that holds the invariant, has segments and a
    non-empty path or query, the pieces the segments iterator visits from
    [begin()] by [operator++], put together, are the path followed by the
    query: the iteration does not stop where the path ends. *)
Theorem segments_tile_path_and_query (v : basic_value) (fuel : nat) :
  invariant v = true ->
  detail.nseg (pt_ v) <> 0 ->
  off v detail.id_path < off v detail.id_frag ->
  off v detail.id_frag - off v detail.id_path <= fuel ->
  List.concat (map (piece v) (walk v fuel (begin_ v))) =
    region v detail.id_path ++ region v detail.id_query.
Proof.
  intros Hinv Hseg Hlt Hfuel. apply invariant_wf in Hinv.
  rewrite (begin_is_parse v Hseg).
  rewrite (walk_tiles v Hinv fuel _ Hlt Hfuel).
  unfold region, detail.get, detail.length.
  change (detail.off (pt_ v) (detail.id_path + 1)) with (off v 6).
  change (detail.off (pt_ v) (detail.id_query + 1)) with (off v 7).
  change (detail.off (pt_ v) detail.id_path) with (off v 5).
  change (detail.off (pt_ v) detail.id_query) with (off v 6).
  change detail.id_path with 5. change detail.id_frag with 7 in *.
  pose proof (wf_mono Hinv 5 6 ltac:(lia) ltac:(lia)).
  pose proof (wf_mono Hinv 6 7 ltac:(lia) ltac:(lia)).
  pose proof (wf_bound v 7 Hinv ltac:(lia)).
  replace (off v 7 - off v 5)
    with ((off v 6 - off v 5) + (off v 7 - off v 6)) by lia.
  rewrite sub_split by lia.
  replace (off v 5 + (off v 6 - off v 5)) with (off v 6) by lia.
  reflexivity.
Qed.

Lemma segments_tile_path_and_query_witness :
  List.concat (map (piece url_a_b_q) (walk url_a_b_q 6 (begin_ url_a_b_q))) =
    region url_a_b_q detail.id_path ++ region url_a_b_q detail.id_query.
Proof.
  apply (segments_tile_path_and_query url_a_b_q 6);
    [reflexivity|discriminate|cbn; lia|cbn; lia].
Defined.

(** X28.  In such a container, no string that [operator*] returns at an
    iterator visited from [begin()] by [operator++] holds a slash: the
    leading slash of a piece is dropped and [parse] stops at the next
    one. *)
Theorem segments_hold_no_slash (v : basic_value) (fuel : nat)
    (it : iterator) :
  invariant v = true ->
  detail.nseg (pt_ v) <> 0 ->
  off v detail.id_path < off v detail.id_frag ->
  In it (walk v fuel (begin_ v)) ->
  forallb (fun c => negb (is_slash c)) (deref v it) = true.
Proof.
  intros Hinv Hseg Hlt Hin. apply invariant_wf in Hinv.
  rewrite (begin_is_parse v Hseg) in Hin.
  destruct (walk_visits v fuel _ it (at_piece_begin v Hlt) Hin)
    as (o & (_ & Ho & _) & ->).
  apply (deref_clear v Hinv o Ho).
Qed.

Lemma segments_hold_no_slash_witness :
  forallb (fun c => negb (is_slash c))
    (deref url_a_b_q (parse url_a_b_q 2)) = true.
Proof.
  apply (segments_hold_no_slash url_a_b_q 6 (parse url_a_b_q 2));
    [reflexivity|discriminate|cbn; lia|].
  right. left. reflexivity.
Defined.

(** X29.  In such a container, at every iterator visited from [begin()]
    by [operator++], [operator--] undoes [operator++]: decrementing the
    incremented iterator gives back the same offset and length. *)
Theorem decrement_undoes_increment (v : basic_value) (fuel : nat)
    (it : iterator) :
  invariant v = true ->
  detail.nseg (pt_ v) <> 0 ->
  off v detail.id_path < off v detail.id_frag ->
  In it (walk v fuel (begin_ v)) ->
  prev v (next v it) = it.
Proof.
  intros Hinv Hseg Hlt Hin. apply invariant_wf in Hinv.
  rewrite (begin_is_parse v Hseg) in Hin.
  destruct (walk_visits v fuel _ it (at_piece_begin v Hlt) Hin)
    as (o & Ho & ->).
  apply (prev_next v o Ho).
Qed.

Lemma decrement_undoes_increment_witness :
  prev url_a_b_q (next url_a_b_q (parse url_a_b_q 2)) = parse url_a_b_q 2.
Proof.
  apply (decrement_undoes_increment url_a_b_q 6 (parse url_a_b_q 2));
    [reflexivity|discriminate|cbn; lia|].
  right. left. reflexivity.
Defined.

(** X30.  In such a container, the increment after the last iterator
    visited from [begin()] leaves offset [offset[id_frag]] and length
    zero, while [end()] is at [offset[id_query]]: the two are the same
    iterator exactly when the query is empty. *)
Theorem segments_end_reached (v : basic_value) (fuel : nat) :
  invariant v = true ->
  detail.nseg (pt_ v) <> 0 ->
  off v detail.id_path < off v detail.id_frag ->
  off v detail.id_frag - off v detail.id_path <= fuel ->
  let it := next v (last (walk v fuel (begin_ v)) (begin_ v)) in
  it = mk_iterator (off v detail.id_frag) 0 /\
  (it = end_ v <-> region v detail.id_query = []).
Proof.
  intros Hinv Hseg Hlt Hfuel it. apply invariant_wf in Hinv.
  assert (Hit : it = mk_iterator (off v detail.id_frag) 0).
  { unfold it. rewrite (begin_is_parse v Hseg).
    apply (walk_last v fuel _ _ Hlt Hfuel). }
  split; [exact Hit|]. rewrite Hit. unfold end_, make. cbn [orb].
  pose proof (region_length v 6 Hinv ltac:(lia)) as HL.
  pose proof (wf_mono Hinv 6 7 ltac:(lia) ltac:(lia)) as HM.
  change (6 + 1) with 7 in HL.
  change detail.id_frag with 7. change detail.id_query with 6.
  split.
  - intros H. injection H as H. apply length_zero_iff_nil. lia.
  - intros H. rewrite H in HL. cbn [List.length] in HL. f_equal. lia.
Qed.

Lemma segments_end_reached_witness :
  next url_a_b_q (last (walk url_a_b_q 6 (begin_ url_a_b_q))
                    (begin_ url_a_b_q)) = mk_iterator 6 0 /\
  end_ url_a_b_q = mk_iterator 4 0.
Proof.
  destruct (segments_end_reached url_a_b_q 6) as (H & _);
    [reflexivity|discriminate|cbn; lia|cbn; lia|].
  split; [exact H|reflexivity].
Defined.
